From Stdlib Require Import ZArith Lia.
From stdpp Require Import gmap strings list fin_maps sorting.

Local Open Scope Z_scope.
Local Open Scope nat_scope.

(** * minimax-xo: the tic-tac-toe engine of [board.js]

    A shallow embedding of the [Board] class (grid, winner detection,
    child enumeration, memoised minimax score, move selection) and the
    properties of it that the specification states; then of the page,
    the [HTMLBoard] class with the set-up of [index.js]. *)

(** ** Symbols

    [board.js] is stringly typed.  The string literals it manipulates are
    ["X"], ["O"], ["E"] (cell contents), and ["D"], ["L"] (verdicts). *)

Inductive sym : Set := X | O | E | D | L.

Global Instance sym_eq_dec : EqDecision sym.
Proof. solve_decision. Defined.

(** The JavaScript string of a symbol, as [Array.prototype.join] sees it. *)
Definition show (s : sym) : string :=
  match s with
  | X => "X" | O => "O" | E => "E" | D => "D" | L => "L"
  end.

(** ** Numbers

    Scores are JavaScript numbers; the only non-integer values the engine
    can produce are the results of [Math.max()] and [Math.min()] on no
    arguments. *)

Inductive num : Set :=
| NegInf
| Fin (z : Z)
| PosInf.

Global Instance num_eq_dec : EqDecision num.
Proof. solve_decision. Defined.

Definition num_leb (a b : num) : bool :=
  match a, b with
  | NegInf, _ => true
  | _, PosInf => true
  | Fin x, Fin y => (x <=? y)%Z
  | _, _ => false
  end.

Definition num_max (a b : num) : num := if num_leb a b then b else a.
Definition num_min (a b : num) : num := if num_leb a b then a else b.

(** [Math.max(...l)] and [Math.min(...l)]. *)
Definition Math_max (l : list num) : num := foldr num_max NegInf l.
Definition Math_min (l : list num) : num := foldr num_min PosInf l.

Definition is_finite (n : num) : Prop := ∃ z, n = Fin z.

(** JavaScript truthiness of a number: [0] is falsy, the rest (no [NaN]
    arises here) is truthy. *)
Definition truthy (n : num) : bool := bool_decide (n ≠ Fin 0).

(** ** Boards *)

Record Board : Set := mkBoard {
  state : list (list sym);
  compSymbol : sym;
  isCompTurn : bool
}.

Global Instance Board_eq_dec : EqDecision Board.
Proof. solve_decision. Defined.

Definition boardSize (b : Board) : nat := length (state b).

Definition humanSymbol (b : Board) : sym :=
  if decide (compSymbol b = X) then O else X.

(** [state[y][x]]; [None] is JavaScript's [undefined]. *)
Definition cell (g : list (list sym)) (y x : nat) : option sym :=
  g !! y ≫= (.!! x).

(** A line is an array whose entries may be [undefined]. *)
Abbreviation line := (list (option sym)).

Definition getRows (b : Board) : list line :=
  (λ row : list sym, Some <$> row) <$> state b.

Definition getCols (b : Board) : list line :=
  (λ x, (λ row : list sym, row !! x) <$> state b) <$> seq 0 (boardSize b).

Definition getDiags (b : Board) : list line :=
  [ imap (λ i (row : list sym), row !! i) (state b);
    imap (λ i (row : list sym), row !! (boardSize b - i - 1)) (state b) ].

(** [line[0]] *)
Definition line0 (ln : line) : option sym := default None (head ln).

Definition getLineWinner (ln : line) : option sym :=
  if existsb (λ sq, bool_decide (sq = Some E)) ln then Some E
  else if forallb (λ sq, bool_decide (sq = line0 ln)) ln then line0 ln
  else Some D.

(** The [for (let line of lines)] loop of [getWinner], with its
    [isDraw] flag. *)
Fixpoint getWinner_loop (isDraw : bool) (lines : list line) : sym :=
  match lines with
  | [] => if isDraw then D else L
  | ln :: rest =>
      let winner := getLineWinner ln in
      if bool_decide (winner = Some X ∨ winner = Some O)
      then default D winner
      else getWinner_loop
             (if bool_decide (winner = Some E) then false else isDraw) rest
  end.

Definition lines (b : Board) : list line :=
  getRows b ++ getCols b ++ getDiags b.

Definition getWinner (b : Board) : sym := getWinner_loop true (lines b).

(** [clone] copies the rows; as a value the copy is the same board. *)
Definition clone (b : Board) : Board :=
  mkBoard ((λ row, row) <$> state b) (compSymbol b) (isCompTurn b).

(** The body of the [if] in [getChildBoards]: clone, write one cell,
    flip the turn. *)
Definition childAt (b : Board) (playerSymbol : sym) (y x : nat) : Board :=
  let newBoard := clone b in
  mkBoard (alter (λ row, <[x := playerSymbol]> row) y (state newBoard))
          (compSymbol newBoard)
          (negb (isCompTurn b)).

(** [const playerSymbol = this.isCompTurn ? this.compSymbol : this.humanSymbol] *)
Definition playerSymbol (b : Board) : sym :=
  if isCompTurn b then compSymbol b else humanSymbol b.

(** The two [for] loops, [y] outside and [x] inside, both up to
    [boardSize]. *)
Definition getChildBoards (b : Board) : list Board :=
  y ← seq 0 (boardSize b);
  x ← seq 0 (boardSize b);
  if bool_decide (cell (state b) y x = Some E)
  then [childAt b (playerSymbol b) y x]
  else [].

(** ** The shared cache and the memoised score *)

(** [row.toString()] and [this.state.join(";")]. *)
Definition rowString (row : list sym) : string :=
  String.concat "," (show <$> row).

Definition stringState (b : Board) : string :=
  String.concat ";" (rowString <$> state b).

(** [if (this.cache[stringState])]: a hit needs a truthy entry. *)
Definition cacheHit (c : gmap string num) (k : string) : option num :=
  match c !! k with
  | Some v => if truthy v then Some v else None
  | None => None
  end.

Section ForceGetScore.
(** [forceGetScore] only threads the store through the calls of
    [getScore] on the children; it is generic in it. *)
Context {St : Type}.
Variable getScore : Board → St → num * St.

(** [boards.map(board => board.getScore())], left to right. *)
Fixpoint mapScores (bs : list Board) (s : St) : list num * St :=
  match bs with
  | [] => ([], s)
  | b :: rest =>
      let '(v, s1) := getScore b s in
      let '(vs, s2) := mapScores rest s1 in
      (v :: vs, s2)
  end.

Definition forceGetScoreWith (b : Board) (s : St) : num * St :=
  if decide (getWinner b = compSymbol b)
  then (Fin (100 - Z.of_nat (length (getChildBoards b))), s)
  else if decide (getWinner b = humanSymbol b)
  then (Fin (-100 + Z.of_nat (length (getChildBoards b))), s)
  else if decide (getWinner b = D)
  then (Fin (0 + Z.of_nat (length (getChildBoards b))), s)
  else
    let '(scores, s') := mapScores (getChildBoards b) s in
    if isCompTurn b then (Math_max scores, s') else (Math_min scores, s').
End ForceGetScore.

(** Number of ["E"] cells of a grid: every move removes one. *)
Definition countE (g : list (list sym)) : nat :=
  length (filter (λ s, s = E) (concat g)).

(** [getScore] and [forceGetScore] call each other; the recursion is on
    a bound [n] on the depth of the game tree.  Every move of a player
    whose mark is ["X"] or ["O"] removes an empty cell, so the number of
    empty cells is such a bound, and a board without empty cells has no
    child: the function used at bound [0] is never called
    ([getScoreN_enough], [getScore_unfold]).  With ["E"] for
    [compSymbol] the JavaScript recursion would not end; the properties
    of [getScore] below assume a proper mark. *)
Fixpoint getScoreN (n : nat) (b : Board) (c : gmap string num)
  : num * gmap string num :=
  match cacheHit c (stringState b) with
  | Some v => (v, c)
  | None =>
      let '(score, c') :=
        match n with
        | 0 => forceGetScoreWith (λ _ c0, (Fin 0, c0)) b c
        | S n' => forceGetScoreWith (getScoreN n') b c
        end in
      (score, <[stringState b := score]> c')
  end.

Definition getScore (b : Board) (c : gmap string num)
  : num * gmap string num :=
  getScoreN (countE (state b)) b c.

Definition forceGetScore (b : Board) (c : gmap string num)
  : num * gmap string num :=
  forceGetScoreWith getScore b c.

(** [this.getChildBoards().find(board => board.getScore() === this.getScore())] *)
Fixpoint findBest (this : Board) (bs : list Board) (c : gmap string num)
  : option Board * gmap string num :=
  match bs with
  | [] => (None, c)
  | b :: rest =>
      let '(v, c1) := getScore b c in
      let '(w, c2) := getScore this c1 in
      if decide (v = w) then (Some b, c2) else findBest this rest c2
  end.

(** [None] is the [undefined] that both early exits return. *)
Definition getNextBestBoardState (b : Board) (c : gmap string num)
  : option Board * gmap string num :=
  if negb (isCompTurn b) then (None, c)
  else if decide (getWinner b = L)
  then findBest b (getChildBoards b) c
  else (None, c).

(** ** Well-formedness *)

(** The grid is [N×N]. *)
Definition square (g : list (list sym)) : Prop :=
  Forall (λ row, length row = length g) g.

(** The computer plays ["X"] or ["O"]. *)
Definition mark (s : sym) : Prop := s = X ∨ s = O.

Global Instance square_dec g : Decision (square g).
Proof. unfold square. apply _. Defined.

Global Instance mark_dec s : Decision (mark s).
Proof. unfold mark. apply _. Defined.

(** ** Lines and winners *)

(** The line consists entirely of the mark [m] (and has a cell at all). *)
Definition allMark (m : sym) (ln : line) : Prop :=
  ln ≠ [] ∧ Forall (λ sq, sq = Some m) ln.

(** The line contains an empty cell. *)
Definition hasEmpty (ln : line) : Prop := Some E ∈ ln.

(** No mark owns the line. *)
Definition noWin (ln : line) : Prop := ¬ allMark X ln ∧ ¬ allMark O ln.

(** The lines of an [N×N] grid by coordinates: the rows top to bottom,
    the columns left to right, the diagonal and the anti-diagonal. *)
Definition boardLines (g : list (list sym)) : list line :=
  let N := length g in
  ((λ y, (λ x, cell g y x) <$> seq 0 N) <$> seq 0 N)
  ++ ((λ x, (λ y, cell g y x) <$> seq 0 N) <$> seq 0 N)
  ++ [ (λ i, cell g i i) <$> seq 0 N;
       (λ i, cell g i (N - i - 1)) <$> seq 0 N ].

(** ** Relabelling the marks *)

Definition swapSym (s : sym) : sym :=
  match s with
  | X => O
  | O => X
  | s => s
  end.

Definition swapBoard (b : Board) : Board :=
  mkBoard ((λ row : list sym, swapSym <$> row) <$> state b)
          (swapSym (compSymbol b)) (isCompTurn b).

Definition swapLine (ln : line) : line :=
  (λ sq : option sym, swapSym <$> sq) <$> ln.

(** ** Child boards *)

(** The coordinates at which [getChildBoards] pushes a child, in the
    order of its two loops. *)
Definition emptyCells (g : list (list sym)) : list (nat * nat) :=
  y ← seq 0 (length g);
  x ← seq 0 (length g);
  if bool_decide (cell g y x = Some E) then [(y, x)] else [].


(** [child] is [b] after the side to move has marked the cell [(y, x)]. *)
Definition isMove (b : Board) (p : nat * nat) (child : Board) : Prop :=
  compSymbol child = compSymbol b ∧
  isCompTurn child = negb (isCompTurn b) ∧
  length <$> state child = length <$> state b ∧
  ∀ y x, cell (state child) y x =
         if decide ((y, x) = p) then Some (playerSymbol b)
         else cell (state b) y x.

(** ** The recursion of [getScore] *)

Definition child (p q : Board) : Prop := q ∈ getChildBoards p.

(** The positions of the game tree below [root]. *)
Definition reachable (root q : Board) : Prop := rtc child root q.

(** ** The minimax score of a position

    The score that the recursion of [forceGetScore] defines when nothing
    is cached. *)
Fixpoint minimaxN (n : nat) (b : Board) : num :=
  if decide (getWinner b = compSymbol b)
  then Fin (100 - Z.of_nat (length (getChildBoards b)))
  else if decide (getWinner b = humanSymbol b)
  then Fin (-100 + Z.of_nat (length (getChildBoards b)))
  else if decide (getWinner b = D)
  then Fin (0 + Z.of_nat (length (getChildBoards b)))
  else
    let scores :=
      match n with
      | 0 => []
      | S n' => minimaxN n' <$> getChildBoards b
      end in
    if isCompTurn b then Math_max scores else Math_min scores.

Definition minimax (b : Board) : num := minimaxN (countE (state b)) b.

(** Every cached value is an integer. *)
Definition cacheFinite (c : gmap string num) : Prop :=
  ∀ k v, c !! k = Some v → is_finite v.

(** The cache is sound for the game below [root]: every stored encoding
    of a position of that game maps to the minimax score of the
    position. *)
Definition cacheSound (root : Board) (c : gmap string num) : Prop :=
  ∀ q v, reachable root q → c !! stringState q = Some v → v = minimax q.

Definition sameLength (s t : string) : Prop :=
  String.length s = String.length t.

(** ** Counting the calls of [forceGetScore]

    [getScore] with a counter next to the cache: the counter is bumped
    each time [forceGetScore] is entered. *)
Fixpoint getScoreCountN (n : nat) (b : Board) (s : gmap string num * nat)
  : num * (gmap string num * nat) :=
  match cacheHit s.1 (stringState b) with
  | Some v => (v, s)
  | None =>
      let '(score, s') :=
        match n with
        | 0 => forceGetScoreWith (λ _ s0, (Fin 0, s0)) b (s.1, S s.2)
        | S n' => forceGetScoreWith (getScoreCountN n') b (s.1, S s.2)
        end in
      (score, (<[stringState b := score]> s'.1, s'.2))
  end.

Definition getScoreCount (b : Board) (s : gmap string num * nat)
  : num * (gmap string num * nat) :=
  getScoreCountN (countE (state b)) b s.

(** ** The scenario of the specification *)

Definition scenarioBoard : Board :=
  mkBoard [[X; E; E]; [E; X; E]; [O; O; E]] X true.

Definition scenarioMove : Board :=
  mkBoard [[X; E; E]; [E; X; E]; [O; O; X]] X false.

(** A full board without three in a row. *)
Definition drawnBoard : Board :=
  mkBoard [[X; O; X]; [X; O; O]; [O; X; X]] X false.

(** ** Boards as objects

    The value-level model above passes one cache along.  To speak about
    mutation and sharing, the same methods are modelled on a store of
    objects: a [Board] instance refers to its outer array, which refers
    to its row arrays, and to its cache object. *)

Module Heap.

Record instance : Type := mkInstance {
  i_state : nat;
  i_compSymbol : sym;
  i_isCompTurn : bool;
  i_cache : nat;
  i_boardSize : nat;
  i_humanSymbol : sym
}.

Inductive object : Type :=
| Row (cells : list sym)
| Rows (refs : list nat)
| Cache (entries : gmap string num)
| Instance (i : instance).

(** A computation on the store; [None] is a [TypeError]. *)
Definition M (A : Type) : Type := list object → option (A * list object).

Definition ret {A} (a : A) : M A := λ h, Some (a, h).

Definition bind {A B} (m : M A) (k : A → M B) : M B :=
  λ h, match m h with
       | Some (a, h') => k a h'
       | None => None
       end.

Definition fail {A} : M A := λ _, None.

Notation "'let*' x ':=' m 'in' k" := (bind m (λ x, k))
  (at level 10, x name, k at level 200).

Definition alloc (o : object) : M nat := λ h, Some (length h, h ++ [o]).

Definition load (l : nat) : M object :=
  λ h, match h !! l with
       | Some o => Some (o, h)
       | None => None
       end.

Definition store (l : nat) (o : object) : M unit :=
  λ h, if decide (l < length h) then Some (tt, <[l := o]> h) else None.

Definition loadRow (l : nat) : M (list sym) :=
  let* o := load l in match o with Row cells => ret cells | _ => fail end.

Definition loadRows (l : nat) : M (list nat) :=
  let* o := load l in match o with Rows refs => ret refs | _ => fail end.

Definition loadCache (l : nat) : M (gmap string num) :=
  let* o := load l in match o with Cache m => ret m | _ => fail end.

Definition loadInstance (l : nat) : M instance :=
  let* o := load l in match o with Instance i => ret i | _ => fail end.

Fixpoint mapM {A B} (f : A → M B) (l : list A) : M (list B) :=
  match l with
  | [] => ret []
  | a :: l' => let* b := f a in let* bs := mapM f l' in ret (b :: bs)
  end.

(** [new Board(board, compSymbol, isCompTurn, cache)] *)
Definition newBoard (board : nat) (compSymbol : sym) (isCompTurn : bool)
    (cache : nat) : M nat :=
  let* refs := loadRows board in
  alloc (Instance {| i_state := board;
                     i_compSymbol := compSymbol;
                     i_isCompTurn := isCompTurn;
                     i_cache := cache;
                     i_boardSize := length refs;
                     i_humanSymbol := if decide (compSymbol = X) then O else X |}).

(** [this.state.map(row => [...row])], then the constructor with
    [this.cache] itself. *)
Definition clone (this : nat) : M nat :=
  let* i := loadInstance this in
  let* refs := loadRows (i_state i) in
  let* newRefs :=
    mapM (λ r, let* cells := loadRow r in alloc (Row cells)) refs in
  let* newState := alloc (Rows newRefs) in
  newBoard newState (i_compSymbol i) (i_isCompTurn i) (i_cache i).

(** The grid of an instance, read through its references. *)
Definition readState (this : nat) : M (list (list sym)) :=
  let* i := loadInstance this in
  let* refs := loadRows (i_state i) in
  mapM loadRow refs.

(** The instance as a value. *)
Definition readBoard (this : nat) : M Board :=
  let* i := loadInstance this in
  let* g := readState this in
  ret (mkBoard g (i_compSymbol i) (i_isCompTurn i)).

(** [this.state[y][x]] *)
Definition readCell (this : nat) (y x : nat) : M (option sym) :=
  let* i := loadInstance this in
  let* refs := loadRows (i_state i) in
  match refs !! y with
  | None => fail
  | Some r => let* cells := loadRow r in ret (cells !! x)
  end.

(** [board.state[y][x] = s], for a cell that exists. *)
Definition writeCell (board : nat) (y x : nat) (s : sym) : M unit :=
  let* i := loadInstance board in
  let* refs := loadRows (i_state i) in
  match refs !! y with
  | None => fail
  | Some r => let* cells := loadRow r in store r (Row (<[x := s]> cells))
  end.

(** [board.isCompTurn = t] *)
Definition setIsCompTurn (board : nat) (t : bool) : M unit :=
  let* i := loadInstance board in
  store board (Instance {| i_state := i_state i;
                           i_compSymbol := i_compSymbol i;
                           i_isCompTurn := t;
                           i_cache := i_cache i;
                           i_boardSize := i_boardSize i;
                           i_humanSymbol := i_humanSymbol i |}).

(** One round of the inner loop of [getChildBoards]. *)
Definition childStep (this : nat) (playerSymbol : sym) (turn : bool)
    (p : nat * nat) : M (list nat) :=
  let* c := readCell this p.1 p.2 in
  if bool_decide (c = Some E)
  then let* newBoard := clone this in
       let* _ := writeCell newBoard p.1 p.2 playerSymbol in
       let* _ := setIsCompTurn newBoard (negb turn) in
       ret [newBoard]
  else ret [].

Definition getChildBoards (this : nat) : M (list nat) :=
  let* i := loadInstance this in
  let playerSymbol :=
    if i_isCompTurn i then i_compSymbol i else i_humanSymbol i in
  let* pushed :=
    mapM (childStep this playerSymbol (i_isCompTurn i))
      (y ← seq 0 (i_boardSize i); x ← seq 0 (i_boardSize i); [(y, x)]) in
  ret (concat pushed).

(** [getWinner] only reads. *)
Definition getWinner (this : nat) : M sym :=
  let* b := readBoard this in ret (getWinner b).

(** [this.state.join(";")] *)
Definition stringState (this : nat) : M string :=
  let* b := readBoard this in ret (stringState b).

(** [forceGetScore], given the [getScore] of the children. *)
Definition forceGetScoreWith (getScore : nat → M num) (this : nat) : M num :=
  let* i := loadInstance this in
  let* w1 := getWinner this in
  if decide (w1 = i_compSymbol i)
  then let* kids := getChildBoards this in
       ret (Fin (100 - Z.of_nat (length kids)))
  else
  let* w2 := getWinner this in
  if decide (w2 = i_humanSymbol i)
  then let* kids := getChildBoards this in
       ret (Fin (-100 + Z.of_nat (length kids)))
  else
  let* w3 := getWinner this in
  if decide (w3 = D)
  then let* kids := getChildBoards this in
       ret (Fin (0 + Z.of_nat (length kids)))
  else
  let* kids := getChildBoards this in
  let* scores := mapM getScore kids in
  ret (if i_isCompTurn i then Math_max scores else Math_min scores).

Fixpoint getScoreN (n : nat) (this : nat) : M num :=
  let* key := stringState this in
  let* i := loadInstance this in
  let* m := loadCache (i_cache i) in
  match cacheHit m key with
  | Some v => ret v
  | None =>
      let* score :=
        match n with
        | 0 => forceGetScoreWith (λ _, ret (Fin 0)) this
        | S n' => forceGetScoreWith (getScoreN n') this
        end in
      let* m' := loadCache (i_cache i) in
      let* _ := store (i_cache i) (Cache (<[key := score]> m')) in
      ret score
  end.

Definition getScore (this : nat) : M num :=
  let* b := readBoard this in getScoreN (countE (state b)) this.

Definition forceGetScore (this : nat) : M num :=
  forceGetScoreWith getScore this.

(** The callback of [find] and its loop. *)
Fixpoint findBest (this : nat) (kids : list nat) : M (option nat) :=
  match kids with
  | [] => ret None
  | board :: rest =>
      let* v := getScore board in
      let* w := getScore this in
      if decide (v = w) then ret (Some board) else findBest this rest
  end.

Definition getNextBestBoardState (this : nat) : M (option nat) :=
  let* i := loadInstance this in
  if negb (i_isCompTurn i) then ret None
  else
  let* w := getWinner this in
  if decide (w = L)
  then let* kids := getChildBoards this in findBest this kids
  else ret None.

End Heap.

(** [new Board(grid, compSymbol, isCompTurn, {...})] with array and
    object literals, as [index.js] does. *)
Definition construct (b : Board) (m : gmap string num) : Heap.M nat :=
  Heap.bind
    (Heap.mapM (λ cells, Heap.alloc (Heap.Row cells)) (state b))
    (λ refs,
       Heap.bind (Heap.alloc (Heap.Rows refs))
         (λ board,
            Heap.bind (Heap.alloc (Heap.Cache m))
              (λ cache,
                 Heap.newBoard board (compSymbol b) (isCompTurn b) cache))).

(** In the store [h] the location [l] holds a [Board] instance whose
    value is [b] and whose cache field is the reference [k]. *)
Definition boardAt (h : list Heap.object) (l : nat) (b : Board) (k : nat)
  : Prop :=
  ∃ i refs,
    h !! l = Some (Heap.Instance i) ∧
    h !! Heap.i_state i = Some (Heap.Rows refs) ∧
    Forall2 (λ r cells, h !! r = Some (Heap.Row cells)) refs (state b) ∧
    Heap.i_compSymbol i = compSymbol b ∧
    Heap.i_isCompTurn i = isCompTurn b ∧
    Heap.i_cache i = k ∧
    Heap.i_boardSize i = length refs ∧
    Heap.i_humanSymbol i = humanSymbol b.

(** The instance at [l], its outer array and its rows were all allocated
    at or after [n]. *)
Definition ownsFrom (n : nat) (h : list Heap.object) (l : nat) : Prop :=
  ∃ i refs,
    h !! l = Some (Heap.Instance i) ∧
    h !! Heap.i_state i = Some (Heap.Rows refs) ∧
    n ≤ l ∧ n ≤ Heap.i_state i ∧ Forall (λ r, n ≤ r) refs.

(** The cache object at [k] holds the entries [m]. *)
Definition cacheAt (h : list Heap.object) (k : nat) (m : gmap string num)
  : Prop :=
  h !! k = Some (Heap.Cache m).

(** From [h] to [h'] no object other than the one at [k] has changed. *)
Definition preserves (k : nat) (h h' : list Heap.object) : Prop :=
  length h ≤ length h' ∧ ∀ l, l < length h → l ≠ k → h' !! l = h !! l.

(** No cache object was created from [h] to [h']. *)
Definition noNewCache (h h' : list Heap.object) : Prop :=
  ∀ l m, h' !! l = Some (Heap.Cache m) → l < length h.

(** The objects of a board value [b] with cache reference [k], laid out
    from the location [n] on: its rows, its outer array, the instance. *)
Definition boardObjects (n : nat) (b : Board) (k : nat) : list Heap.object :=
  (Heap.Row <$> state b) ++
  [ Heap.Rows (seq n (length (state b)));
    Heap.Instance {| Heap.i_state := n + length (state b);
                     Heap.i_compSymbol := compSymbol b;
                     Heap.i_isCompTurn := isCompTurn b;
                     Heap.i_cache := k;
                     Heap.i_boardSize := length (state b);
                     Heap.i_humanSymbol := humanSymbol b |} ].

(** Where the instance of [boardObjects n b k] lies. *)
Definition boardLoc (n : nat) (b : Board) : nat := n + length (state b) + 1.

(** The objects of a list of board values, one board after the other
    from location [n] on, and the locations of their instances. *)
Fixpoint layout (n : nat) (bs : list Board) (k : nat)
  : list nat * list Heap.object :=
  match bs with
  | [] => ([], [])
  | b :: rest =>
      let objs := boardObjects n b k in
      let '(locs, more) := layout (n + length objs) rest k in
      (boardLoc n b :: locs, objs ++ more)
  end.

(** The method [rec] on objects computes what the function [prec] on
    values computes, writes the cache object at [k] and nothing else
    that exists. *)
Definition refines (k : nat) (rec : nat → Heap.M num)
    (prec : Board → gmap string num → num * gmap string num) : Prop :=
  ∀ kid child h m,
    boardAt h kid child k → cacheAt h k m →
    ∃ h', rec kid h = Some ((prec child m).1, h') ∧
          cacheAt h' k (prec child m).2 ∧ preserves k h h'.

(** The result on objects is an instance of the result on values. *)
Definition sameMove (h : list Heap.object) (k : nat) (r : option nat)
    (rb : option Board) : Prop :=
  match r, rb with
  | Some l, Some b => boardAt h l b k
  | None, None => True
  | _, _ => False
  end.

(** In [h'], which grew out of [h0], the instance [c] is a board of value
    [cb] that shares the cache reference [k] and owns a grid of its own:
    its arrays were allocated after [h0], and writing any of its cells
    leaves the board [this] of [h0] as it was. *)
Definition independentCopy (h0 h' : list Heap.object) (this : nat)
    (b : Board) (k c : nat) (cb : Board) : Prop :=
  boardAt h' c cb k ∧
  ownsFrom (length h0) h' c ∧
  ∀ y x s, y < boardSize cb →
           ∃ h'', Heap.writeCell c y x s h' = Some (tt, h'') ∧
                  boardAt h'' this b k.

(** The store of [index.js] style construction of the scenario board
    with an empty cache: rows at 0-2, the outer array at 3, the cache
    at 4, the instance at 5. *)
Definition scenarioStore : list Heap.object :=
  match construct scenarioBoard ∅ [] with
  | Some (_, h) => h
  | None => []
  end.

(** ** Further properties: definitions *)

(** The encoding [k] belongs to a position of the game below [b]. *)
Definition below (b : Board) (k : string) : Prop :=
  ∃ q, reachable b q ∧ stringState q = k.

(** From [c] to [c'] no key is dropped and no entry that a lookup would
    accept (a non-zero one) is changed. *)
Definition cacheGrows (c c' : gmap string num) : Prop :=
  ∀ k v, c !! k = Some v →
         is_Some (c' !! k) ∧ (v ≠ Fin 0 → c' !! k = Some v).

(** The integer [z] is a score of a position with [e] empty cells:
    a win of the computer, a draw, or a win of the human. *)
Definition scoreOf (e : nat) (z : Z) : Prop :=
  (100 - Z.of_nat e ≤ z ≤ 100)%Z ∨ z = 0%Z ∨
  (-100 ≤ z ≤ -100 + Z.of_nat e)%Z.

(** A position in which the computer can win at once by the move (2,1)
    and can also force a win one round later by the move (1,0). *)
Definition doubleThreatBoard : Board :=
  mkBoard [[O; X; O]; [E; X; E]; [O; E; E]] X true.

(** ** The page: [HTMLBoard]

    The elements of the page are values with a text and a set of class
    names; the cells of the table, the result element and the prediction
    element are taken to be different elements, as [index.js] builds
    them. *)

Record element : Type := mkElement {
  textContent : string;
  classList : gset string
}.

(** [e.classList.add(c)], [e.classList.remove(...cs)] and
    [e.textContent = s]. *)
Definition classList_add (c : string) (e : element) : element :=
  mkElement (textContent e) ({[c]} ∪ classList e).

Definition classList_remove (cs : gset string) (e : element) : element :=
  mkElement (textContent e) (classList e ∖ cs).

Definition setTextContent (s : string) (e : element) : element :=
  mkElement s (classList e).

Record HTMLBoard : Type := mkHTMLBoard {
  vBoard : Board;
  tdElements : list (list element);
  whoHasWonEl : element;
  predictionEl : element
}.

(** [tdElements[y][x]] *)
Definition td (tds : list (list element)) (y x : nat) : option element :=
  tds !! y ≫= (.!! x).

(** The text that [td.textContent = tileState] leaves: the mark, and the
    empty text for [undefined]. *)
Definition tileText (tileState : option sym) : string :=
  match tileState with
  | Some s => show s
  | None => ""
  end.

(** The body of the inner loop of [render] for the cell [(y, x)], with
    [w] the verdict of [getWinner]. *)
Definition renderCell (b : Board) (w : sym) (y x : nat) (e : element)
  : element :=
  let tileState := cell (state b) y x in
  let e1 :=
    if decide (tileState = Some E)
    then classList_add "legal" (setTextContent "" e)
    else classList_remove {["legal"]} (setTextContent (tileText tileState) e) in
  let e2 := if decide (w = L) then e1 else classList_remove {["legal"]} e1 in
  let e3 := if decide (w = humanSymbol b) then classList_add "good" e2 else e2 in
  let e4 := if decide (w = compSymbol b) then classList_add "bad" e3 else e3 in
  if decide (w = D) then classList_add "maybe" e4 else e4.

(** The two loops of [render], [x] outside and [y] inside; a cell of the
    table that does not exist is a [TypeError]. *)
Fixpoint renderCells (b : Board) (w : sym) (ps : list (nat * nat))
    (tds : list (list element)) : option (list (list element)) :=
  match ps with
  | [] => Some tds
  | p :: rest =>
      match td tds p.1 p.2 with
      | None => None
      | Some e =>
          renderCells b w rest
            (alter (λ row, <[p.2 := renderCell b w p.1 p.2 e]> row) p.1 tds)
      end
  end.

Definition renderOrder (n : nat) : list (nat * nat) :=
  x ← seq 0 n; y ← seq 0 n; [(y, x)].

(** [resultStrings[key]] as a pair of class and message; of equal keys
    in the object literal the later one counts. *)
Definition resultStrings (b : Board) (key : sym) : option (string * string) :=
  if decide (key = L) then Some ("exciting", "Game is ongoing")
  else if decide (key = D) then Some ("maybe", "Draw!")
  else if decide (key = humanSymbol b)
  then Some ("good", "Human (" +:+ show (humanSymbol b) +:+ ")")
  else if decide (key = compSymbol b)
  then Some ("bad", "Computer (" +:+ show (compSymbol b) +:+ ")")
  else None.

Definition num_ltb (a b : num) : bool := negb (num_leb b a).

(** The prediction of [render] from the score. *)
Definition predictedResult (b : Board) (score : num) : sym :=
  if num_ltb score (Fin (-50)) then humanSymbol b
  else if num_ltb (Fin 50) score then compSymbol b
  else D.

Definition statusClasses : gset string :=
  {["bad"; "good"; "maybe"; "exciting"]}.

(** Text, then [classList.remove("bad", "good", "maybe", "exciting")],
    then [classList.add]. *)
Definition showResult (r : string * string) (e : element) : element :=
  classList_add r.1 (classList_remove statusClasses (setTextContent r.2 e)).

Definition render (h : HTMLBoard) (c : gmap string num)
  : option (HTMLBoard * gmap string num) :=
  let b := vBoard h in
  tds ← renderCells b (getWinner b) (renderOrder (boardSize b)) (tdElements h);
  let '(score, c') := getScore b c in
  won ← resultStrings b (getWinner b);
  predicted ← resultStrings b (predictedResult b score);
  Some (mkHTMLBoard b tds (showResult won (whoHasWonEl h))
          (showResult predicted (predictionEl h)), c').

(** [attachEventListeners] reaches every cell of the table. *)
Definition attachEventListeners (h : HTMLBoard) : option unit :=
  if forallb (λ p, bool_decide (is_Some (td (tdElements h) p.1 p.2)))
       (renderOrder (boardSize (vBoard h)))
  then Some tt else None.

(** [this.vBoard.getNextBestBoardState() || this.vBoard] *)
Definition replyOrStay (b : Board) (c : gmap string num)
  : Board * gmap string num :=
  let '(r, c') := getNextBestBoardState b c in (default b r, c').

Definition withBoard (h : HTMLBoard) (b : Board) : HTMLBoard :=
  mkHTMLBoard b (tdElements h) (whoHasWonEl h) (predictionEl h).

(** [new HTMLBoard(vBoard, tdElements, whoHasWonEl, predictionEl)] *)
Definition newHTMLBoard (h : HTMLBoard) (c : gmap string num)
  : option (HTMLBoard * gmap string num) :=
  '(h1, c1) ←
    (if isCompTurn (vBoard h)
     then let '(b', c') := replyOrStay (vBoard h) c in
          render (withBoard h b') c'
     else Some (h, c));
  _ ← attachEventListeners h1;
  Some (h1, c1).

(** The handler of a click on the cell [(y, x)]. *)
Definition onClick (h : HTMLBoard) (x y : nat) (c : gmap string num)
  : option (HTMLBoard * gmap string num) :=
  let b := vBoard h in
  row ← state b !! y;
  if bool_decide (row !! x = Some E) && negb (isCompTurn b)
  then
    if decide (getWinner b = L)
    then
      let newBoard :=
        mkBoard (alter (λ row, <[x := humanSymbol b]> row) y
                   (state (clone b)))
                (compSymbol b) true in
      '(h1, c1) ← render (withBoard h newBoard) c;
      let '(b2, c2) := replyOrStay (vBoard h1) c1 in
      render (withBoard h1 b2) c2
    else Some (h, c)
  else Some (h, c).

(** [index.js]: a table of 3×3 fresh cells, the empty board with the
    computer playing ["X"] and the human to move, an empty cache; then
    [ourBoard.render()]. *)
Definition freshElement : element := mkElement "" ∅.

Definition openingBoard : Board :=
  mkBoard [[E; E; E]; [E; E; E]; [E; E; E]] X false.

Definition openingPage (who prediction : element) : HTMLBoard :=
  mkHTMLBoard openingBoard (replicate 3 (replicate 3 freshElement))
    who prediction.

Definition indexJs (who prediction : element)
  : option (HTMLBoard * gmap string num) :=
  '(h, c) ← newHTMLBoard (openingPage who prediction) ∅;
  render h c.

(** A run of clicks, each on a cell [(x, y)]. *)
Fixpoint clicks (ps : list (nat * nat)) (h : HTMLBoard)
    (c : gmap string num) : option (HTMLBoard * gmap string num) :=
  match ps with
  | [] => Some (h, c)
  | p :: rest => '(h1, c1) ← onClick h p.1 p.2 c; clicks rest h1 c1
  end.

(** The table has a cell for every coordinate of the board. *)
Definition tableCovers (h : HTMLBoard) : Prop :=
  ∀ y x, y < boardSize (vBoard h) → x < boardSize (vBoard h) →
         is_Some (td (tdElements h) y x).

(** A state of the page between two clicks in the game from [root]: the
    board is a well-formed position of the game, the cache is sound, the
    table covers the board, and the computer has nothing left to
    answer. *)
Definition pageOk (root : Board) (h : HTMLBoard) (c : gmap string num)
  : Prop :=
  square (state (vBoard h)) ∧ reachable root (vBoard h) ∧
  cacheSound root c ∧ tableCovers h ∧
  (isCompTurn (vBoard h) = false ∨ getWinner (vBoard h) ≠ L).

(** The page of [index.js] showing the position of the scenario. *)
Definition scenarioPage : HTMLBoard :=
  withBoard (openingPage freshElement freshElement) scenarioBoard.

(** * Properties *)

Lemma existsb_elem_of {A} (f : A → bool) (l : list A) :
  existsb f l = true ↔ ∃ a, a ∈ l ∧ f a = true.
Proof.
  rewrite existsb_exists. setoid_rewrite list_elem_of_In. done.
Qed.

Lemma forallb_Forall_true {A} (f : A → bool) (l : list A) :
  forallb f l = true ↔ Forall (λ a, f a = true) l.
Proof.
  induction l as [|a l IH]; simpl.
  - split; [constructor | done].
  - rewrite andb_true_iff, IH, Forall_cons. done.
Qed.

Lemma getLineWinner_E (ln : line) :
  getLineWinner ln = Some E ↔ hasEmpty ln.
Proof.
  unfold getLineWinner, hasEmpty.
  destruct (existsb _ ln) eqn:Hex.
  - apply existsb_elem_of in Hex as (a & Ha & Hd).
    apply bool_decide_eq_true in Hd. subst a. done.
  - assert (Hno : Some E ∉ ln).
    { intros Hin. apply not_true_iff_false in Hex. apply Hex.
      apply existsb_elem_of. exists (Some E). split; [done|].
      by apply bool_decide_eq_true. }
    split; [|done].
    destruct (forallb _ ln) eqn:Hall; [|done].
    intros H0. destruct ln as [|sq ln]; [done|].
    unfold line0 in H0. simpl in H0. subst sq.
    exfalso. apply Hno. left.
Qed.

Lemma getLineWinner_mark (m : sym) (ln : line) :
  mark m → getLineWinner ln = Some m ↔ allMark m ln.
Proof.
  intros Hm. unfold getLineWinner, allMark.
  destruct (existsb _ ln) eqn:Hex.
  - apply existsb_elem_of in Hex as (a & Ha & Hd).
    apply bool_decide_eq_true in Hd. subst a.
    split.
    + intros [= <-]. destruct Hm; done.
    + intros [_ Hall]. rewrite Forall_forall in Hall.
      apply Hall in Ha. destruct Hm; congruence.
  - destruct (forallb _ ln) eqn:Hall.
    + apply forallb_Forall_true in Hall.
      split.
      * intros H0. split.
        { intros ->. done. }
        rewrite <- H0. eapply Forall_impl; [exact Hall|].
        intros a Ha. by apply bool_decide_eq_true in Ha.
      * intros [Hne Hm']. destruct ln as [|sq ln]; [done|].
        apply Forall_cons in Hm' as [-> _]. done.
    + split.
      * intros [= <-]. destruct Hm; done.
      * intros [Hne Hm']. apply not_true_iff_false in Hall.
        exfalso. apply Hall. apply forallb_Forall_true.
        destruct ln as [|sq ln]; [done|].
        pose proof Hm' as Hm''. apply Forall_cons in Hm'' as [-> _].
        eapply Forall_impl; [exact Hm'|].
        intros a ->. by apply bool_decide_eq_true.
Qed.

Lemma noWin_getLineWinner (ln : line) :
  noWin ln ↔ ¬ (getLineWinner ln = Some X ∨ getLineWinner ln = Some O).
Proof.
  unfold noWin.
  rewrite <- (getLineWinner_mark X), <- (getLineWinner_mark O)
    by (unfold mark; auto).
  tauto.
Qed.

(** What the loop of [getWinner] returns, for any starting flag. *)
Lemma getWinner_loop_spec (d : bool) (ls : list line) :
  (∃ before ln after m,
     ls = before ++ ln :: after ∧ mark m ∧ allMark m ln ∧
     Forall noWin before ∧ getWinner_loop d ls = m)
  ∨ (Forall noWin ls ∧
     ((d = true ∧ Forall (λ ln, ¬ hasEmpty ln) ls ∧ getWinner_loop d ls = D)
      ∨ ((d = false ∨ Exists hasEmpty ls) ∧ getWinner_loop d ls = L))).
Proof.
  revert d. induction ls as [|ln ls IH]; intros d.
  - right. split; [constructor|]. simpl. destruct d.
    + left. split_and!; [done|constructor|done].
    + right. split; [by left | done].
  - simpl. case_bool_decide as Hw.
    + left. exists [], ln, ls.
      destruct Hw as [Hw|Hw]; rewrite Hw; simpl.
      * exists X. split_and!; [done|by left| |constructor|done].
        by apply (getLineWinner_mark X); [left|].
      * exists O. split_and!; [done|by right| |constructor|done].
        by apply (getLineWinner_mark O); [right|].
    + apply noWin_getLineWinner in Hw.
      destruct (IH (if bool_decide (getLineWinner ln = Some E)
                    then false else d))
        as [(before & l0 & after & m & -> & Hm & Hall & Hbef & Hres)
           |[Hno Hrest]].
      * left. exists (ln :: before), l0, after, m.
        split_and!; [done|done|done|by constructor|done].
      * right. split; [by constructor|].
        case_bool_decide as HE.
        -- right. apply getLineWinner_E in HE.
           destruct Hrest as [(? & _)|[_ Hres]]; [done|].
           split; [|done]. right. by left.
        -- rewrite getLineWinner_E in HE.
           destruct Hrest as [(Hd & Hfull & Hres)|[[Hd|Hex] Hres]].
           ++ left. split_and!; [done|by constructor|done].
           ++ right. split; [by left | done].
           ++ right. split; [right; by right | done].
Qed.

Lemma imap_lookup_seq {A B} (f : nat → A → option B) (l : list A) :
  imap (λ i a, f i a) l = (λ i, l !! i ≫= f i) <$> seq 0 (length l).
Proof.
  apply list_eq. intros i.
  rewrite list_lookup_imap, list_lookup_fmap.
  destruct (l !! i) as [a|] eqn:Hl; simpl.
  - rewrite lookup_seq_lt by (by eapply lookup_lt_Some).
    simpl. by rewrite Hl.
  - rewrite lookup_seq_ge; [done|]. by apply lookup_ge_None.
Qed.

Lemma fmap_lookup_seq {A B} (f : A → option B) (l : list A) :
  f <$> l = (λ i, l !! i ≫= f) <$> seq 0 (length l).
Proof. rewrite <- (imap_const f). apply (imap_lookup_seq (λ _, f)). Qed.

Lemma fmap_Some_lookup_seq {A} (l : list A) :
  Some <$> l = (λ i, l !! i) <$> seq 0 (length l).
Proof.
  rewrite (fmap_lookup_seq Some). apply list_fmap_ext.
  intros _ i _. by destruct (l !! i).
Qed.

(** On a square grid the lines that [getWinner] scans are the rows,
    columns and diagonals of the grid. *)
Lemma lines_square (b : Board) :
  square (state b) → lines b = boardLines (state b).
Proof.
  intros Hsq. unfold lines, boardLines, getRows, getCols, getDiags, boardSize.
  f_equal; [|f_equal].
  - apply list_eq. intros y. rewrite !list_lookup_fmap.
    destruct (state b !! y) as [row|] eqn:Hrow; simpl.
    + rewrite lookup_seq_lt by (by eapply lookup_lt_Some). simpl. f_equal.
      unfold square in Hsq. rewrite Forall_lookup in Hsq.
      rewrite <- (Hsq _ _ Hrow), fmap_Some_lookup_seq.
      apply list_fmap_ext. intros _ x _. unfold cell. by rewrite Hrow.
    + rewrite lookup_seq_ge; [done|]. by apply lookup_ge_None.
  - apply list_fmap_ext. intros _ x _.
    apply (fmap_lookup_seq (λ row : list sym, row !! x)).
  - f_equal; [|f_equal].
    + apply (imap_lookup_seq (λ i (row : list sym), row !! i)).
    + apply (imap_lookup_seq
               (λ i (row : list sym), row !! (length (state b) - i - 1))).
Qed.

(** The verdict of [getWinner] in terms of the lines it scans, for any
    grid. *)
Lemma getWinner_lines (b : Board) :
  (∀ m, mark m →
        getWinner b = m ↔
        ∃ before ln after,
          lines b = before ++ ln :: after ∧
          allMark m ln ∧ Forall noWin before)
  ∧ (getWinner b = D ↔
     Forall noWin (lines b) ∧ Forall (λ ln, ¬ hasEmpty ln) (lines b))
  ∧ (getWinner b = L ↔
     Forall noWin (lines b) ∧ Exists hasEmpty (lines b)).
Proof.
  unfold getWinner.
  assert (Hfirst : ∀ before before' (ln ln' : line) after after' m m',
             before ++ ln :: after = before' ++ ln' :: after' →
             mark m → mark m' → allMark m ln → allMark m' ln' →
             Forall noWin before → Forall noWin before' → m = m').
  { intros before before' ln ln' after after' m m' Heq Hm Hm' Ha Ha' Hb Hb'.
    assert (Hlen : length before = length before').
    { destruct (Nat.lt_total (length before) (length before'))
        as [Hlt|[Heq'|Hlt]]; [|done|]; exfalso.
      - rewrite Forall_lookup in Hb'.
        assert (before' !! length before = Some ln) as Hl.
        { rewrite <- (lookup_app_l _ (ln' :: after')) by done.
          rewrite <- Heq. by rewrite list_lookup_middle. }
        destruct (Hb' _ _ Hl) as [HX HO]. destruct Hm; subst; done.
      - rewrite Forall_lookup in Hb.
        assert (before !! length before' = Some ln') as Hl.
        { rewrite <- (lookup_app_l _ (ln :: after)) by done.
          rewrite Heq. by rewrite list_lookup_middle. }
        destruct (Hb _ _ Hl) as [HX HO]. destruct Hm'; subst; done. }
    assert (ln = ln') as <-.
    { assert (Some ln = Some ln') as [=]; [|done].
      rewrite <- (list_lookup_middle before after ln (length before)) by done.
      rewrite Heq. by apply list_lookup_middle. }
    destruct Ha as [Hne Ha], Ha' as [_ Ha'].
    destruct ln as [|sq ln]; [done|].
    apply Forall_cons in Ha as [-> _]. apply Forall_cons in Ha' as [[=] _].
    done. }
  assert (Hsplit : ∀ before (ln : line) after m,
             lines b = before ++ ln :: after → mark m → allMark m ln →
             ¬ Forall noWin (lines b)).
  { intros before ln after m -> Hm Ha Hall.
    apply Forall_app in Hall as [_ Hall].
    apply Forall_cons in Hall as [[HX HO] _]. destruct Hm; subst; done. }
  destruct (getWinner_loop_spec true (lines b))
    as [(before & ln & after & m & Heq & Hm & Ha & Hbef & Hres)
       |[Hno [(_ & Hfull & Hres)|([?|Hex] & Hres)]]]; [| |done|];
    rewrite Hres.
  - split_and!.
    + intros m' Hm'. split.
      * intros <-. by exists before, ln, after.
      * intros (before' & ln' & after' & Heq' & Ha' & Hbef').
        rewrite Heq in Heq'. by eapply Hfirst.
    + split; [intros ->; destruct Hm; done|].
      intros [Hall _]. exfalso. by eapply Hsplit.
    + split; [intros ->; destruct Hm; done|].
      intros [Hall _]. exfalso. by eapply Hsplit.
  - split_and!.
    + intros m' Hm'. split; [intros <-; destruct Hm'; done|].
      intros (before' & ln' & after' & Heq' & Ha' & Hbef').
      exfalso. by eapply Hsplit.
    + done.
    + split; [done|]. intros [_ Hex].
      apply Exists_exists in Hex as (ln & Hin & HE).
      rewrite Forall_forall in Hfull. exfalso. by eapply Hfull.
  - split_and!.
    + intros m' Hm'. split; [intros <-; destruct Hm'; done|].
      intros (before' & ln' & after' & Heq' & Ha' & Hbef').
      exfalso. by eapply Hsplit.
    + split; [done|]. intros [_ Hfull].
      apply Exists_exists in Hex as (ln & Hin & HE).
      rewrite Forall_forall in Hfull. exfalso. by eapply Hfull.
    + done.
Qed.

(** C5.  On every well-formed position [getWinner] returns the mark [m]
    exactly when the first row, column or diagonal (in that scan order)
    that consists entirely of one mark consists of [m]; when no line is
    owned by a mark it returns ["D"] exactly when no line contains an
    empty cell, and ["L"] exactly when some line does. *)
Theorem getWinner_correct (b : Board) :
  square (state b) →
  (∀ m, mark m →
        getWinner b = m ↔
        ∃ before ln after,
          boardLines (state b) = before ++ ln :: after ∧
          allMark m ln ∧ Forall noWin before)
  ∧ (getWinner b = D ↔
     Forall noWin (boardLines (state b)) ∧
     Forall (λ ln, ¬ hasEmpty ln) (boardLines (state b)))
  ∧ (getWinner b = L ↔
     Forall noWin (boardLines (state b)) ∧
     Exists hasEmpty (boardLines (state b))).
Proof.
  intros Hsq. rewrite <- (lines_square b Hsq). apply getWinner_lines.
Qed.

Lemma getWinner_correct_witness :
  let b := mkBoard [[X; E; E]; [E; X; E]; [O; O; X]] X false in
  square (state b) ∧
  (getWinner b = L ↔
   Forall noWin (boardLines (state b)) ∧
   Exists hasEmpty (boardLines (state b))).
Proof.
  intros b. assert (Hsq : square (state b)) by (repeat constructor).
  split; [exact Hsq|].
  exact (proj2 (proj2 (getWinner_correct b Hsq))).
Defined.

Lemma swapSym_involutive (s : sym) : swapSym (swapSym s) = s.
Proof. by destruct s. Qed.

Global Instance swapSym_inj : Inj (=) (=) swapSym.
Proof. intros s t H. by destruct s, t. Qed.

Lemma lines_swapBoard (b : Board) :
  lines (swapBoard b) = swapLine <$> lines b.
Proof.
  unfold lines, getRows, getCols, getDiags, boardSize, swapBoard, swapLine.
  simpl. rewrite !fmap_app, !length_fmap. f_equal; [|f_equal].
  - rewrite <- !list_fmap_compose. apply list_fmap_ext. intros _ row _.
    simpl. rewrite <- !list_fmap_compose. done.
  - rewrite <- !list_fmap_compose. apply list_fmap_ext. intros _ x _.
    simpl. rewrite <- !list_fmap_compose. apply list_fmap_ext.
    intros _ row _. simpl. apply list_lookup_fmap.
  - simpl. rewrite !imap_fmap, !fmap_imap. f_equal; [|f_equal].
    + apply imap_ext. intros i row _. simpl. apply list_lookup_fmap.
    + apply imap_ext. intros i row _. simpl. apply list_lookup_fmap.
Qed.

Lemma getLineWinner_swap (ln : line) :
  getLineWinner (swapLine ln) = swapSym <$> getLineWinner ln.
Proof.
  unfold getLineWinner.
  assert (Hex : existsb (λ sq, bool_decide (sq = Some E)) (swapLine ln)
                = existsb (λ sq, bool_decide (sq = Some E)) ln).
  { induction ln as [|sq ln IH]; [done|]. simpl. rewrite IH. f_equal.
    apply bool_decide_ext. destruct sq as [[]|]; simpl; split; congruence. }
  assert (H0 : line0 (swapLine ln) = swapSym <$> line0 ln).
  { by destruct ln. }
  rewrite Hex, H0. destruct (existsb _ ln); [done|].
  assert (Hall : forallb (λ sq, bool_decide (sq = swapSym <$> line0 ln))
                   (swapLine ln)
                 = forallb (λ sq, bool_decide (sq = line0 ln)) ln).
  { clear Hex H0. generalize (line0 ln). intros s0.
    induction ln as [|sq ln IH]; [done|]. simpl. rewrite IH. f_equal.
    apply bool_decide_ext. split; [|by intros ->].
    intros H. by apply (inj (fmap swapSym)) in H. }
  rewrite Hall. by destruct (forallb _ ln).
Qed.

Lemma getWinner_loop_swap (d : bool) (ls : list line) :
  getWinner_loop d (swapLine <$> ls) = swapSym (getWinner_loop d ls).
Proof.
  revert d. induction ls as [|ln ls IH]; intros d; simpl.
  - by destruct d.
  - rewrite getLineWinner_swap.
    destruct (getLineWinner ln) as [[]|]; simpl; try done; apply IH.
Qed.

(** C8.  Relabelling X↔O in every cell (and in the computer's symbol)
    mirrors the verdict of [getWinner]: an X-win becomes an O-win and
    vice versa, while ["D"] and ["L"] stay as they are. *)
Theorem getWinner_swap (b : Board) :
  getWinner (swapBoard b) = swapSym (getWinner b).
Proof.
  unfold getWinner. rewrite lines_swapBoard. apply getWinner_loop_swap.
Qed.

Lemma bind_ext_in {A B} (f g : A → list B) (l : list A) :
  (∀ a, a ∈ l → f a = g a) → l ≫= f = l ≫= g.
Proof.
  induction l as [|a l IH]; intros H; [done|].
  rewrite !bind_cons, H, IH; [done| |left].
  intros a' Ha'. apply H. by right.
Qed.

Lemma fmap_bind_list {A B C} (f : B → C) (k : A → list B) (l : list A) :
  f <$> (l ≫= k) = l ≫= λ a, f <$> k a.
Proof.
  induction l as [|a l IH]; [done|].
  by rewrite !bind_cons, fmap_app, IH.
Qed.



Lemma getChildBoards_emptyCells (b : Board) :
  getChildBoards b =
  (λ p, childAt b (playerSymbol b) p.1 p.2) <$> emptyCells (state b).
Proof.
  unfold getChildBoards, emptyCells, boardSize, playerSymbol.
  rewrite fmap_bind_list. apply list_bind_ext; [|done]. intros y.
  rewrite fmap_bind_list. apply list_bind_ext; [|done]. intros x.
  by case_bool_decide.
Qed.

Lemma elem_of_if_singleton {A} (c : bool) (a x : A) :
  x ∈ (if c then [a] else []) → c = true ∧ x = a.
Proof.
  destruct c; [|by intros ?%elem_of_nil].
  by intros ->%list_elem_of_singleton.
Qed.

Lemma elem_of_emptyCells (g : list (list sym)) (y x : nat) :
  (y, x) ∈ emptyCells g ↔
  y < length g ∧ x < length g ∧ cell g y x = Some E.
Proof.
  unfold emptyCells. rewrite list_elem_of_bind. split.
  - intros (y' & Hin & Hy'). apply elem_of_seq in Hy'.
    apply list_elem_of_bind in Hin as (x' & Hin & Hx').
    apply elem_of_seq in Hx'.
    apply elem_of_if_singleton in Hin as [Hc [= -> ->]].
    apply bool_decide_eq_true in Hc. split_and!; [lia|lia|done].
  - intros (Hy & Hx & Hc). exists y. split; [|apply elem_of_seq; lia].
    apply list_elem_of_bind. exists x. split; [|apply elem_of_seq; lia].
    rewrite bool_decide_eq_true_2 by done. left.
Qed.

Lemma cell_Some_lt (g : list (list sym)) (y x : nat) (s : sym) :
  square g → cell g y x = Some s → y < length g ∧ x < length g.
Proof.
  unfold cell, square. intros Hsq Hc.
  destruct (g !! y) as [row|] eqn:Hrow; [|done]. simpl in Hc.
  rewrite Forall_lookup in Hsq. rewrite <- (Hsq _ _ Hrow) at 2.
  split; by eapply lookup_lt_Some.
Qed.


Lemma childAt_state (b : Board) (s : sym) (y x : nat) :
  state (childAt b s y x) = alter (λ row, <[x := s]> row) y (state b).
Proof. unfold childAt, clone. simpl. by rewrite list_fmap_id. Qed.


Lemma shape_write (g : list (list sym)) (s : sym) (y x : nat) :
  length <$> alter (λ row, <[x := s]> row) y g = length <$> g.
Proof.
  apply list_eq. intros i. rewrite !list_lookup_fmap.
  destruct (decide (y = i)) as [<-|Hy].
  - rewrite list_lookup_alter_eq. destruct (g !! y); [|done].
    simpl. by rewrite length_insert.
  - by rewrite list_lookup_alter_ne.
Qed.

Lemma square_write (g : list (list sym)) (s : sym) (y x : nat) :
  square g → square (alter (λ row, <[x := s]> row) y g).
Proof.
  unfold square. rewrite !Forall_lookup. intros Hsq i row.
  rewrite length_alter.
  destruct (decide (y = i)) as [<-|Hy].
  - rewrite list_lookup_alter_eq. destruct (g !! y) as [r|] eqn:Hr; [|done].
    intros [= <-]. rewrite length_insert. by eapply Hsq.
  - rewrite list_lookup_alter_ne by done. apply Hsq.
Qed.


Lemma countE_row_write (row : list sym) (s : sym) (x : nat) :
  row !! x = Some E → s ≠ E →
  S (length (filter (λ s, s = E) (<[x := s]> row))) =
  length (filter (λ s, s = E) row).
Proof.
  revert x. induction row as [|a row IH]; intros x Hx Hs; [done|].
  destruct x as [|x]; simpl in *.
  - injection Hx as ->.
    rewrite filter_cons_False, filter_cons_True by done. done.
  - rewrite !(filter_cons _ a). destruct (decide (a = E)); simpl;
      rewrite <- (IH x) by done; done.
Qed.

(** A move by a player with a proper mark removes one empty cell. *)
Lemma countE_write (g : list (list sym)) (s : sym) (y x : nat) :
  cell g y x = Some E → s ≠ E →
  S (countE (alter (λ row, <[x := s]> row) y g)) = countE g.
Proof.
  unfold countE, cell. revert y.
  induction g as [|row g IH]; intros y Hc Hs; [done|].
  destruct y as [|y]; simpl in *.
  - rewrite !filter_app, !length_app.
    rewrite <- (countE_row_write row s x) by done. lia.
  - rewrite !filter_app, !length_app.
    specialize (IH y Hc Hs). unfold alter in IH. lia.
Qed.

Lemma length_emptyCells_row (g : list (list sym)) (row : list sym) (y : nat) :
  g !! y = Some row →
  length (seq 0 (length row) ≫=
            λ x, if bool_decide (cell g y x = Some E) then [(y, x)] else [])
  = length (filter (λ s, s = E) row).
Proof.
  unfold cell. intros ->. simpl. clear g.
  induction row as [|a row IH] using rev_ind; [done|].
  rewrite length_app. simpl. rewrite Nat.add_1_r, seq_S. simpl.
  rewrite bind_app, length_app, filter_app, length_app.
  rewrite <- IH. f_equal.
  - f_equal. apply bind_ext_in. intros x Hx%elem_of_seq.
    rewrite lookup_app_l by lia. done.
  - simpl. rewrite list_lookup_middle by done.
    rewrite (filter_cons _ a), app_nil_r.
    destruct (decide (a = E)) as [->|Ha].
    + by rewrite bool_decide_eq_true_2.
    + by rewrite bool_decide_eq_false_2 by congruence.
Qed.

Lemma length_emptyCells_rows (g : list (list sym)) (N : nat) :
  Forall (λ row, length row = N) g →
  length (seq 0 (length g) ≫= λ y, seq 0 N ≫=
            λ x, if bool_decide (cell g y x = Some E) then [(y, x)] else [])
  = countE g.
Proof.
  unfold countE.
  induction g as [|row g IH] using rev_ind; intros Hall; [done|].
  apply Forall_app in Hall as [Hg Hrow]. apply Forall_cons in Hrow as [Hrow _].
  rewrite length_app. simpl. rewrite Nat.add_1_r, seq_S. simpl.
  rewrite bind_app, length_app, concat_app, filter_app, length_app.
  rewrite <- IH by done. f_equal.
  - f_equal. apply bind_ext_in. intros y Hy%elem_of_seq.
    apply list_bind_ext; [|done]. intros x. unfold cell.
    rewrite lookup_app_l by lia. done.
  - simpl. rewrite !app_nil_r. rewrite <- Hrow.
    apply length_emptyCells_row. by apply list_lookup_middle.
Qed.

Lemma length_emptyCells (g : list (list sym)) :
  square g → length (emptyCells g) = countE g.
Proof. intros Hsq. by apply length_emptyCells_rows. Qed.



Lemma elem_of_getChildBoards (b q : Board) :
  q ∈ getChildBoards b ↔
  ∃ y x, y < boardSize b ∧ x < boardSize b ∧ cell (state b) y x = Some E ∧
         q = childAt b (playerSymbol b) y x.
Proof.
  rewrite getChildBoards_emptyCells, list_elem_of_fmap. split.
  - intros ([y x] & -> & (Hy & Hx & Hc)%elem_of_emptyCells).
    by exists y, x.
  - intros (y & x & Hy & Hx & Hc & ->). exists (y, x). split; [done|].
    by apply elem_of_emptyCells.
Qed.

Lemma humanSymbol_mark (b : Board) : mark (humanSymbol b).
Proof. unfold humanSymbol, mark. case_decide; auto. Qed.

Lemma humanSymbol_ne (b : Board) : humanSymbol b ≠ compSymbol b.
Proof. unfold humanSymbol. case_decide; congruence. Qed.

Lemma playerSymbol_mark (b : Board) :
  mark (compSymbol b) → mark (playerSymbol b).
Proof.
  unfold playerSymbol. destruct (isCompTurn b); [done|].
  intros _. apply humanSymbol_mark.
Qed.

Lemma mark_ne_E (s : sym) : mark s → s ≠ E.
Proof. intros [->| ->]; done. Qed.

Lemma child_compSymbol (b q : Board) :
  child b q → compSymbol q = compSymbol b.
Proof. intros (y & x & _ & _ & _ & ->)%elem_of_getChildBoards. done. Qed.

Lemma child_isCompTurn (b q : Board) :
  child b q → isCompTurn q = negb (isCompTurn b).
Proof. intros (y & x & _ & _ & _ & ->)%elem_of_getChildBoards. done. Qed.

Lemma child_shape (b q : Board) :
  child b q → length <$> state q = length <$> state b.
Proof.
  intros (y & x & _ & _ & _ & ->)%elem_of_getChildBoards.
  rewrite childAt_state. apply shape_write.
Qed.

Lemma child_square (b q : Board) :
  child b q → square (state b) → square (state q).
Proof.
  intros (y & x & _ & _ & _ & ->)%elem_of_getChildBoards.
  rewrite childAt_state. apply square_write.
Qed.

Lemma child_countE (b q : Board) :
  mark (compSymbol b) → child b q →
  S (countE (state q)) = countE (state b).
Proof.
  intros Hm (y & x & _ & _ & Hc & ->)%elem_of_getChildBoards.
  rewrite childAt_state. apply countE_write; [done|].
  by apply mark_ne_E, playerSymbol_mark.
Qed.

Section ForceGetScoreFacts.
Context {St : Type}.

Lemma mapScores_ext (f g : Board → St → num * St) (bs : list Board)
    (s : St) :
  (∀ q s, q ∈ bs → f q s = g q s) →
  mapScores f bs s = mapScores g bs s.
Proof.
  revert s. induction bs as [|b bs IH]; intros s H; [done|].
  simpl. rewrite H by left. destruct (g b s) as [v s1].
  rewrite IH; [done|]. intros q s' Hq. apply H. by right.
Qed.

Lemma forceGetScoreWith_ext (f g : Board → St → num * St) (b : Board)
    (s : St) :
  (∀ q s, child b q → f q s = g q s) →
  forceGetScoreWith f b s = forceGetScoreWith g b s.
Proof.
  intros H. unfold forceGetScoreWith.
  repeat case_decide; try done.
  by rewrite (mapScores_ext f g).
Qed.
End ForceGetScoreFacts.

(** Any bound that covers the empty cells gives the same result. *)
Lemma getScoreN_enough (n m : nat) (b : Board) (c : gmap string num) :
  mark (compSymbol b) →
  countE (state b) ≤ n → countE (state b) ≤ m →
  getScoreN n b c = getScoreN m b c.
Proof.
  revert m b c. induction n as [|n IH]; intros m b c Hm Hn Hle.
  - destruct m as [|m]; [done|]. simpl.
    destruct (cacheHit c (stringState b)); [done|].
    rewrite (forceGetScoreWith_ext _ (getScoreN m)); [done|].
    intros q s Hq. apply child_countE in Hq; [lia|done].
  - destruct m as [|m]; simpl;
      (destruct (cacheHit c (stringState b)); [done|]).
    + rewrite (forceGetScoreWith_ext _ (λ _ c0, (Fin 0, c0))); [done|].
      intros q s Hq. apply child_countE in Hq; [lia|done].
    + rewrite (forceGetScoreWith_ext _ (getScoreN m)); [done|].
      intros q s Hq. pose proof (child_countE _ _ Hm Hq).
      apply IH; [|lia|lia]. by rewrite (child_compSymbol b q).
Qed.

(** [getScore], as [board.js] writes it. *)
Lemma getScore_unfold (b : Board) (c : gmap string num) :
  mark (compSymbol b) →
  getScore b c =
  match cacheHit c (stringState b) with
  | Some v => (v, c)
  | None =>
      let '(score, c') := forceGetScore b c in
      (score, <[stringState b := score]> c')
  end.
Proof.
  intros Hm. unfold getScore, forceGetScore.
  destruct (countE (state b)) as [|n] eqn:Hn; simpl;
    destruct (cacheHit c (stringState b)); try done.
  - rewrite (forceGetScoreWith_ext _ getScore); [done|].
    intros q s Hq. apply child_countE in Hq; [lia|done].
  - rewrite (forceGetScoreWith_ext _ getScore); [done|].
    intros q s Hq. pose proof (child_countE _ _ Hm Hq).
    unfold getScore. apply getScoreN_enough; [|lia|lia].
    by rewrite (child_compSymbol b q).
Qed.

Lemma minimaxN_enough (n m : nat) (b : Board) :
  mark (compSymbol b) →
  countE (state b) ≤ n → countE (state b) ≤ m →
  minimaxN n b = minimaxN m b.
Proof.
  revert m b. induction n as [|n IH]; intros m b Hm Hn Hle.
  - destruct m as [|m]; [done|]. simpl. repeat case_decide; try done.
    destruct (getChildBoards b) as [|q qs] eqn:Hch; [done|].
    assert (child b q) as Hq by (unfold child; rewrite Hch; left).
    apply child_countE in Hq; [lia|done].
  - destruct m as [|m]; simpl; repeat case_decide; try done.
    + destruct (getChildBoards b) as [|q qs] eqn:Hch; [done|].
      assert (child b q) as Hq by (unfold child; rewrite Hch; left).
      apply child_countE in Hq; [lia|done].
    + assert (minimaxN n <$> getChildBoards b
              = minimaxN m <$> getChildBoards b) as ->; [|done].
      apply list_fmap_ext. intros i q Hq.
      assert (child b q) as Hq' by (by eapply list_elem_of_lookup_2).
      pose proof (child_countE _ _ Hm Hq').
      apply IH; [|lia|lia]. by rewrite (child_compSymbol b q).
Qed.

Lemma minimax_unfold (b : Board) :
  mark (compSymbol b) →
  minimax b =
  if decide (getWinner b = compSymbol b)
  then Fin (100 - Z.of_nat (length (getChildBoards b)))
  else if decide (getWinner b = humanSymbol b)
  then Fin (-100 + Z.of_nat (length (getChildBoards b)))
  else if decide (getWinner b = D)
  then Fin (0 + Z.of_nat (length (getChildBoards b)))
  else if isCompTurn b then Math_max (minimax <$> getChildBoards b)
       else Math_min (minimax <$> getChildBoards b).
Proof.
  intros Hm. unfold minimax at 1.
  destruct (countE (state b)) as [|n] eqn:Hn; simpl;
    repeat case_decide; try done.
  - destruct (getChildBoards b) as [|q qs] eqn:Hch; [done|].
    assert (child b q) as Hq by (unfold child; rewrite Hch; left).
    apply child_countE in Hq; [lia|done].
  - assert (minimaxN n <$> getChildBoards b
            = minimax <$> getChildBoards b) as ->; [|done].
    apply list_fmap_ext. intros i q Hq.
    assert (child b q) as Hq' by (by eapply list_elem_of_lookup_2).
    pose proof (child_countE _ _ Hm Hq').
    unfold minimax. apply minimaxN_enough; [|lia|lia].
    by rewrite (child_compSymbol b q).
Qed.


(** ** Terminal positions and the scores of [forceGetScore] *)

Lemma getWinner_cases (b : Board) :
  getWinner b = X ∨ getWinner b = O ∨ getWinner b = D ∨ getWinner b = L.
Proof.
  unfold getWinner.
  destruct (getWinner_loop_spec true (lines b))
    as [(_ & _ & _ & m & _ & [-> | ->] & _ & _ & ->)
       |[_ [(_ & _ & ->)|(_ & ->)]]]; auto.
Qed.

(** With a proper computer mark, a verdict that is neither player's
    mark nor ["D"] is ["L"]. *)
Lemma getWinner_live (b : Board) :
  mark (compSymbol b) →
  getWinner b ≠ compSymbol b → getWinner b ≠ humanSymbol b →
  getWinner b ≠ D → getWinner b = L.
Proof.
  unfold humanSymbol. intros [Hc|Hc] H1 H2 H3; rewrite Hc in *;
    simpl in *; destruct (getWinner_cases b) as [?|[?|[?|?]]]; congruence.
Qed.

Lemma getWinner_D_full (b : Board) :
  getWinner b = D → ∀ y x, cell (state b) y x ≠ Some E.
Proof.
  unfold getWinner. intros HD y x Hc.
  destruct (getWinner_loop_spec true (lines b))
    as [(_ & _ & _ & m & _ & Hm & _ & _ & Hres)
       |[_ [(_ & Hfull & _)|(_ & Hres)]]].
  - rewrite HD in Hres. destruct Hm; congruence.
  - unfold cell in Hc. destruct (state b !! y) as [row|] eqn:Hrow; [|done].
    simpl in Hc. rewrite Forall_forall in Hfull.
    apply (Hfull (Some <$> row)).
    + unfold lines, getRows. apply elem_of_app. left.
      apply list_elem_of_fmap. exists row. split; [done|].
      by eapply list_elem_of_lookup_2.
    + unfold hasEmpty. apply list_elem_of_fmap. exists E. split; [done|].
      by eapply list_elem_of_lookup_2.
  - congruence.
Qed.

Lemma getWinner_D_children (b : Board) :
  getWinner b = D → getChildBoards b = [].
Proof.
  intros HD. destruct (getChildBoards b) as [|q qs] eqn:Hch; [done|].
  assert (q ∈ getChildBoards b) as Hq by (rewrite Hch; left).
  apply elem_of_getChildBoards in Hq as (y & x & _ & _ & Hc & _).
  by apply getWinner_D_full in Hc.
Qed.

Lemma getWinner_L_empty (b : Board) :
  square (state b) → getWinner b = L →
  ∃ y x, cell (state b) y x = Some E.
Proof.
  intros Hsq HL.
  apply (getWinner_lines b) in HL as [_ Hex].
  rewrite (lines_square b Hsq) in Hex.
  apply Exists_exists in Hex as (ln & Hin & HE). unfold hasEmpty in HE.
  unfold boardLines in Hin.
  rewrite !elem_of_app, !list_elem_of_fmap in Hin.
  destruct Hin as [(y & -> & _)|[(x & -> & _)|Hin]].
  - apply list_elem_of_fmap in HE as (x & HE & _). eauto.
  - apply list_elem_of_fmap in HE as (y & HE & _). eauto.
  - apply elem_of_cons in Hin as [->|Hin].
    + apply list_elem_of_fmap in HE as (i & HE & _). eauto.
    + apply list_elem_of_singleton in Hin as ->.
      apply list_elem_of_fmap in HE as (i & HE & _). eauto.
Qed.

Lemma getWinner_L_children (b : Board) :
  square (state b) → getWinner b = L → getChildBoards b ≠ [].
Proof.
  intros Hsq HL Hnil.
  destruct (getWinner_L_empty b Hsq HL) as (y & x & Hc).
  destruct (cell_Some_lt _ _ _ _ Hsq Hc) as [Hy Hx].
  assert (childAt b (playerSymbol b) y x ∈ getChildBoards b) as Hin.
  { apply elem_of_getChildBoards. by exists y, x. }
  rewrite Hnil in Hin. by apply elem_of_nil in Hin.
Qed.

Lemma getChildBoards_length (b : Board) :
  square (state b) → length (getChildBoards b) = countE (state b).
Proof.
  intros Hsq. rewrite getChildBoards_emptyCells, length_fmap.
  by apply length_emptyCells.
Qed.

(** C1 (as the code has it).  On a position the human has won,
    [forceGetScore] returns [-100] plus the number of child boards, which
    is the number of cells still empty; on a drawn position it returns
    [0], and there no child board exists.  The cache is not touched. *)
Theorem forceGetScore_terminal (b : Board) (c : gmap string num) :
  square (state b) → mark (compSymbol b) →
  (getWinner b = humanSymbol b →
   forceGetScore b c = (Fin (-100 + Z.of_nat (countE (state b))), c) ∧
   length (getChildBoards b) = countE (state b))
  ∧ (getWinner b = D →
     forceGetScore b c = (Fin 0, c) ∧ length (getChildBoards b) = 0).
Proof.
  intros Hsq Hm. unfold forceGetScore, forceGetScoreWith. split.
  - intros Hh. pose proof (humanSymbol_ne b).
    rewrite decide_False by congruence. rewrite decide_True by done.
    by rewrite getChildBoards_length.
  - intros HD. pose proof (humanSymbol_mark b) as Hhm.
    rewrite decide_False by (destruct Hm; congruence).
    rewrite decide_False by (destruct Hhm; congruence).
    rewrite decide_True by done.
    by rewrite getWinner_D_children.
Qed.

Lemma forceGetScore_terminal_witness :
  let b1 := mkBoard [[O; O; O]; [X; X; E]; [E; E; E]] X true in
  let b2 := mkBoard [[X; O; X]; [X; O; O]; [O; X; X]] X false in
  (square (state b1) ∧ mark (compSymbol b1) ∧ getWinner b1 = humanSymbol b1 ∧
   forceGetScore b1 ∅ = (Fin (-100 + Z.of_nat (countE (state b1))), ∅) ∧
   length (getChildBoards b1) = countE (state b1))
  ∧ (square (state b2) ∧ mark (compSymbol b2) ∧ getWinner b2 = D ∧
     forceGetScore b2 ∅ = (Fin 0, ∅) ∧ length (getChildBoards b2) = 0).
Proof.
  intros b1 b2.
  assert (Hsq1 : square (state b1)) by (repeat constructor).
  assert (Hsq2 : square (state b2)) by (repeat constructor).
  assert (Hm1 : mark (compSymbol b1)) by (by left).
  assert (Hm2 : mark (compSymbol b2)) by (by left).
  assert (Hh : getWinner b1 = humanSymbol b1) by reflexivity.
  assert (HD : getWinner b2 = D) by reflexivity.
  split.
  - split_and!; [exact Hsq1|exact Hm1|exact Hh|..];
      apply (proj1 (forceGetScore_terminal b1 ∅ Hsq1 Hm1) Hh).
  - split_and!; [exact Hsq2|exact Hm2|exact HD|..];
      apply (proj2 (forceGetScore_terminal b2 ∅ Hsq2 Hm2) HD).
Defined.

(** C1, as stated, fails: a position the human has won before the board
    is full has child boards, and its score is not [-100]. *)
Lemma forceGetScore_humanWin_counterexample :
  let b := mkBoard [[O; O; O]; [X; X; E]; [E; E; E]] X true in
  square (state b) ∧ mark (compSymbol b) ∧
  getWinner b = humanSymbol b ∧
  fst (forceGetScore b ∅) = Fin (-96) ∧
  fst (forceGetScore b ∅) ≠ Fin (-100) ∧
  length (getChildBoards b) = 4.
Proof.
  intros b. split_and!; [repeat constructor|by left|done|done|done|done].
Qed.

(** ** Finite scores *)

Lemma num_max_finite (a b : num) :
  is_finite a → is_finite b → is_finite (num_max a b).
Proof. unfold num_max. by destruct (num_leb a b). Qed.

Lemma num_min_finite (a b : num) :
  is_finite a → is_finite b → is_finite (num_min a b).
Proof. unfold num_min. by destruct (num_leb a b). Qed.

Lemma num_max_NegInf (a : num) : num_max a NegInf = a.
Proof. by destruct a. Qed.

Lemma num_min_PosInf (a : num) : num_min a PosInf = a.
Proof. by destruct a. Qed.

Lemma Math_max_finite (l : list num) :
  l ≠ [] → Forall is_finite l → is_finite (Math_max l).
Proof.
  induction l as [|a l IH]; intros Hne Hall; [done|].
  apply Forall_cons in Hall as [Ha Hl]. simpl.
  destruct l as [|a' l]; [by rewrite num_max_NegInf|].
  apply num_max_finite; [done|]. by apply IH.
Qed.

Lemma Math_min_finite (l : list num) :
  l ≠ [] → Forall is_finite l → is_finite (Math_min l).
Proof.
  induction l as [|a l IH]; intros Hne Hall; [done|].
  apply Forall_cons in Hall as [Ha Hl]. simpl.
  destruct l as [|a' l]; [by rewrite num_min_PosInf|].
  apply num_min_finite; [done|]. by apply IH.
Qed.

Lemma cacheHit_Some (c : gmap string num) (k : string) (v : num) :
  cacheHit c k = Some v ↔ c !! k = Some v ∧ v ≠ Fin 0.
Proof.
  unfold cacheHit, truthy. destruct (c !! k) as [w|].
  - case_bool_decide as Hw.
    + split; [by intros [= ->] | by intros [? _]].
    + split; [done|]. intros [[= ->] ?]. done.
  - split; [done | by intros [? _]].
Qed.

Lemma cacheFinite_insert (c : gmap string num) (k : string) (v : num) :
  cacheFinite c → is_finite v → cacheFinite (<[k := v]> c).
Proof.
  intros Hc Hv k' v'. rewrite lookup_insert. case_decide.
  - by intros [= <-].
  - apply Hc.
Qed.

(** An invariant of the store and a property of each score carry over
    the [map] over the children. *)
Lemma mapScores_inv {St} (f : Board → St → num * St) (I : St → Prop)
    (P : Board → num → Prop) (bs : list Board) (s : St) :
  I s →
  (∀ q s, q ∈ bs → I s → P q (f q s).1 ∧ I (f q s).2) →
  Forall2 P bs (mapScores f bs s).1 ∧ I (mapScores f bs s).2.
Proof.
  revert s. induction bs as [|b bs IH]; intros s Hs Hf; simpl.
  - split; [constructor | done].
  - destruct (Hf b s) as [Hb Hs1]; [left|done|].
    destruct (f b s) as [v s1]. simpl in *.
    destruct (IH s1) as [Hrest Hs2]; [done| |].
    { intros q s' Hq. apply Hf. by right. }
    destruct (mapScores f bs s1) as [vs s2]. simpl in *.
    split; [by constructor | done].
Qed.

Lemma forceGetScore_finite_step (b : Board) (c : gmap string num) :
  square (state b) → mark (compSymbol b) → cacheFinite c →
  (∀ q s, child b q → cacheFinite s →
          is_finite (getScore q s).1 ∧ cacheFinite (getScore q s).2) →
  is_finite (forceGetScore b c).1 ∧ cacheFinite (forceGetScore b c).2.
Proof.
  intros Hsq Hm Hc Hch. unfold forceGetScore, forceGetScoreWith.
  repeat case_decide; try (split; [by eexists | done]).
  assert (getWinner b = L) as HL by (by apply getWinner_live).
  pose proof (getWinner_L_children b Hsq HL) as Hne.
  destruct (mapScores_inv getScore cacheFinite (λ _ v, is_finite v)
              (getChildBoards b) c Hc Hch) as [Hall Hc'].
  destruct (mapScores getScore (getChildBoards b) c) as [vs c'].
  simpl in *.
  assert (vs ≠ []) as Hvs.
  { intros ->. apply Forall2_nil_inv_r in Hall. done. }
  assert (Forall is_finite vs) as Hfin.
  { clear -Hall. induction Hall; by constructor. }
  destruct (isCompTurn b); simpl;
    (split; [by (apply Math_max_finite || apply Math_min_finite)|done]).
Qed.

Lemma getScore_finite (b : Board) (c : gmap string num) :
  square (state b) → mark (compSymbol b) → cacheFinite c →
  is_finite (getScore b c).1 ∧ cacheFinite (getScore b c).2.
Proof.
  remember (countE (state b)) as n eqn:Hn.
  revert b c Hn. induction n as [n IH] using lt_wf_ind.
  intros b c Hn Hsq Hm Hc. rewrite getScore_unfold by done.
  destruct (cacheHit c (stringState b)) as [v|] eqn:Hhit.
  - apply cacheHit_Some in Hhit as [Hv _]. split; [by eapply Hc | done].
  - destruct (forceGetScore_finite_step b c Hsq Hm Hc) as [Hv Hc'].
    { intros q s Hq Hs. pose proof (child_countE b q Hm Hq).
      apply (IH (countE (state q))); [lia|done| | |done].
      - by eapply child_square.
      - by rewrite (child_compSymbol b q). }
    destruct (forceGetScore b c) as [v c']. simpl in *.
    split; [done|]. by apply cacheFinite_insert.
Qed.

(** C10.  On every well-formed position, when [forceGetScore] reaches its
    recursive branch ([getWinner] is ["L"]) there is a child board, so
    [Math.max]/[Math.min] get at least one argument; and with a cache of
    integers [forceGetScore] returns an integer. *)
Theorem forceGetScore_finite (b : Board) (c : gmap string num) :
  square (state b) → mark (compSymbol b) → cacheFinite c →
  (getWinner b = L → getChildBoards b ≠ []) ∧
  is_finite (forceGetScore b c).1.
Proof.
  intros Hsq Hm Hc. split; [by apply getWinner_L_children|].
  apply forceGetScore_finite_step; [done..|].
  intros q s Hq Hs.
  apply getScore_finite; [|by rewrite (child_compSymbol b q)|done].
  by eapply child_square.
Qed.

Lemma forceGetScore_finite_witness :
  let b := mkBoard [[X; E; E]; [E; X; E]; [O; O; E]] X true in
  square (state b) ∧ mark (compSymbol b) ∧ cacheFinite ∅ ∧
  getWinner b = L ∧ getChildBoards b ≠ [] ∧
  is_finite (forceGetScore b ∅).1.
Proof.
  intros b.
  assert (Hsq : square (state b)) by (repeat constructor).
  assert (Hm : mark (compSymbol b)) by (by left).
  assert (Hc : cacheFinite ∅) by (intros k v Hk; by rewrite lookup_empty in Hk).
  assert (HL : getWinner b = L) by reflexivity.
  split_and!; [exact Hsq|exact Hm|exact Hc|exact HL|..].
  - exact (proj1 (forceGetScore_finite b ∅ Hsq Hm Hc) HL).
  - exact (proj2 (forceGetScore_finite b ∅ Hsq Hm Hc)).
Defined.

(** Squareness matters: this ragged grid is ["L"] and has no child. *)
Lemma ragged_live_without_child :
  let b := mkBoard [[X; X; E]; [O; O; E]] X true in
  getWinner b = L ∧ getChildBoards b = [] ∧
  (forceGetScore b ∅).1 = NegInf.
Proof. done. Qed.

(** ** The encoding of a grid *)

Lemma string_length_app (s t : string) :
  String.length (s +:+ t) = String.length s + String.length t.
Proof. induction s as [|a s IH]; simpl; [done|]. by rewrite IH. Qed.

Lemma string_app_inj (s1 s2 t1 t2 : string) :
  String.length s1 = String.length s2 →
  s1 +:+ t1 = s2 +:+ t2 → s1 = s2 ∧ t1 = t2.
Proof.
  revert s2. induction s1 as [|a s1 IH]; intros [|a' s2] Hlen Heq;
    simpl in *; try done.
  injection Heq as -> Heq. injection Hlen as Hlen.
  destruct (IH s2 Hlen Heq) as [-> ->]. done.
Qed.

Lemma concat_sameLength (sep : string) (l l' : list string) :
  Forall2 sameLength l l' →
  sameLength (String.concat sep l) (String.concat sep l').
Proof.
  unfold sameLength. induction 1 as [|x x' l l' Hx Hl IH]; [done|].
  simpl. destruct Hl as [|y y' l l' Hy Hl]; [done|].
  rewrite !string_length_app. rewrite Hx. f_equal. f_equal. exact IH.
Qed.

Lemma concat_inj (sep : string) (l l' : list string) :
  Forall2 sameLength l l' →
  String.concat sep l = String.concat sep l' → l = l'.
Proof.
  induction 1 as [|x x' l l' Hx Hl IH]; [done|].
  simpl. destruct Hl as [|y y' l l' Hy Hl].
  - by intros ->.
  - intros Heq. apply string_app_inj in Heq as [-> Heq]; [|done].
    apply string_app_inj in Heq as [_ Heq]; [|done].
    f_equal. by apply IH.
Qed.

Global Instance show_inj : Inj (=) (=) show.
Proof. intros s t H. by destruct s, t. Qed.

Lemma rowString_sameLength (row row' : list sym) :
  length row = length row' → sameLength (rowString row) (rowString row').
Proof.
  intros Hlen. apply concat_sameLength.
  apply Forall2_fmap, Forall2_true; [|done]. by intros [] [].
Qed.

Lemma rowString_inj (row row' : list sym) :
  length row = length row' → rowString row = rowString row' → row = row'.
Proof.
  intros Hlen Heq. apply concat_inj in Heq.
  - by apply (inj (fmap show)) in Heq.
  - apply Forall2_fmap, Forall2_true; [|done]. by intros [] [].
Qed.

(** On grids of one shape the encoding determines the grid. *)
Lemma stringState_inj (b b' : Board) :
  length <$> state b = length <$> state b' →
  stringState b = stringState b' → state b = state b'.
Proof.
  unfold stringState. intros Hshape Heq.
  assert (Forall2 (λ r r' : list sym, length r = length r')
            (state b) (state b')) as Hrows.
  { by apply Forall2_fmap, list_eq_Forall2. }
  apply concat_inj in Heq.
  - clear Hshape. induction Hrows as [|r r' g g' Hr Hg IH]; [done|].
    injection Heq as Hrow Heq. f_equal; [by apply rowString_inj | by apply IH].
  - apply Forall2_fmap. eapply Forall2_impl; [exact Hrows|].
    intros r r'. apply rowString_sameLength.
Qed.

(** ** The positions below a root *)

Lemma reachable_compSymbol (root q : Board) :
  reachable root q → compSymbol q = compSymbol root.
Proof.
  induction 1 as [|p p' q Hstep _ IH]; [done|].
  rewrite IH. by apply child_compSymbol.
Qed.

Lemma reachable_shape (root q : Board) :
  reachable root q → length <$> state q = length <$> state root.
Proof.
  induction 1 as [|p p' q Hstep _ IH]; [done|].
  rewrite IH. by apply child_shape.
Qed.

Lemma reachable_square (root q : Board) :
  reachable root q → square (state root) → square (state q).
Proof.
  induction 1 as [|p p' q Hstep _ IH]; [done|].
  intros Hsq. apply IH. by eapply child_square.
Qed.

(** Whose turn it is follows from the number of moves made. *)
Lemma reachable_turn (root q : Board) :
  mark (compSymbol root) → reachable root q →
  countE (state q) ≤ countE (state root) ∧
  isCompTurn q =
  Nat.iter (countE (state root) - countE (state q)) negb (isCompTurn root).
Proof.
  intros Hm Hr. revert q Hr. apply rtc_ind_r.
  - split; [done|]. by rewrite Nat.sub_diag.
  - intros q q' Hr Hstep [Hle Hturn].
    assert (mark (compSymbol q)) as Hmq.
    { by rewrite (reachable_compSymbol root q). }
    pose proof (child_countE q q' Hmq Hstep) as Hc.
    split; [lia|].
    replace (countE (state root) - countE (state q'))
      with (S (countE (state root) - countE (state q))) by lia.
    simpl. rewrite <- Hturn. by apply child_isCompTurn.
Qed.

(** Below one root, the encoding determines the position: the key of the
    cache need not hold the turn. *)
Lemma reachable_stringState_inj (root q q' : Board) :
  mark (compSymbol root) → reachable root q → reachable root q' →
  stringState q = stringState q' → q = q'.
Proof.
  intros Hm Hq Hq' Hkey.
  assert (state q = state q') as Hst.
  { apply stringState_inj; [|done].
    by rewrite (reachable_shape root q), (reachable_shape root q'). }
  destruct (reachable_turn root q Hm Hq) as [_ Ht].
  destruct (reachable_turn root q' Hm Hq') as [_ Ht'].
  pose proof (reachable_compSymbol root q Hq) as Hc.
  pose proof (reachable_compSymbol root q' Hq') as Hc'.
  destruct q as [g s t], q' as [g' s' t']. simpl in *.
  subst. done.
Qed.

(** ** Soundness of the memoised score *)

Lemma Forall2_eq_fmap {A B} (f : A → B) (l : list A) (k : list B) :
  Forall2 (λ a b, b = f a) l k → k = f <$> l.
Proof. induction 1 as [|a b l k -> _ IH]; [done|]. simpl. by rewrite IH. Qed.

Lemma cacheSound_insert (root b : Board) (c : gmap string num) :
  mark (compSymbol root) → reachable root b → cacheSound root c →
  cacheSound root (<[stringState b := minimax b]> c).
Proof.
  intros Hm Hb Hc q v Hq. rewrite lookup_insert. case_decide as Hk.
  - intros [= <-]. f_equal. symmetry.
    by apply (reachable_stringState_inj root).
  - by apply Hc.
Qed.

Lemma forceGetScore_sound_step (root b : Board) (c : gmap string num) :
  mark (compSymbol root) → reachable root b → cacheSound root c →
  (∀ q s, child b q → cacheSound root s →
          (getScore q s).1 = minimax q ∧ cacheSound root (getScore q s).2) →
  (forceGetScore b c).1 = minimax b ∧ cacheSound root (forceGetScore b c).2.
Proof.
  intros Hm Hb Hc Hch.
  assert (mark (compSymbol b)) as Hmb.
  { by rewrite (reachable_compSymbol root b). }
  rewrite minimax_unfold by done.
  unfold forceGetScore, forceGetScoreWith.
  repeat case_decide; try done.
  destruct (mapScores_inv getScore (cacheSound root) (λ q v, v = minimax q)
              (getChildBoards b) c Hc Hch) as [Hall Hc'].
  apply Forall2_eq_fmap in Hall.
  destruct (mapScores getScore (getChildBoards b) c) as [vs c'].
  simpl in *. subst vs. by destruct (isCompTurn b).
Qed.

(** With a sound cache [getScore] returns the minimax score of the
    position and leaves the cache sound. *)
Lemma getScore_sound (root b : Board) (c : gmap string num) :
  mark (compSymbol root) → reachable root b → cacheSound root c →
  (getScore b c).1 = minimax b ∧ cacheSound root (getScore b c).2.
Proof.
  remember (countE (state b)) as n eqn:Hn.
  revert b c Hn. induction n as [n IH] using lt_wf_ind.
  intros b c Hn Hm Hb Hc.
  assert (mark (compSymbol b)) as Hmb.
  { by rewrite (reachable_compSymbol root b). }
  rewrite getScore_unfold by done.
  destruct (cacheHit c (stringState b)) as [v|] eqn:Hhit.
  - apply cacheHit_Some in Hhit as [Hv _]. split; [by eapply Hc | done].
  - destruct (forceGetScore_sound_step root b c Hm Hb Hc) as [Hv Hc'].
    { intros q s Hq Hs. pose proof (child_countE b q Hmb Hq).
      apply (IH (countE (state q))); [lia|done|done| |done].
      by eapply rtc_r. }
    destruct (forceGetScore b c) as [v c']. simpl in *. subst v.
    split; [done|]. by apply cacheSound_insert.
Qed.

Lemma mapScores_sound (root b : Board) (c : gmap string num) :
  mark (compSymbol root) → reachable root b → cacheSound root c →
  (mapScores getScore (getChildBoards b) c).1 = minimax <$> getChildBoards b
  ∧ cacheSound root (mapScores getScore (getChildBoards b) c).2.
Proof.
  intros Hm Hb Hc.
  destruct (mapScores_inv getScore (cacheSound root) (λ q v, v = minimax q)
              (getChildBoards b) c Hc) as [Hall Hc'].
  { intros q s Hq Hs. apply getScore_sound; [done| |done]. by eapply rtc_r. }
  split; [by apply Forall2_eq_fmap | done].
Qed.

Lemma minimax_live (b : Board) :
  mark (compSymbol b) → getWinner b = L →
  minimax b = if isCompTurn b then Math_max (minimax <$> getChildBoards b)
              else Math_min (minimax <$> getChildBoards b).
Proof.
  intros Hm HL. rewrite minimax_unfold by done.
  pose proof (humanSymbol_mark b) as Hh.
  rewrite decide_False by (destruct Hm; congruence).
  rewrite decide_False by (destruct Hh; congruence).
  rewrite decide_False by congruence. done.
Qed.

(** C2.  For every ongoing position of a game whose cache is sound,
    [getScore()] is the maximum (computer to move) or the minimum (human
    to move) of [getScore()] over the positions of [getChildBoards()],
    the calls being made one after the other on the shared cache. *)
Theorem getScore_max_min (root b : Board) (c : gmap string num) :
  mark (compSymbol root) → reachable root b → cacheSound root c →
  getWinner b = L →
  let '(score, c1) := getScore b c in
  let '(scores, c2) := mapScores getScore (getChildBoards b) c1 in
  score = if isCompTurn b then Math_max scores else Math_min scores.
Proof.
  intros Hm Hb Hc HL.
  destruct (getScore_sound root b c Hm Hb Hc) as [Hv Hc1].
  destruct (getScore b c) as [score c1]. simpl in *.
  destruct (mapScores_sound root b c1 Hm Hb Hc1) as [Hvs _].
  destruct (mapScores getScore (getChildBoards b) c1) as [scores c2].
  simpl in *. subst. apply minimax_live; [|done].
  by rewrite (reachable_compSymbol root b).
Qed.

Lemma cacheSound_empty (root : Board) : cacheSound root ∅.
Proof. intros q v _ Hq. by rewrite lookup_empty in Hq. Qed.

Lemma getScore_max_min_witness :
  let b := mkBoard [[X; E; E]; [E; X; E]; [O; O; E]] X true in
  mark (compSymbol b) ∧ reachable b b ∧ cacheSound b ∅ ∧ getWinner b = L ∧
  let '(score, c1) := getScore b ∅ in
  let '(scores, c2) := mapScores getScore (getChildBoards b) c1 in
  score = if isCompTurn b then Math_max scores else Math_min scores.
Proof.
  intros b.
  assert (Hm : mark (compSymbol b)) by (by left).
  assert (Hb : reachable b b) by apply rtc_refl.
  assert (HL : getWinner b = L) by reflexivity.
  split_and!; [exact Hm|exact Hb|apply cacheSound_empty|exact HL|].
  exact (getScore_max_min b b ∅ Hm Hb (cacheSound_empty b) HL).
Defined.

(** ** Move selection *)

Lemma Math_max_elem (l : list num) : l ≠ [] → Math_max l ∈ l.
Proof.
  induction l as [|a l IH]; intros Hne; [done|]. simpl.
  destruct l as [|a' l]; [rewrite num_max_NegInf; left|].
  unfold num_max at 1. destruct (num_leb a _); [|left].
  right. by apply IH.
Qed.

(** Under a sound cache [find] stops at the first child whose minimax
    score is the parent's. *)
Lemma findBest_sound (root b : Board) (bs : list Board)
    (c : gmap string num) :
  mark (compSymbol root) → reachable root b →
  Forall (reachable root) bs → cacheSound root c →
  cacheSound root (findBest b bs c).2 ∧
  ((∃ before ch after,
      bs = before ++ ch :: after ∧ (findBest b bs c).1 = Some ch ∧
      minimax ch = minimax b ∧
      Forall (λ q, minimax q ≠ minimax b) before)
   ∨ ((findBest b bs c).1 = None ∧
      Forall (λ q, minimax q ≠ minimax b) bs)).
Proof.
  intros Hm Hb Hbs. revert c.
  induction Hbs as [|q bs Hq Hbs IH]; intros c Hc; simpl.
  - split; [done|]. right. split; [done|constructor].
  - destruct (getScore_sound root q c Hm Hq Hc) as [Hv Hc1].
    destruct (getScore q c) as [v c1]. simpl in *.
    destruct (getScore_sound root b c1 Hm Hb Hc1) as [Hw Hc2].
    destruct (getScore b c1) as [w c2]. simpl in *. subst v w.
    case_decide as Heq; simpl.
    + split; [done|]. left. exists [], q, bs.
      split_and!; [done|done|done|constructor].
    + destruct (IH c2 Hc2) as [Hc3 Hres]. split; [done|].
      destruct Hres as [(before & ch & after & -> & Hf & Hch & Hbef)
                       |[Hf Hall]].
      * left. exists (q :: before), ch, after.
        split_and!; [done|done|done|by constructor].
      * right. split; [done | by constructor].
Qed.

(** C3.  In a game with a sound cache, on a well-formed position
    [getNextBestBoardState] yields no move exactly when it is not the
    computer's turn or the position is not ["L"]; on an ongoing position
    with the computer to move it returns the first child, in the order of
    [getChildBoards], whose [getScore()] equals the [getScore()] of the
    position, and there is such a child. *)
Theorem getNextBestBoardState_correct (root b : Board)
    (c : gmap string num) :
  square (state b) → mark (compSymbol root) → reachable root b →
  cacheSound root c →
  ((getNextBestBoardState b c).1 = None ↔
   isCompTurn b = false ∨ getWinner b ≠ L)
  ∧ (isCompTurn b = true → getWinner b = L →
     ∃ before ch after,
       getChildBoards b = before ++ ch :: after ∧
       (getNextBestBoardState b c).1 = Some ch ∧
       ∀ c', cacheSound root c' →
             (getScore ch c').1 = (getScore b c').1 ∧
             Forall (λ q, (getScore q c').1 ≠ (getScore b c').1) before).
Proof.
  intros Hsq Hm Hb Hc.
  assert (mark (compSymbol b)) as Hmb.
  { by rewrite (reachable_compSymbol root b). }
  assert (Hlive : isCompTurn b = true → getWinner b = L →
            ∃ before ch after,
              getChildBoards b = before ++ ch :: after ∧
              (getNextBestBoardState b c).1 = Some ch ∧
              minimax ch = minimax b ∧
              Forall (λ q, minimax q ≠ minimax b) before).
  { intros Ht HL. unfold getNextBestBoardState.
    rewrite Ht. simpl. rewrite decide_True by done.
    assert (Forall (reachable root) (getChildBoards b)) as Hch.
    { apply Forall_forall. intros q Hq. by eapply rtc_r. }
    destruct (findBest_sound root b (getChildBoards b) c Hm Hb Hch Hc)
      as [_ [Hres|[_ Hall]]]; [done|].
    exfalso. pose proof (getWinner_L_children b Hsq HL) as Hne.
    pose proof (minimax_live b Hmb HL) as Hmax. rewrite Ht in Hmax.
    assert (minimax b ∈ minimax <$> getChildBoards b) as Hin.
    { rewrite Hmax. apply Math_max_elem.
      intros Hnil. by apply fmap_nil_inv in Hnil. }
    apply list_elem_of_fmap in Hin as (q & Hq & Hin).
    rewrite Forall_forall in Hall. by apply (Hall q). }
  split.
  - split.
    + intros Hnone.
      destruct (isCompTurn b) eqn:Ht; [|by left]. right. intros HL.
      destruct (Hlive eq_refl HL) as (? & ch & ? & _ & Hsome & _).
      congruence.
    + unfold getNextBestBoardState. intros [-> | HL]; [done|].
      destruct (isCompTurn b); [|done]. simpl.
      by rewrite decide_False.
  - intros Ht HL.
    destruct (Hlive Ht HL) as (before & ch & after & Hsplit & Hsome & Heq & Hbef).
    exists before, ch, after. split_and!; [done|done|].
    intros c' Hc'.
    assert (reachable root ch) as Hrch.
    { eapply rtc_r; [exact Hb|]. unfold child. rewrite Hsplit.
      apply elem_of_app. right. left. }
    rewrite (proj1 (getScore_sound root ch c' Hm Hrch Hc')).
    rewrite (proj1 (getScore_sound root b c' Hm Hb Hc')).
    split; [done|].
    apply Forall_forall. intros q Hq.
    assert (reachable root q) as Hrq.
    { eapply rtc_r; [exact Hb|]. unfold child. rewrite Hsplit.
      apply elem_of_app. by left. }
    rewrite (proj1 (getScore_sound root q c' Hm Hrq Hc')).
    rewrite Forall_forall in Hbef. by apply Hbef.
Qed.

Lemma getNextBestBoardState_correct_witness :
  let b := mkBoard [[X; E; E]; [E; X; E]; [O; O; E]] X true in
  square (state b) ∧ mark (compSymbol b) ∧ reachable b b ∧
  cacheSound b ∅ ∧ isCompTurn b = true ∧ getWinner b = L ∧
  ∃ before ch after,
    getChildBoards b = before ++ ch :: after ∧
    (getNextBestBoardState b ∅).1 = Some ch ∧
    ∀ c', cacheSound b c' →
          (getScore ch c').1 = (getScore b c').1 ∧
          Forall (λ q, (getScore q c').1 ≠ (getScore b c').1) before.
Proof.
  intros b.
  assert (Hsq : square (state b)) by (repeat constructor).
  assert (Hm : mark (compSymbol b)) by (by left).
  assert (Hb : reachable b b) by apply rtc_refl.
  assert (HL : getWinner b = L) by reflexivity.
  split_and!;
    [exact Hsq|exact Hm|exact Hb|apply cacheSound_empty|done|exact HL|].
  exact (proj2 (getNextBestBoardState_correct b b ∅ Hsq Hm Hb
                  (cacheSound_empty b)) eq_refl HL).
Defined.

(** ** The scenario: completing the diagonal *)

Lemma scenario_minimax :
  minimax scenarioBoard = Fin 96 ∧
  minimax <$> getChildBoards scenarioBoard =
  [Fin (-97); Fin (-97); Fin (-97); Fin (-97); Fin 96] ∧
  getChildBoards scenarioBoard !! 4 = Some scenarioMove.
Proof. by vm_compute. Qed.

(** C4 (as the code has it).  On the scenario board, computer ["X"] to
    move, [getNextBestBoardState] returns the child with ["X"] at (2,2);
    that position is won by the computer and its [getScore()] is [96],
    that is [100] minus its four empty cells. *)
Theorem scenario_best_move (c : gmap string num) :
  cacheSound scenarioBoard c →
  (getNextBestBoardState scenarioBoard c).1 = Some scenarioMove ∧
  cell (state scenarioMove) 2 2 = Some X ∧
  isMove scenarioBoard (2, 2) scenarioMove ∧
  getWinner scenarioMove = compSymbol scenarioMove ∧
  (getScore scenarioMove (getNextBestBoardState scenarioBoard c).2).1 = Fin 96.
Proof.
  intros Hc.
  assert (Hm : mark (compSymbol scenarioBoard)) by (by left).
  assert (Hb : reachable scenarioBoard scenarioBoard) by apply rtc_refl.
  assert (Hmove : child scenarioBoard scenarioMove).
  { apply list_elem_of_lookup. exists 4. apply scenario_minimax. }
  assert (Hch : Forall (reachable scenarioBoard) (getChildBoards scenarioBoard)).
  { apply Forall_forall. intros q Hq. by eapply rtc_r. }
  assert (Hdef : getNextBestBoardState scenarioBoard c
                 = findBest scenarioBoard (getChildBoards scenarioBoard) c)
    by reflexivity.
  rewrite Hdef.
  assert (Hsound : cacheSound scenarioBoard
                     (findBest scenarioBoard
                        (getChildBoards scenarioBoard) c).2).
  { by apply findBest_sound. }
  split_and!.
  - destruct (findBest_sound scenarioBoard scenarioBoard
                (getChildBoards scenarioBoard) c Hm Hb Hch Hc)
      as [_ [(before & ch & after & Hsplit & -> & Heq & Hbef)|[_ Hall]]].
    + f_equal.
      assert (minimax <$> getChildBoards scenarioBoard
              = (minimax <$> before) ++ minimax ch :: (minimax <$> after))
        as Hvals by (by rewrite Hsplit, fmap_app).
      rewrite (proj1 (proj2 scenario_minimax)) in Hvals.
      rewrite (proj1 scenario_minimax) in Heq, Hbef.
      assert (length before = 4) as Hlen.
      { destruct before as [|q0 [|q1 [|q2 [|q3 [|q4 rest]]]]];
          simpl in Hvals; try (injection Hvals; intros; congruence);
          [done|].
        exfalso. by destruct rest. }
      assert (getChildBoards scenarioBoard !! 4 = Some ch) as Hat.
      { rewrite Hsplit, <- Hlen. by apply list_lookup_middle. }
      rewrite (proj2 (proj2 scenario_minimax)) in Hat. congruence.
    + exfalso. rewrite Forall_forall in Hall.
      apply (Hall scenarioMove Hmove). by vm_compute.
  - done.
  - split_and!; [done|done|done|]. intros y x.
    destruct y as [|[|[|y]]]; destruct x as [|[|[|x]]]; try done;
      by destruct x.
  - done.
  - rewrite (proj1 (getScore_sound scenarioBoard scenarioMove _ Hm
                      (rtc_once _ _ Hmove) Hsound)).
    by vm_compute.
Qed.

Lemma scenario_best_move_witness :
  cacheSound scenarioBoard ∅ ∧
  (getNextBestBoardState scenarioBoard ∅).1 = Some scenarioMove ∧
  getWinner scenarioMove = compSymbol scenarioMove ∧
  (getScore scenarioMove (getNextBestBoardState scenarioBoard ∅).2).1 = Fin 96.
Proof.
  split; [apply cacheSound_empty|].
  destruct (scenario_best_move ∅ (cacheSound_empty scenarioBoard))
    as (H1 & _ & _ & H2 & H3).
  exact (conj H1 (conj H2 H3)).
Defined.

(** C4, as stated, fails: the score of the winning position is not
    [100]. *)
Lemma scenario_score_counterexample :
  (getNextBestBoardState scenarioBoard ∅).1 = Some scenarioMove ∧
  getWinner scenarioMove = compSymbol scenarioMove ∧
  (getScore scenarioMove (getNextBestBoardState scenarioBoard ∅).2).1
  ≠ Fin 100 ∧
  (getScore scenarioMove ∅).1 ≠ Fin 100.
Proof. by vm_compute. Qed.

(** ** Calling [getScore] twice *)

Section Simulation.
Context {S1 S2 : Type} (R : S1 → S2 → Prop).

Lemma mapScores_sim (f1 : Board → S1 → num * S1)
    (f2 : Board → S2 → num * S2) (bs : list Board) (s1 : S1) (s2 : S2) :
  R s1 s2 →
  (∀ q s1 s2, R s1 s2 →
              (f1 q s1).1 = (f2 q s2).1 ∧ R (f1 q s1).2 (f2 q s2).2) →
  (mapScores f1 bs s1).1 = (mapScores f2 bs s2).1 ∧
  R (mapScores f1 bs s1).2 (mapScores f2 bs s2).2.
Proof.
  intros HR Hf. revert s1 s2 HR.
  induction bs as [|b bs IH]; intros s1 s2 HR; simpl; [done|].
  destruct (Hf b s1 s2 HR) as [Hv HR1].
  destruct (f1 b s1) as [v1 t1], (f2 b s2) as [v2 t2]. simpl in *.
  destruct (IH t1 t2 HR1) as [Hvs HR2].
  destruct (mapScores f1 bs t1) as [vs1 u1].
  destruct (mapScores f2 bs t2) as [vs2 u2]. simpl in *.
  by subst.
Qed.

Lemma forceGetScoreWith_sim (f1 : Board → S1 → num * S1)
    (f2 : Board → S2 → num * S2) (b : Board) (s1 : S1) (s2 : S2) :
  R s1 s2 →
  (∀ q s1 s2, R s1 s2 →
              (f1 q s1).1 = (f2 q s2).1 ∧ R (f1 q s1).2 (f2 q s2).2) →
  (forceGetScoreWith f1 b s1).1 = (forceGetScoreWith f2 b s2).1 ∧
  R (forceGetScoreWith f1 b s1).2 (forceGetScoreWith f2 b s2).2.
Proof.
  intros HR Hf. unfold forceGetScoreWith.
  repeat case_decide; try done.
  destruct (mapScores_sim f1 f2 (getChildBoards b) s1 s2 HR Hf)
    as [Hvs HR'].
  destruct (mapScores f1 (getChildBoards b) s1) as [vs1 u1].
  destruct (mapScores f2 (getChildBoards b) s2) as [vs2 u2].
  simpl in *. subst. by destruct (isCompTurn b).
Qed.
End Simulation.

(** The counter is an observer: it changes neither score nor cache. *)
Lemma getScoreCountN_erase (n : nat) (b : Board)
    (s : gmap string num * nat) :
  (getScoreCountN n b s).1 = (getScoreN n b s.1).1 ∧
  (getScoreCountN n b s).2.1 = (getScoreN n b s.1).2.
Proof.
  revert b s. induction n as [|n IH]; intros b s; simpl;
    (destruct (cacheHit s.1 (stringState b)); [done|]).
  - destruct (forceGetScoreWith_sim (λ s1 s2, s1.1 = s2)
                (λ _ s0, (Fin 0, s0)) (λ _ c0, (Fin 0, c0)) b
                (s.1, S s.2) s.1 eq_refl) as [Hv Hc]; [done|].
    destruct (forceGetScoreWith _ b (s.1, S s.2)) as [v1 t1].
    destruct (forceGetScoreWith _ b s.1) as [v2 t2].
    simpl in *. by subst.
  - destruct (forceGetScoreWith_sim (λ s1 s2, s1.1 = s2)
                (getScoreCountN n) (getScoreN n) b
                (s.1, S s.2) s.1 eq_refl) as [Hv Hc].
    { intros q s1 s2 <-. apply IH. }
    destruct (forceGetScoreWith _ b (s.1, S s.2)) as [v1 t1].
    destruct (forceGetScoreWith _ b s.1) as [v2 t2].
    simpl in *. by subst.
Qed.

Lemma getScoreCount_erase (b : Board) (c : gmap string num) (k : nat) :
  ((getScoreCount b (c, k)).1, (getScoreCount b (c, k)).2.1) = getScore b c.
Proof.
  unfold getScoreCount, getScore.
  destruct (getScoreCountN_erase (countE (state b)) b (c, k)) as [-> ->].
  simpl. by destruct (getScoreN _ b c).
Qed.

(** After a call the encoding of the position is stored with the score
    that the call returned. *)
Lemma getScoreCountN_stored (n : nat) (b : Board)
    (s : gmap string num * nat) :
  (getScoreCountN n b s).2.1 !! stringState b = Some (getScoreCountN n b s).1.
Proof.
  destruct n; simpl;
    (destruct (cacheHit s.1 (stringState b)) as [v|] eqn:Hhit;
     [by apply cacheHit_Some in Hhit as [? _]|]);
    destruct (forceGetScoreWith _ b _) as [v t]; simpl;
    apply lookup_insert_eq.
Qed.

(** A non-zero score is served from the cache on the second call:
    the same value, [forceGetScore] not entered, the cache as it was. *)
Lemma getScore_twice_nonzero (b : Board) (s : gmap string num * nat) :
  (getScoreCount b s).1 ≠ Fin 0 →
  getScoreCount b (getScoreCount b s).2
  = ((getScoreCount b s).1, (getScoreCount b s).2).
Proof.
  unfold getScoreCount. intros Hnz.
  pose proof (getScoreCountN_stored (countE (state b)) b s) as Hst.
  assert (cacheHit (getScoreCountN (countE (state b)) b s).2.1
            (stringState b)
          = Some (getScoreCountN (countE (state b)) b s).1) as Hhit.
  { by apply cacheHit_Some. }
  destruct (countE (state b)); simpl; simpl in Hhit; by rewrite Hhit.
Qed.

(** C7 at the drawn board: the first call stores [0]; the test of the
    second call [if (this.cache[stringState])] takes [0] for a miss and
    [forceGetScore] runs again.  Both calls return [0]. *)
Theorem getScore_twice_zero_recomputes :
  let '(v1, s1) := getScoreCount drawnBoard (∅, 0) in
  let '(v2, s2) := getScoreCount drawnBoard s1 in
  v1 = Fin 0 ∧ v2 = Fin 0 ∧
  s1.1 !! stringState drawnBoard = Some (Fin 0) ∧
  cacheHit s1.1 (stringState drawnBoard) = None ∧
  s1.2 = 1 ∧ s2.2 = 2.
Proof. by vm_compute. Qed.

(** ** Boards as objects: reading *)

Lemma bind_Some {A B} (m : Heap.M A) (k : A → Heap.M B)
    (h h' : list Heap.object) (a : A) :
  m h = Some (a, h') → Heap.bind m k h = k a h'.
Proof. unfold Heap.bind. by intros ->. Qed.

Lemma load_Some (h : list Heap.object) (l : nat) (o : Heap.object) :
  h !! l = Some o → Heap.load l h = Some (o, h).
Proof. unfold Heap.load. by intros ->. Qed.

Lemma loadRow_Some (h : list Heap.object) (l : nat) (cells : list sym) :
  h !! l = Some (Heap.Row cells) → Heap.loadRow l h = Some (cells, h).
Proof.
  intros H. unfold Heap.loadRow.
  by rewrite (bind_Some _ _ _ _ _ (load_Some _ _ _ H)).
Qed.

Lemma loadRows_Some (h : list Heap.object) (l : nat) (refs : list nat) :
  h !! l = Some (Heap.Rows refs) → Heap.loadRows l h = Some (refs, h).
Proof.
  intros H. unfold Heap.loadRows.
  by rewrite (bind_Some _ _ _ _ _ (load_Some _ _ _ H)).
Qed.

Lemma loadCache_Some (h : list Heap.object) (l : nat) (m : gmap string num) :
  h !! l = Some (Heap.Cache m) → Heap.loadCache l h = Some (m, h).
Proof.
  intros H. unfold Heap.loadCache.
  by rewrite (bind_Some _ _ _ _ _ (load_Some _ _ _ H)).
Qed.

Lemma loadInstance_Some (h : list Heap.object) (l : nat) (i : Heap.instance) :
  h !! l = Some (Heap.Instance i) → Heap.loadInstance l h = Some (i, h).
Proof.
  intros H. unfold Heap.loadInstance.
  by rewrite (bind_Some _ _ _ _ _ (load_Some _ _ _ H)).
Qed.

Lemma mapM_loadRow (h : list Heap.object) (refs : list nat)
    (g : list (list sym)) :
  Forall2 (λ r cells, h !! r = Some (Heap.Row cells)) refs g →
  Heap.mapM Heap.loadRow refs h = Some (g, h).
Proof.
  induction 1 as [|r cells refs g Hr _ IH]; [done|]. simpl.
  rewrite (bind_Some _ _ _ _ _ (loadRow_Some _ _ _ Hr)).
  by rewrite (bind_Some _ _ _ _ _ IH).
Qed.

Lemma readState_Some (h : list Heap.object) (l k : nat) (b : Board) :
  boardAt h l b k → Heap.readState l h = Some (state b, h).
Proof.
  intros (i & refs & Hi & Hrefs & Hrows & _). unfold Heap.readState.
  rewrite (bind_Some _ _ _ _ _ (loadInstance_Some _ _ _ Hi)).
  rewrite (bind_Some _ _ _ _ _ (loadRows_Some _ _ _ Hrefs)).
  by apply mapM_loadRow.
Qed.

Lemma readBoard_Some (h : list Heap.object) (l k : nat) (b : Board) :
  boardAt h l b k → Heap.readBoard l h = Some (b, h).
Proof.
  intros Hb. pose proof (readState_Some h l k b Hb) as Hst.
  destruct Hb as (i & refs & Hi & Hrefs & Hrows & Hc & Ht & _).
  unfold Heap.readBoard.
  rewrite (bind_Some _ _ _ _ _ (loadInstance_Some _ _ _ Hi)).
  rewrite (bind_Some _ _ _ _ _ Hst). unfold Heap.ret.
  rewrite Hc, Ht. by destruct b.
Qed.

Lemma readCell_Some (h : list Heap.object) (l k : nat) (b : Board)
    (y x : nat) :
  boardAt h l b k → y < boardSize b →
  Heap.readCell l y x h = Some (cell (state b) y x, h).
Proof.
  intros (i & refs & Hi & Hrefs & Hrows & _) Hy. unfold Heap.readCell.
  rewrite (bind_Some _ _ _ _ _ (loadInstance_Some _ _ _ Hi)).
  rewrite (bind_Some _ _ _ _ _ (loadRows_Some _ _ _ Hrefs)).
  destruct (lookup_lt_is_Some_2 (state b) y Hy) as [cells Hcells].
  destruct (Forall2_lookup_r _ _ _ _ _ Hrows Hcells) as (r & Hr & Hrow).
  rewrite Hr. rewrite (bind_Some _ _ _ _ _ (loadRow_Some _ _ _ Hrow)).
  unfold Heap.ret, cell. by rewrite Hcells.
Qed.

(** [getWinner] returns the verdict of the value and leaves the store as
    it is. *)
Lemma heap_getWinner (h : list Heap.object) (l k : nat) (b : Board) :
  boardAt h l b k → Heap.getWinner l h = Some (getWinner b, h).
Proof.
  intros Hb. unfold Heap.getWinner.
  by rewrite (bind_Some _ _ _ _ _ (readBoard_Some _ _ _ _ Hb)).
Qed.

Lemma heap_stringState (h : list Heap.object) (l k : nat) (b : Board) :
  boardAt h l b k → Heap.stringState l h = Some (stringState b, h).
Proof.
  intros Hb. unfold Heap.stringState.
  by rewrite (bind_Some _ _ _ _ _ (readBoard_Some _ _ _ _ Hb)).
Qed.

(** ** Boards as objects: framing *)

Lemma preserves_refl (k : nat) (h : list Heap.object) : preserves k h h.
Proof. by split. Qed.

Lemma preserves_trans (k : nat) (h1 h2 h3 : list Heap.object) :
  preserves k h1 h2 → preserves k h2 h3 → preserves k h1 h3.
Proof.
  intros [Hl1 H1] [Hl2 H2]. split; [lia|].
  intros l Hl Hk. rewrite H2 by (done || lia). by apply H1.
Qed.

Lemma preserves_app (k : nat) (h ext : list Heap.object) :
  preserves k h (h ++ ext).
Proof.
  split; [rewrite length_app; lia|].
  intros l Hl _. by apply lookup_app_l.
Qed.

Lemma preserves_store (k : nat) (h : list Heap.object) (o : Heap.object) :
  preserves k h (<[k := o]> h).
Proof.
  split; [by rewrite length_insert|].
  intros l _ Hk. by apply list_lookup_insert_ne.
Qed.

Lemma boardAt_preserved (k : nat) (h h' : list Heap.object) (l : nat)
    (b : Board) (m : gmap string num) :
  boardAt h l b k → cacheAt h k m → preserves k h h' → boardAt h' l b k.
Proof.
  intros (i & refs & Hi & Hrefs & Hrows & Hrest) Hk [_ Hp].
  assert (Hkeep : ∀ l' o, h !! l' = Some o → (∀ m', o ≠ Heap.Cache m') →
                          h' !! l' = Some o).
  { intros l' o Hl' Hno. rewrite Hp; [done|by eapply lookup_lt_Some|].
    intros ->. unfold cacheAt in Hk. rewrite Hk in Hl'.
    injection Hl' as <-. by eapply Hno. }
  exists i, refs.
  refine (conj _ (conj _ (conj _ Hrest))); [by apply Hkeep..|].
  eapply Forall2_impl; [exact Hrows|]. intros r cells Hr. by apply Hkeep.
Qed.

Lemma boardAt_app (k : nat) (h ext : list Heap.object) (l : nat) (b : Board) :
  boardAt h l b k → boardAt (h ++ ext) l b k.
Proof.
  intros (i & refs & Hi & Hrefs & Hrows & Hrest).
  exists i, refs.
  refine (conj _ (conj _ (conj _ Hrest))); [by apply lookup_app_l_Some..|].
  eapply Forall2_impl; [exact Hrows|]. intros r cells Hr.
  by apply lookup_app_l_Some.
Qed.

Lemma cacheAt_app (k : nat) (h ext : list Heap.object)
    (m : gmap string num) :
  cacheAt h k m → cacheAt (h ++ ext) k m.
Proof. unfold cacheAt. apply lookup_app_l_Some. Qed.

(** ** Boards as objects: [clone] *)

Lemma boardObjects_row (h : list Heap.object) (b : Board) (k y : nat)
    (cells : list sym) :
  state b !! y = Some cells →
  (h ++ boardObjects (length h) b k) !! (length h + y) = Some (Heap.Row cells).
Proof.
  intros Hy. rewrite lookup_app_r by lia.
  replace (length h + y - length h) with y by lia.
  unfold boardObjects. apply lookup_app_l_Some.
  by rewrite list_lookup_fmap, Hy.
Qed.

Lemma boardObjects_rows (h : list Heap.object) (b : Board) (k : nat) :
  (h ++ boardObjects (length h) b k) !! (length h + length (state b))
  = Some (Heap.Rows (seq (length h) (length (state b)))).
Proof.
  rewrite lookup_app_r by lia.
  replace (length h + length (state b) - length h)
    with (length (Heap.Row <$> state b) + 0) by (rewrite length_fmap; lia).
  unfold boardObjects. by rewrite lookup_app_r, Nat.add_0_r, Nat.sub_diag by lia.
Qed.

Lemma boardObjects_instance (h : list Heap.object) (b : Board) (k : nat) :
  (h ++ boardObjects (length h) b k) !! boardLoc (length h) b
  = Some (Heap.Instance
            {| Heap.i_state := length h + length (state b);
               Heap.i_compSymbol := compSymbol b;
               Heap.i_isCompTurn := isCompTurn b;
               Heap.i_cache := k;
               Heap.i_boardSize := length (state b);
               Heap.i_humanSymbol := humanSymbol b |}).
Proof.
  unfold boardLoc. rewrite lookup_app_r by lia.
  replace (length h + length (state b) + 1 - length h)
    with (length (Heap.Row <$> state b) + 1) by (rewrite length_fmap; lia).
  unfold boardObjects. rewrite lookup_app_r by lia.
  by replace (length (Heap.Row <$> state b) + 1
              - length (Heap.Row <$> state b)) with 1 by lia.
Qed.

Lemma length_boardObjects (n : nat) (b : Board) (k : nat) :
  length (boardObjects n b k) = length (state b) + 2.
Proof. unfold boardObjects. rewrite length_app, length_fmap. done. Qed.

(** The objects of a board value are a board instance of that value, and
    they are all new. *)
Lemma boardAt_boardObjects (h : list Heap.object) (b : Board) (k : nat) :
  boardAt (h ++ boardObjects (length h) b k) (boardLoc (length h) b) b k ∧
  ownsFrom (length h) (h ++ boardObjects (length h) b k)
           (boardLoc (length h) b).
Proof.
  split.
  - eexists _, _. split; [apply boardObjects_instance|]. simpl.
    split; [apply boardObjects_rows|].
    split_and!; try done; [|by rewrite length_seq].
    apply Forall2_same_length_lookup_2; [by rewrite length_seq|].
    intros y r cells [-> _]%lookup_seq Hy. by apply boardObjects_row.
  - eexists _, _. split; [apply boardObjects_instance|]. simpl.
    split; [apply boardObjects_rows|].
    unfold boardLoc. split_and!; [lia|lia|].
    apply Forall_seq. intros; lia.
Qed.

Lemma mapM_copyRow (h0 ext : list Heap.object) (refs : list nat)
    (g : list (list sym)) :
  Forall2 (λ r cells, h0 !! r = Some (Heap.Row cells)) refs g →
  Heap.mapM (λ r, Heap.bind (Heap.loadRow r)
                    (λ cells, Heap.alloc (Heap.Row cells)))
    refs (h0 ++ ext)
  = Some (seq (length (h0 ++ ext)) (length g),
          (h0 ++ ext) ++ (Heap.Row <$> g)).
Proof.
  intros Hrows. revert ext.
  induction Hrows as [|r cells refs g Hr _ IH]; intros ext; simpl.
  - by rewrite app_nil_r.
  - assert ((h0 ++ ext) !! r = Some (Heap.Row cells)) as Hr'.
    { by apply lookup_app_l_Some. }
    rewrite (bind_Some _ _ _ _ _
               (bind_Some _ _ _ _ _ (loadRow_Some _ _ _ Hr'))).
    unfold Heap.alloc at 1. rewrite <- (app_assoc h0 ext).
    rewrite (bind_Some _ _ _ _ _ (IH (ext ++ [Heap.Row cells]))).
    unfold Heap.ret. rewrite !length_app. simpl.
    replace (length h0 + (length ext + 1)) with (S (length h0 + length ext))
      by lia.
    by rewrite <- !app_assoc.
Qed.

(** [clone] allocates the objects of the same board value and returns
    the new instance; the cache reference is copied, not the cache. *)
Lemma heap_clone (h : list Heap.object) (l k : nat) (b : Board) :
  boardAt h l b k →
  Heap.clone l h
  = Some (boardLoc (length h) b, h ++ boardObjects (length h) b k).
Proof.
  intros (i & refs & Hi & Hrefs & Hrows & Hc & Ht & Hk & Hn & Hh).
  unfold Heap.clone.
  rewrite (bind_Some _ _ _ _ _ (loadInstance_Some _ _ _ Hi)).
  rewrite (bind_Some _ _ _ _ _ (loadRows_Some _ _ _ Hrefs)).
  pose proof (mapM_copyRow h [] refs (state b) Hrows) as Hcopy.
  rewrite app_nil_r in Hcopy.
  rewrite (bind_Some _ _ _ _ _ Hcopy).
  unfold Heap.alloc at 1. unfold Heap.bind at 1.
  unfold Heap.newBoard.
  erewrite bind_Some.
  2:{ apply loadRows_Some. rewrite lookup_app_r by lia.
      by rewrite Nat.sub_diag. }
  unfold Heap.alloc, boardObjects, boardLoc.
  rewrite !length_app, length_fmap, length_seq. simpl.
  rewrite Hc, Ht, Hk, <- !app_assoc. simpl.
  unfold humanSymbol. done.
Qed.

(** ** Boards as objects: [getChildBoards] *)

Lemma insert_alter_row (g : list (list sym)) (y x : nat) (s : sym)
    (cells : list sym) :
  g !! y = Some cells →
  <[y := <[x := s]> cells]> g = alter (λ row, <[x := s]> row) y g.
Proof.
  intros Hy. apply list_eq. intros j.
  destruct (decide (y = j)) as [<-|Hne].
  - rewrite list_lookup_insert_eq by (by eapply lookup_lt_Some).
    by rewrite list_lookup_alter_eq, Hy.
  - by rewrite list_lookup_insert_ne, list_lookup_alter_ne.
Qed.

Lemma childAt_eq (b : Board) (s : sym) (y x : nat) :
  childAt b s y x
  = mkBoard (alter (λ row, <[x := s]> row) y (state b)) (compSymbol b)
            (negb (isCompTurn b)).
Proof.
  pose proof (childAt_state b s y x) as Hst.
  destruct (childAt b s y x) as [g c t] eqn:Hch.
  unfold childAt in Hch. injection Hch as _ <- <-. simpl in Hst. by subst.
Qed.

Lemma writeCell_boardObjects (h : list Heap.object) (b : Board)
    (k y x : nat) (s : sym) :
  y < boardSize b →
  Heap.writeCell (boardLoc (length h) b) y x s
    (h ++ boardObjects (length h) b k)
  = Some (tt, h ++ boardObjects (length h)
                     (mkBoard (alter (λ row, <[x := s]> row) y (state b))
                              (compSymbol b) (isCompTurn b)) k).
Proof.
  intros Hy. destruct (lookup_lt_is_Some_2 (state b) y Hy) as [cells Hcells].
  unfold Heap.writeCell.
  rewrite (bind_Some _ _ _ _ _
             (loadInstance_Some _ _ _ (boardObjects_instance h b k))).
  simpl.
  rewrite (bind_Some _ _ _ _ _
             (loadRows_Some _ _ _ (boardObjects_rows h b k))).
  rewrite lookup_seq_lt by done.
  rewrite (bind_Some _ _ _ _ _
             (loadRow_Some _ _ _ (boardObjects_row h b k y cells Hcells))).
  unfold Heap.store.
  rewrite decide_True
    by (rewrite length_app, length_boardObjects; unfold boardSize in Hy; lia).
  f_equal. f_equal. rewrite insert_app_r. f_equal.
  unfold boardObjects. simpl.
  rewrite insert_app_l by (by rewrite length_fmap).
  rewrite <- (insert_alter_row _ _ _ _ _ Hcells).
  by rewrite list_fmap_insert, length_insert.
Qed.

Lemma setIsCompTurn_boardObjects (h : list Heap.object) (b : Board)
    (k : nat) (t : bool) :
  Heap.setIsCompTurn (boardLoc (length h) b) t
    (h ++ boardObjects (length h) b k)
  = Some (tt, h ++ boardObjects (length h)
                     (mkBoard (state b) (compSymbol b) t) k).
Proof.
  unfold Heap.setIsCompTurn.
  rewrite (bind_Some _ _ _ _ _
             (loadInstance_Some _ _ _ (boardObjects_instance h b k))).
  simpl. unfold Heap.store, boardLoc.
  rewrite decide_True by (rewrite length_app, length_boardObjects; lia).
  f_equal. f_equal.
  replace (length h + length (state b) + 1)
    with (length h + (length (Heap.Row <$> state b) + 1))
    by (rewrite length_fmap; lia).
  rewrite insert_app_r. f_equal. unfold boardObjects.
  by rewrite insert_app_r.
Qed.

Lemma childStep_empty (h : list Heap.object) (l k : nat) (b : Board)
    (y x : nat) :
  boardAt h l b k → y < boardSize b → cell (state b) y x = Some E →
  Heap.childStep l (playerSymbol b) (isCompTurn b) (y, x) h
  = Some ([boardLoc (length h) b],
          h ++ boardObjects (length h) (childAt b (playerSymbol b) y x) k).
Proof.
  intros Hb Hy Hc. unfold Heap.childStep. simpl.
  rewrite (bind_Some _ _ _ _ _ (readCell_Some _ _ _ _ _ x Hb Hy)).
  rewrite bool_decide_eq_true_2 by done.
  rewrite (bind_Some _ _ _ _ _ (heap_clone _ _ _ _ Hb)).
  rewrite (bind_Some _ _ _ _ _
             (writeCell_boardObjects h b k y x (playerSymbol b) Hy)).
  assert (boardLoc (length h) b
          = boardLoc (length h)
              (mkBoard (alter (λ row, <[x := playerSymbol b]> row) y (state b))
                       (compSymbol b) (isCompTurn b))) as Hloc.
  { unfold boardLoc. simpl. by rewrite length_alter. }
  rewrite Hloc.
  rewrite (bind_Some _ _ _ _ _ (setIsCompTurn_boardObjects h _ k _)).
  unfold Heap.ret. simpl. by rewrite childAt_eq.
Qed.

Lemma childStep_other (h : list Heap.object) (l k : nat) (b : Board)
    (s : sym) (t : bool) (y x : nat) :
  boardAt h l b k → y < boardSize b → cell (state b) y x ≠ Some E →
  Heap.childStep l s t (y, x) h = Some ([], h).
Proof.
  intros Hb Hy Hc. unfold Heap.childStep. simpl.
  rewrite (bind_Some _ _ _ _ _ (readCell_Some _ _ _ _ _ x Hb Hy)).
  by rewrite bool_decide_eq_false_2.
Qed.

Lemma bind_bind_list {A B C} (f : A → list B) (g : B → list C)
    (l : list A) :
  (l ≫= f) ≫= g = l ≫= λ a, f a ≫= g.
Proof.
  induction l as [|a l IH]; [done|].
  by rewrite !bind_cons, bind_app, IH.
Qed.

Lemma layout_cons (n : nat) (b : Board) (rest : list Board) (k : nat) :
  layout n (b :: rest) k
  = (boardLoc n b :: (layout (n + length (boardObjects n b k)) rest k).1,
     boardObjects n b k ++ (layout (n + length (boardObjects n b k)) rest k).2).
Proof. simpl. by destruct (layout _ rest k). Qed.

(** The children that the loop pushes for a list of coordinates. *)
Lemma mapM_childStep (h : list Heap.object) (l k : nat) (b : Board)
    (ps : list (nat * nat)) (ext : list Heap.object) :
  boardAt h l b k → Forall (λ p, p.1 < boardSize b) ps →
  let children :=
    ps ≫= λ p, if bool_decide (cell (state b) p.1 p.2 = Some E)
               then [childAt b (playerSymbol b) p.1 p.2] else [] in
  ∃ pushed,
    Heap.mapM (Heap.childStep l (playerSymbol b) (isCompTurn b)) ps
      (h ++ ext)
    = Some (pushed,
            (h ++ ext) ++ (layout (length (h ++ ext)) children k).2) ∧
    concat pushed = (layout (length (h ++ ext)) children k).1.
Proof.
  intros Hb Hps. revert ext.
  induction Hps as [|[y x] ps Hy _ IH]; intros ext children.
  - exists []. simpl. by rewrite app_nil_r.
  - pose proof (boardAt_app k h ext l b Hb) as Hb'. simpl in Hy.
    subst children. rewrite bind_cons. cbn [Heap.mapM fst snd].
    case_bool_decide as Hc.
    + rewrite (bind_Some _ _ _ _ _ (childStep_empty _ _ _ _ y x Hb' Hy Hc)).
      set (c := childAt b (playerSymbol b) y x).
      destruct (IH (ext ++ boardObjects (length (h ++ ext)) c k))
        as (pushed & Hrun & Hlocs).
      rewrite (app_assoc h) in Hrun, Hlocs.
      rewrite (length_app (h ++ ext)) in Hrun, Hlocs.
      rewrite (bind_Some _ _ _ _ _ Hrun).
      exists ([boardLoc (length (h ++ ext)) b] :: pushed).
      change ([c] ++ ?r) with (c :: r). rewrite layout_cons.
      unfold Heap.ret. cbn [fst snd concat]. rewrite Hlocs.
      split; [by rewrite <- app_assoc|].
      simpl. f_equal. subst c. unfold boardLoc.
      by rewrite childAt_state, length_alter.
    + rewrite (bind_Some _ _ _ _ _
                 (childStep_other _ _ _ _ _ _ y x Hb' Hy Hc)).
      destruct (IH ext) as (pushed & Hrun & Hlocs).
      rewrite (bind_Some _ _ _ _ _ Hrun).
      by exists ([] :: pushed).
Qed.

(** [getChildBoards] allocates the objects of the children of the value,
    in order, after everything that exists; nothing that exists is
    written. *)
Lemma heap_getChildBoards (h : list Heap.object) (l k : nat) (b : Board) :
  boardAt h l b k →
  Heap.getChildBoards l h
  = Some ((layout (length h) (getChildBoards b) k).1,
          h ++ (layout (length h) (getChildBoards b) k).2).
Proof.
  intros Hb. pose proof Hb as (i & refs & Hi & Hrefs & Hrows & Hc & Ht & Hk & Hn & Hh).
  unfold Heap.getChildBoards.
  rewrite (bind_Some _ _ _ _ _ (loadInstance_Some _ _ _ Hi)).
  assert (Heap.i_boardSize i = boardSize b) as ->.
  { rewrite Hn. unfold boardSize. by eapply Forall2_length. }
  assert ((if Heap.i_isCompTurn i then Heap.i_compSymbol i
           else Heap.i_humanSymbol i) = playerSymbol b) as ->.
  { unfold playerSymbol. by rewrite Ht, Hc, Hh. }
  rewrite Ht.
  destruct (mapM_childStep h l k b
              (y ← seq 0 (boardSize b); x ← seq 0 (boardSize b); [(y, x)])
              [] Hb) as (pushed & Hrun & Hlocs).
  { apply Forall_forall. intros [y x] Hin.
    apply list_elem_of_bind in Hin as (y' & Hin & Hy'%elem_of_seq).
    apply list_elem_of_bind in Hin as (x' & Hin & _).
    apply list_elem_of_singleton in Hin as [= -> ->]. simpl. lia. }
  rewrite app_nil_r in Hrun, Hlocs.
  rewrite (bind_Some _ _ _ _ _ Hrun). unfold Heap.ret.
  assert (((y ← seq 0 (boardSize b); x ← seq 0 (boardSize b); [(y, x)])
           ≫= λ p, if bool_decide (cell (state b) p.1 p.2 = Some E)
                    then [childAt b (playerSymbol b) p.1 p.2] else [])
          = getChildBoards b) as Hch.
  { unfold getChildBoards. rewrite bind_bind_list.
    apply list_bind_ext; [|done]. intros y. rewrite bind_bind_list.
    apply list_bind_ext; [|done]. intros x. simpl. by rewrite app_nil_r. }
  by rewrite Hlocs, Hch.
Qed.

Lemma ownsFrom_app (n : nat) (h ext : list Heap.object) (l : nat) :
  ownsFrom n h l → ownsFrom n (h ++ ext) l.
Proof.
  intros (i & refs & Hi & Hrefs & Hrest). exists i, refs.
  refine (conj _ (conj _ Hrest)); by apply lookup_app_l_Some.
Qed.

Lemma ownsFrom_mono (n n' : nat) (h : list Heap.object) (l : nat) :
  n ≤ n' → ownsFrom n' h l → ownsFrom n h l.
Proof.
  intros Hle (i & refs & Hi & Hrefs & Hl & Hs & Hr). exists i, refs.
  split_and!; [done|done|lia|lia|].
  eapply Forall_impl; [exact Hr|]. simpl. intros; lia.
Qed.

Lemma layout_length (n : nat) (bs : list Board) (k : nat) :
  length (layout n bs k).1 = length bs.
Proof.
  revert n. induction bs as [|b bs IH]; intros n; [done|].
  rewrite layout_cons. simpl. by rewrite IH.
Qed.

(** The instances of a layout are boards of the given values; they and
    their arrays are new, and the cache field of each is [k]. *)
Lemma layout_boardAt (h : list Heap.object) (bs : list Board) (k : nat) :
  Forall2 (λ loc b,
             boardAt (h ++ (layout (length h) bs k).2) loc b k ∧
             ownsFrom (length h) (h ++ (layout (length h) bs k).2) loc)
    (layout (length h) bs k).1 bs.
Proof.
  revert h. induction bs as [|b bs IH]; intros h; [constructor|].
  rewrite layout_cons. cbn [fst snd].
  destruct (boardAt_boardObjects h b k) as [Hb Ho].
  constructor.
  - rewrite app_assoc. split; [by apply boardAt_app | by apply ownsFrom_app].
  - specialize (IH (h ++ boardObjects (length h) b k)).
    rewrite length_app, <- app_assoc in IH.
    eapply Forall2_impl; [exact IH|]. simpl. intros loc c [Hc Hoc].
    split; [done|]. eapply ownsFrom_mono; [|exact Hoc]. lia.
Qed.

Lemma layout_noCache (n : nat) (bs : list Board) (k : nat) :
  Forall (λ o, ∀ m, o ≠ Heap.Cache m) (layout n bs k).2.
Proof.
  revert n. induction bs as [|b bs IH]; intros n; [constructor|].
  rewrite layout_cons. cbn [snd]. apply Forall_app. split; [|apply IH].
  unfold boardObjects. apply Forall_app. split.
  - apply Forall_fmap, Forall_true. done.
  - repeat constructor; done.
Qed.

Lemma noNewCache_app (h ext : list Heap.object) :
  Forall (λ o, ∀ m, o ≠ Heap.Cache m) ext → noNewCache h (h ++ ext).
Proof.
  intros Hext l m Hl.
  destruct (decide (l < length h)) as [|Hge]; [done|]. exfalso.
  rewrite lookup_app_r in Hl by lia.
  rewrite Forall_forall in Hext.
  apply (Hext (Heap.Cache m)) with m; [|done].
  by eapply list_elem_of_lookup_2.
Qed.

(** ** Boards as objects: [getScore] *)

Section Refinement.
Variable k : nat.
Variable rec : nat → Heap.M num.
Variable prec : Board → gmap string num → num * gmap string num.
Hypothesis Hrec : refines k rec prec.

Lemma heap_mapM_scores (kids : list nat) (children : list Board)
    (h : list Heap.object) (m : gmap string num) :
  Forall2 (λ kid child, boardAt h kid child k) kids children →
  cacheAt h k m →
  ∃ h', Heap.mapM rec kids h = Some ((mapScores prec children m).1, h') ∧
        cacheAt h' k (mapScores prec children m).2 ∧ preserves k h h'.
Proof.
  revert children h m.
  induction kids as [|kid kids IH]; intros children h m Hkids Hm.
  - apply Forall2_nil_inv_l in Hkids as ->. exists h.
    split_and!; [done|done|apply preserves_refl].
  - apply Forall2_cons_inv_l in Hkids as (child & rest & Hkid & Hrest & ->).
    destruct (Hrec kid child h m Hkid Hm) as (h1 & Hrun1 & Hm1 & Hp1).
    destruct (IH rest h1 (prec child m).2) as (h2 & Hrun2 & Hm2 & Hp2).
    { eapply Forall2_impl; [exact Hrest|]. simpl. intros kid' c' Hb'.
      by eapply boardAt_preserved. }
    { done. }
    exists h2. simpl.
    rewrite (bind_Some _ _ _ _ _ Hrun1), (bind_Some _ _ _ _ _ Hrun2).
    destruct (prec child m) as [v m1]. simpl in *.
    destruct (mapScores prec rest m1) as [vs m2]. simpl in *.
    split_and!; [done|done|by eapply preserves_trans].
Qed.

Lemma heap_forceGetScoreWith (this : nat) (b : Board)
    (h : list Heap.object) (m : gmap string num) :
  boardAt h this b k → cacheAt h k m →
  ∃ h', Heap.forceGetScoreWith rec this h
        = Some ((forceGetScoreWith prec b m).1, h') ∧
        cacheAt h' k (forceGetScoreWith prec b m).2 ∧ preserves k h h'.
Proof.
  intros Hb Hm.
  pose proof Hb as (i & refs & Hi & _ & _ & Hc & Ht & _ & _ & Hh).
  pose proof (heap_getChildBoards h this k b Hb) as Hkids.
  pose proof (layout_boardAt h (getChildBoards b) k) as Hlay.
  pose proof (layout_length (length h) (getChildBoards b) k) as Hlen.
  destruct (layout (length h) (getChildBoards b) k) as [kids objs].
  simpl in *.
  unfold Heap.forceGetScoreWith, forceGetScoreWith.
  rewrite (bind_Some _ _ _ _ _ (loadInstance_Some _ _ _ Hi)).
  rewrite (bind_Some _ _ _ _ _ (heap_getWinner _ _ _ _ Hb)).
  rewrite Hc, Hh, Ht.
  assert (Hterm : ∀ z : nat → Z,
            ∃ h', Heap.bind (Heap.getChildBoards this)
                    (λ kids, Heap.ret (Fin (z (length kids)))) h
                  = Some (Fin (z (length (getChildBoards b))), h') ∧
                  cacheAt h' k m ∧ preserves k h h').
  { intros z. exists (h ++ objs).
    rewrite (bind_Some _ _ _ _ _ Hkids). unfold Heap.ret. rewrite Hlen.
    split_and!; [done|by apply cacheAt_app|apply preserves_app]. }
  case_decide; [apply (Hterm (λ n, 100 - Z.of_nat n)%Z)|].
  rewrite (bind_Some _ _ _ _ _ (heap_getWinner _ _ _ _ Hb)).
  case_decide; [apply (Hterm (λ n, -100 + Z.of_nat n)%Z)|].
  rewrite (bind_Some _ _ _ _ _ (heap_getWinner _ _ _ _ Hb)).
  case_decide; [apply (Hterm (λ n, 0 + Z.of_nat n)%Z)|].
  rewrite (bind_Some _ _ _ _ _ Hkids).
  destruct (heap_mapM_scores kids (getChildBoards b) (h ++ objs) m)
    as (h' & Hrun & Hm' & Hp).
  { eapply Forall2_impl; [exact Hlay|]. by intros kid c [? _]. }
  { by apply cacheAt_app. }
  exists h'. rewrite (bind_Some _ _ _ _ _ Hrun). unfold Heap.ret.
  destruct (mapScores prec (getChildBoards b) m) as [vs m']. simpl in *.
  split_and!.
  - by destruct (isCompTurn b).
  - by destruct (isCompTurn b).
  - eapply preserves_trans; [apply preserves_app | exact Hp].
Qed.
End Refinement.

Lemma refines_getScoreN (k n : nat) :
  refines k (Heap.getScoreN n) (getScoreN n).
Proof.
  induction n as [|n IH]; intros this b h m Hb Hm;
    pose proof Hb as (i & refs & Hi & _ & _ & _ & _ & Hk & _);
    cbn [Heap.getScoreN getScoreN];
    rewrite (bind_Some _ _ _ _ _ (heap_stringState _ _ _ _ Hb));
    rewrite (bind_Some _ _ _ _ _ (loadInstance_Some _ _ _ Hi));
    rewrite Hk;
    rewrite (bind_Some _ _ _ _ _ (loadCache_Some _ _ _ Hm));
    (destruct (cacheHit m (stringState b)) as [v|];
     [exists h; split_and!; [done|done|apply preserves_refl]|]).
  - destruct (heap_forceGetScoreWith k (λ _, Heap.ret (Fin 0))
                (λ _ c0, (Fin 0, c0)) ) with this b h m
      as (h1 & Hrun & Hm1 & Hp1); [|done|done|].
    { intros kid c h0 m0 _ Hm0. exists h0.
      split_and!; [done|done|apply preserves_refl]. }
    rewrite (bind_Some _ _ _ _ _ Hrun).
    destruct (forceGetScoreWith _ b m) as [score m1]. simpl in *.
    rewrite (bind_Some _ _ _ _ _ (loadCache_Some _ _ _ Hm1)).
    unfold Heap.bind, Heap.store, Heap.ret.
    rewrite decide_True by (by eapply lookup_lt_Some).
    eexists. split_and!; [done| |].
    + unfold cacheAt. apply list_lookup_insert_eq. by eapply lookup_lt_Some.
    + eapply preserves_trans; [exact Hp1 | apply preserves_store].
  - destruct (heap_forceGetScoreWith k (Heap.getScoreN n) (getScoreN n) IH
                this b h m Hb Hm) as (h1 & Hrun & Hm1 & Hp1).
    rewrite (bind_Some _ _ _ _ _ Hrun).
    destruct (forceGetScoreWith _ b m) as [score m1]. simpl in *.
    rewrite (bind_Some _ _ _ _ _ (loadCache_Some _ _ _ Hm1)).
    unfold Heap.bind, Heap.store, Heap.ret.
    rewrite decide_True by (by eapply lookup_lt_Some).
    eexists. split_and!; [done| |].
    + unfold cacheAt. apply list_lookup_insert_eq. by eapply lookup_lt_Some.
    + eapply preserves_trans; [exact Hp1 | apply preserves_store].
Qed.

(** [getScore] on objects is [getScore] on values with the entries of
    the shared cache object: it returns the same score, leaves the same
    entries in the cache object, and changes no other object that
    exists. *)
Lemma refines_getScore (k : nat) : refines k Heap.getScore getScore.
Proof.
  intros this b h m Hb Hm. unfold Heap.getScore, getScore.
  rewrite (bind_Some _ _ _ _ _ (readBoard_Some _ _ _ _ Hb)).
  by apply refines_getScoreN.
Qed.

(** ** Boards as objects: [getNextBestBoardState] *)

Lemma heap_findBest (k this : nat) (b : Board) (kids : list nat)
    (children : list Board) (h : list Heap.object) (m : gmap string num) :
  boardAt h this b k →
  Forall2 (λ kid child, boardAt h kid child k) kids children →
  cacheAt h k m →
  ∃ r h', Heap.findBest this kids h = Some (r, h') ∧
          sameMove h' k r (findBest b children m).1 ∧
          cacheAt h' k (findBest b children m).2 ∧ preserves k h h'.
Proof.
  revert children h m.
  induction kids as [|kid kids IH]; intros children h m Hb Hkids Hm.
  - apply Forall2_nil_inv_l in Hkids as ->. exists None, h.
    split_and!; [done|done|done|apply preserves_refl].
  - apply Forall2_cons_inv_l in Hkids as (child & rest & Hkid & Hrest & ->).
    destruct (refines_getScore k kid child h m Hkid Hm)
      as (h1 & Hrun1 & Hm1 & Hp1).
    pose proof (boardAt_preserved k h h1 this b m Hb Hm Hp1) as Hb1.
    destruct (refines_getScore k this b h1 _ Hb1 Hm1)
      as (h2 & Hrun2 & Hm2 & Hp2).
    cbn [Heap.findBest findBest].
    rewrite (bind_Some _ _ _ _ _ Hrun1), (bind_Some _ _ _ _ _ Hrun2).
    destruct (getScore child m) as [v m1]. simpl in *.
    destruct (getScore b m1) as [w m2]. simpl in *.
    pose proof (preserves_trans k h h1 h2 Hp1 Hp2) as Hp.
    case_decide.
    + exists (Some kid), h2. unfold Heap.ret. simpl.
      split_and!; [done| |done|done].
      by eapply boardAt_preserved.
    + destruct (IH rest h2 m2) as (r & h3 & Hrun3 & Hr & Hm3 & Hp3).
      { by eapply boardAt_preserved. }
      { eapply Forall2_impl; [exact Hrest|]. simpl. intros kid' c' Hb'.
        by eapply boardAt_preserved. }
      { done. }
      exists r, h3. split_and!; [done|done|done|].
      by eapply preserves_trans.
Qed.

Lemma heap_getNextBestBoardState (k this : nat) (b : Board)
    (h : list Heap.object) (m : gmap string num) :
  boardAt h this b k → cacheAt h k m →
  ∃ r h', Heap.getNextBestBoardState this h = Some (r, h') ∧
          sameMove h' k r (getNextBestBoardState b m).1 ∧
          cacheAt h' k (getNextBestBoardState b m).2 ∧ preserves k h h'.
Proof.
  intros Hb Hm.
  pose proof Hb as (i & refs & Hi & _ & _ & _ & Ht & _).
  unfold Heap.getNextBestBoardState, getNextBestBoardState.
  rewrite (bind_Some _ _ _ _ _ (loadInstance_Some _ _ _ Hi)), Ht.
  destruct (isCompTurn b); simpl.
  2:{ exists None, h. split_and!; [done|done|done|apply preserves_refl]. }
  rewrite (bind_Some _ _ _ _ _ (heap_getWinner _ _ _ _ Hb)).
  case_decide.
  2:{ exists None, h. split_and!; [done|done|done|apply preserves_refl]. }
  rewrite (bind_Some _ _ _ _ _ (heap_getChildBoards h this k b Hb)).
  pose proof (layout_boardAt h (getChildBoards b) k) as Hlay.
  destruct (layout (length h) (getChildBoards b) k) as [kids objs].
  simpl in *.
  destruct (heap_findBest k this b kids (getChildBoards b) (h ++ objs) m)
    as (r & h' & Hrun & Hr & Hm' & Hp).
  { by apply boardAt_app. }
  { eapply Forall2_impl; [exact Hlay|]. by intros kid c [? _]. }
  { by apply cacheAt_app. }
  exists r, h'. split_and!; [done|done|done|].
  eapply preserves_trans; [apply preserves_app | exact Hp].
Qed.

(** ** Queries do not mutate; copies are deep; the cache is shared *)

Lemma boardAt_agree (h h' : list Heap.object) (l k : nat) (b : Board) :
  boardAt h l b k → (∀ l', l' < length h → h' !! l' = h !! l') →
  boardAt h' l b k.
Proof.
  intros (i & refs & Hi & Hrefs & Hrows & Hrest) Hag.
  assert (Hkeep : ∀ l' o, h !! l' = Some o → h' !! l' = Some o).
  { intros l' o Hl'. rewrite Hag; [done|by eapply lookup_lt_Some]. }
  exists i, refs.
  refine (conj _ (conj _ (conj _ Hrest))); [by apply Hkeep..|].
  eapply Forall2_impl; [exact Hrows|]. intros r cells Hr. by apply Hkeep.
Qed.

(** Writing a cell of a board touches one of its own rows only. *)
Lemma writeCell_frame (n : nat) (h h'' : list Heap.object) (c y x : nat)
    (s : sym) :
  ownsFrom n h c → Heap.writeCell c y x s h = Some (tt, h'') →
  ∀ l, l < n → h'' !! l = h !! l.
Proof.
  intros (i & refs & Hi & Hrefs & _ & _ & Hfresh). unfold Heap.writeCell.
  rewrite (bind_Some _ _ _ _ _ (loadInstance_Some _ _ _ Hi)).
  rewrite (bind_Some _ _ _ _ _ (loadRows_Some _ _ _ Hrefs)).
  destruct (refs !! y) as [r|] eqn:Hr; [|done].
  rewrite Forall_lookup in Hfresh. specialize (Hfresh y r Hr).
  unfold Heap.bind, Heap.loadRow, Heap.bind, Heap.load.
  destruct (h !! r) as [[cells| | |]|]; try done.
  unfold Heap.ret, Heap.store. case_decide; [|done].
  intros [= <-] l Hl. apply list_lookup_insert_ne. lia.
Qed.

Lemma writeCell_total (h : list Heap.object) (l k : nat) (b : Board)
    (y x : nat) (s : sym) :
  boardAt h l b k → y < boardSize b →
  ∃ h'', Heap.writeCell l y x s h = Some (tt, h'').
Proof.
  intros (i & refs & Hi & Hrefs & Hrows & _) Hy. unfold Heap.writeCell.
  rewrite (bind_Some _ _ _ _ _ (loadInstance_Some _ _ _ Hi)).
  rewrite (bind_Some _ _ _ _ _ (loadRows_Some _ _ _ Hrefs)).
  destruct (lookup_lt_is_Some_2 (state b) y Hy) as [cells Hcells].
  destruct (Forall2_lookup_r _ _ _ _ _ Hrows Hcells) as (r & Hr & Hrow).
  rewrite Hr. rewrite (bind_Some _ _ _ _ _ (loadRow_Some _ _ _ Hrow)).
  unfold Heap.store. rewrite decide_True by (by eapply lookup_lt_Some).
  by eexists.
Qed.

Lemma independentCopy_intro (h0 ext : list Heap.object) (this : nat)
    (b : Board) (k c : nat) (cb : Board) :
  boardAt h0 this b k → boardAt (h0 ++ ext) c cb k →
  ownsFrom (length h0) (h0 ++ ext) c →
  independentCopy h0 (h0 ++ ext) this b k c cb.
Proof.
  intros Hb Hc Ho. split_and!; [done|done|].
  intros y x s Hy.
  destruct (writeCell_total _ _ _ _ y x s Hc Hy) as [h'' Hw].
  exists h''. split; [done|].
  apply (boardAt_agree h0); [done|]. intros l Hl.
  rewrite (writeCell_frame _ _ _ _ _ _ _ Ho Hw l Hl).
  by apply lookup_app_l.
Qed.

(** C9.  No query mutates the position it is called on: [getWinner]
    leaves the store as it is; [getScore] and [getNextBestBoardState]
    leave every existing object but the cache object as it was, so the
    board keeps its grid, symbol and turn; [getChildBoards] and [clone]
    only allocate.  The clone and every child own a copy of the grid
    (writing one of their cells leaves the original board as it was) and
    hold the very cache reference of the original; no cache object is
    created. *)
Theorem queries_do_not_mutate (h : list Heap.object) (this k : nat)
    (b : Board) (m : gmap string num) :
  boardAt h this b k → cacheAt h k m →
  Heap.getWinner this h = Some (getWinner b, h)
  ∧ (∃ h', Heap.getScore this h = Some ((getScore b m).1, h') ∧
           boardAt h' this b k ∧ preserves k h h' ∧
           cacheAt h' k (getScore b m).2)
  ∧ (∃ r h', Heap.getNextBestBoardState this h = Some (r, h') ∧
             boardAt h' this b k ∧ preserves k h h' ∧
             cacheAt h' k (getNextBestBoardState b m).2)
  ∧ (∃ kids h', Heap.getChildBoards this h = Some (kids, h') ∧
                boardAt h' this b k ∧ cacheAt h' k m ∧
                (∀ l, l < length h → h' !! l = h !! l) ∧
                noNewCache h h' ∧
                Forall2 (independentCopy h h' this b k)
                  kids (getChildBoards b))
  ∧ (∃ c h', Heap.clone this h = Some (c, h') ∧
             boardAt h' this b k ∧ cacheAt h' k m ∧
             (∀ l, l < length h → h' !! l = h !! l) ∧
             noNewCache h h' ∧
             independentCopy h h' this b k c b).
Proof.
  intros Hb Hm. split_and!.
  - by eapply heap_getWinner.
  - destruct (refines_getScore k this b h m Hb Hm) as (h' & Hrun & Hm' & Hp).
    exists h'. split_and!; [done| |done|done].
    by eapply boardAt_preserved.
  - destruct (heap_getNextBestBoardState k this b h m Hb Hm)
      as (r & h' & Hrun & _ & Hm' & Hp).
    exists r, h'. split_and!; [done| |done|done].
    by eapply boardAt_preserved.
  - pose proof (layout_boardAt h (getChildBoards b) k) as Hlay.
    pose proof (layout_noCache (length h) (getChildBoards b) k) as Hno.
    eexists _, _. split; [by eapply heap_getChildBoards|].
    split_and!.
    + by apply boardAt_app.
    + by apply cacheAt_app.
    + intros l Hl. by apply lookup_app_l.
    + by apply noNewCache_app.
    + eapply Forall2_impl; [exact Hlay|]. intros kid c [Hc Ho].
      by apply independentCopy_intro.
  - destruct (boardAt_boardObjects h b k) as [Hc Ho].
    eexists _, _. split; [by eapply heap_clone|].
    split_and!.
    + by apply boardAt_app.
    + by apply cacheAt_app.
    + intros l Hl. by apply lookup_app_l.
    + apply noNewCache_app. unfold boardObjects. apply Forall_app. split.
      * apply Forall_fmap, Forall_true. done.
      * repeat constructor; done.
    + by apply independentCopy_intro.
Qed.

Lemma scenarioStore_board :
  boardAt scenarioStore 5 scenarioBoard 4 ∧ cacheAt scenarioStore 4 ∅.
Proof.
  split; [|done].
  eexists _, _. split; [reflexivity|]. simpl.
  split; [reflexivity|].
  split_and!; try done. repeat constructor.
Qed.

Lemma queries_do_not_mutate_witness :
  boardAt scenarioStore 5 scenarioBoard 4 ∧ cacheAt scenarioStore 4 ∅ ∧
  Heap.getWinner 5 scenarioStore = Some (L, scenarioStore) ∧
  (∃ c h', Heap.clone 5 scenarioStore = Some (c, h') ∧
           boardAt h' 5 scenarioBoard 4 ∧ cacheAt h' 4 ∅ ∧
           (∀ l, l < length scenarioStore → h' !! l = scenarioStore !! l) ∧
           noNewCache scenarioStore h' ∧
           independentCopy scenarioStore h' 5 scenarioBoard 4 c scenarioBoard).
Proof.
  destruct scenarioStore_board as [Hb Hm].
  split; [exact Hb|]. split; [exact Hm|].
  pose proof (queries_do_not_mutate scenarioStore 5 4 scenarioBoard ∅ Hb Hm)
    as (Hw & _ & _ & _ & Hclone).
  exact (conj Hw Hclone).
Defined.

(** The two models agree on the scenario: run on objects, the selected
    move is an instance of [scenarioMove]. *)
Lemma scenarioStore_best_move :
  ∃ l h', Heap.getNextBestBoardState 5 scenarioStore = Some (Some l, h') ∧
          Heap.readBoard l h' = Some (scenarioMove, h') ∧
          Heap.readBoard 5 h' = Some (scenarioBoard, h').
Proof. eexists _, _. by vm_compute. Qed.

(** In a game with a sound cache two calls in a row return the same
    score, also when the second call has to compute it again. *)
Lemma getScore_twice_same (root b : Board) (c : gmap string num) :
  mark (compSymbol root) → reachable root b → cacheSound root c →
  (getScore b (getScore b c).2).1 = (getScore b c).1.
Proof.
  intros Hm Hb Hc.
  destruct (getScore_sound root b c Hm Hb Hc) as [-> Hc1].
  by destruct (getScore_sound root b _ Hm Hb Hc1) as [-> _].
Qed.

(** * Further properties of [board.js] *)

(** ** Lines *)

Lemma getLineWinner_undefined (ln : line) :
  getLineWinner ln = None ↔ Forall (λ sq, sq = None) ln.
Proof.
  unfold getLineWinner.
  destruct (existsb _ ln) eqn:Hex.
  - apply existsb_elem_of in Hex as (a & Ha & Hd).
    apply bool_decide_eq_true in Hd. subst a. split; [done|].
    intros Hall. rewrite Forall_forall in Hall. by apply Hall in Ha.
  - destruct (forallb _ ln) eqn:Hall.
    + apply forallb_Forall_true in Hall. split.
      * intros H0. eapply Forall_impl; [exact Hall|]. simpl.
        intros a Ha. apply bool_decide_eq_true in Ha. congruence.
      * intros Hnone. destruct ln as [|sq ln]; [done|].
        by apply Forall_cons in Hnone as [-> _].
    + split; [done|]. intros Hnone.
      apply not_true_iff_false in Hall. exfalso. apply Hall.
      apply forallb_Forall_true.
      assert (line0 ln = None) as ->.
      { destruct ln as [|sq ln]; [done|].
        by apply Forall_cons in Hnone as [-> _]. }
      eapply Forall_impl; [exact Hnone|]. simpl.
      intros a ->. by apply bool_decide_eq_true.
Qed.

(** X1.  [getLineWinner] returns ["E"] exactly for a line with an empty
    cell, ["X"] (["O"]) exactly for a line that has a cell and holds
    ["X"] (["O"]) in every cell, and [undefined] exactly for a line all
    of whose entries are [undefined], the empty line among them. *)
Theorem getLineWinner_classified (ln : line) :
  (getLineWinner ln = Some E ↔ hasEmpty ln) ∧
  (getLineWinner ln = Some X ↔ allMark X ln) ∧
  (getLineWinner ln = Some O ↔ allMark O ln) ∧
  (getLineWinner ln = None ↔ Forall (λ sq, sq = None) ln).
Proof.
  split_and!.
  - apply getLineWinner_E.
  - apply getLineWinner_mark. by left.
  - apply getLineWinner_mark. by right.
  - apply getLineWinner_undefined.
Qed.

(** X2.  On an [N×N] grid [getRows], [getCols] and [getDiags] together
    give [2N+2] lines of [N] cells each, none of them [undefined]; row
    [y] holds the cells [(y, 0..N-1)], column [x] the cells
    [(0..N-1, x)], the diagonals the cells [(i, i)] and [(i, N-1-i)]. *)
Theorem lines_geometry (b : Board) :
  square (state b) →
  length (getRows b) = boardSize b ∧
  length (getCols b) = boardSize b ∧
  length (getDiags b) = 2 ∧
  Forall (λ ln : line, length ln = boardSize b ∧ Forall is_Some ln)
    (lines b) ∧
  (∀ y x, y < boardSize b → x < boardSize b →
          getRows b !! y ≫= (.!! x) = Some (cell (state b) y x) ∧
          getCols b !! x ≫= (.!! y) = Some (cell (state b) y x)) ∧
  (∀ i, i < boardSize b →
        getDiags b !! 0 ≫= (.!! i) = Some (cell (state b) i i) ∧
        getDiags b !! 1 ≫= (.!! i)
        = Some (cell (state b) i (boardSize b - i - 1))).
Proof.
  intros Hsq.
  assert (Hdef : ∀ y x, y < boardSize b → x < boardSize b →
                        is_Some (cell (state b) y x)).
  { intros y x Hy Hx. unfold cell.
    destruct (lookup_lt_is_Some_2 (state b) y Hy) as [row Hrow].
    rewrite Hrow. simpl. apply lookup_lt_is_Some_2.
    unfold square in Hsq. rewrite Forall_lookup in Hsq.
    by rewrite (Hsq _ _ Hrow). }
  pose proof (lines_square b Hsq) as Hlines.
  unfold lines, boardLines in Hlines.
  apply app_inj_1 in Hlines as [Hrows Hrest].
  2:{ unfold getRows. by rewrite !length_fmap, length_seq. }
  apply app_inj_1 in Hrest as [Hcols Hdiags].
  2:{ unfold getCols. by rewrite !length_fmap. }
  split_and!.
  - unfold getRows. by rewrite length_fmap.
  - unfold getCols. by rewrite length_fmap, length_seq.
  - done.
  - unfold lines. rewrite Hrows, Hcols, Hdiags. fold (boardSize b).
    rewrite !Forall_app. split_and!.
    + apply Forall_fmap, Forall_seq. intros y Hy. simpl.
      rewrite length_fmap, length_seq. split; [done|].
      apply Forall_fmap, Forall_seq. intros x Hx. simpl.
      apply Hdef; lia.
    + apply Forall_fmap, Forall_seq. intros x Hx. simpl.
      rewrite length_fmap, length_seq. split; [done|].
      apply Forall_fmap, Forall_seq. intros y Hy. simpl.
      apply Hdef; lia.
    + repeat constructor; rewrite ?length_fmap, ?length_seq; try done;
        apply Forall_fmap, Forall_seq; intros i Hi; simpl; apply Hdef; lia.
  - intros y x Hy Hx. rewrite Hrows, Hcols. fold (boardSize b).
    rewrite !list_lookup_fmap, !lookup_seq_lt by done. simpl.
    by rewrite !list_lookup_fmap, !lookup_seq_lt by done.
  - intros i Hi. rewrite Hdiags. fold (boardSize b). simpl.
    by rewrite !list_lookup_fmap, !lookup_seq_lt by done.
Qed.

Lemma lines_geometry_witness :
  square (state scenarioBoard) ∧
  length (lines scenarioBoard) = 8 ∧
  Forall (λ ln : line, length ln = 3 ∧ Forall is_Some ln)
    (lines scenarioBoard).
Proof.
  assert (Hsq : square (state scenarioBoard)) by (repeat constructor).
  split; [exact Hsq|].
  destruct (lines_geometry scenarioBoard Hsq) as (_ & _ & _ & Hall & _).
  split; [reflexivity | exact Hall].
Defined.

(** ** Verdicts and empty cells *)

Lemma line_entry_cell (b : Board) (ln : line) (s : sym) :
  ln ∈ lines b → Some s ∈ ln → ∃ row, row ∈ state b ∧ s ∈ row.
Proof.
  unfold lines, getRows, getCols, getDiags.
  rewrite !elem_of_app, !list_elem_of_fmap.
  intros [(row & -> & Hrow)|[(x & -> & _)|Hd]] Hs.
  - apply list_elem_of_fmap in Hs as (s' & [= <-] & Hs). eauto.
  - apply list_elem_of_fmap in Hs as (row & Hs & Hrow).
    exists row. split; [done|]. symmetry in Hs.
    by eapply list_elem_of_lookup_2.
  - apply elem_of_cons in Hd as [->|Hd].
    + apply list_elem_of_lookup in Hs as (i & Hs).
      rewrite list_lookup_imap in Hs.
      destruct (state b !! i) as [row|] eqn:Hrow; [|done].
      simpl in Hs. injection Hs as Hs. exists row.
      split; by eapply list_elem_of_lookup_2.
    + apply list_elem_of_singleton in Hd as ->.
      apply list_elem_of_lookup in Hs as (i & Hs).
      rewrite list_lookup_imap in Hs.
      destruct (state b !! i) as [row|] eqn:Hrow; [|done].
      simpl in Hs. injection Hs as Hs. exists row.
      split; by eapply list_elem_of_lookup_2.
Qed.

Lemma elem_of_concat {A} (x : A) (ls : list (list A)) :
  x ∈ concat ls ↔ ∃ l, x ∈ l ∧ l ∈ ls.
Proof.
  rewrite list_elem_of_In, in_concat. split.
  - intros (l & Hl & Hx). exists l. by rewrite !list_elem_of_In.
  - intros (l & Hx & Hl). exists l. by rewrite <- !list_elem_of_In.
Qed.

Lemma countE_pos (g : list (list sym)) (row : list sym) :
  row ∈ g → E ∈ row → 0 < countE g.
Proof.
  intros Hrow HE. unfold countE.
  assert (E ∈ filter (λ s, s = E) (concat g)) as Hin.
  { apply list_elem_of_filter. split; [done|].
    apply elem_of_concat. eauto. }
  destruct (filter _ (concat g)); [by apply elem_of_nil in Hin|simpl; lia].
Qed.

Lemma countE_zero_full (g : list (list sym)) (y x : nat) :
  countE g = 0 → cell g y x ≠ Some E.
Proof.
  intros H0 Hc. unfold cell in Hc.
  destruct (g !! y) as [row|] eqn:Hrow; [|done]. simpl in Hc.
  enough (0 < countE g) by lia.
  apply (countE_pos g row); by eapply list_elem_of_lookup_2.
Qed.

(** X3.  For any grid, square or not: [getWinner] returns ["D"] only
    when no cell at all is empty, and ["L"] only when some cell is
    empty; a grid without empty cell is never ongoing. *)
Theorem getWinner_empty_cells (b : Board) :
  (getWinner b = D → countE (state b) = 0) ∧
  (getWinner b = L → 0 < countE (state b)).
Proof.
  split.
  - intros HD. apply (getWinner_lines b) in HD as [_ Hfull].
    destruct (countE (state b)) as [|n] eqn:Hn; [done|]. exfalso.
    unfold countE in Hn.
    destruct (filter (λ s, s = E) (concat (state b))) as [|s l] eqn:Hf;
      [done|].
    assert (s ∈ filter (λ s, s = E) (concat (state b))) as Hs
      by (rewrite Hf; left).
    apply list_elem_of_filter in Hs as [-> Hs].
    apply elem_of_concat in Hs as (row & HE & Hrow).
    rewrite Forall_forall in Hfull. apply (Hfull (Some <$> row)).
    + unfold lines, getRows. apply elem_of_app. left.
      apply list_elem_of_fmap. eauto.
    + unfold hasEmpty. apply list_elem_of_fmap. eauto.
  - intros HL. apply (getWinner_lines b) in HL as [_ Hex].
    apply Exists_exists in Hex as (ln & Hin & HE).
    destruct (line_entry_cell b ln E Hin HE) as (row & Hrow & HErow).
    by eapply countE_pos.
Qed.

Lemma getWinner_empty_cells_witness :
  getWinner drawnBoard = D ∧ countE (state drawnBoard) = 0 ∧
  getWinner scenarioBoard = L ∧ 0 < countE (state scenarioBoard).
Proof.
  assert (HD : getWinner drawnBoard = D) by reflexivity.
  assert (HL : getWinner scenarioBoard = L) by reflexivity.
  split_and!; [exact HD| |exact HL|].
  - exact (proj1 (getWinner_empty_cells drawnBoard) HD).
  - exact (proj2 (getWinner_empty_cells scenarioBoard) HL).
Defined.

(** ** Scores of won positions *)

(** X4.  On a position the computer has won, [forceGetScore] returns
    [100] minus the number of cells still empty and leaves the cache
    alone: of two won positions the one with fewer empty cells, the
    later win, has the higher score. *)
Theorem forceGetScore_computerWin (b : Board) (c : gmap string num) :
  square (state b) → getWinner b = compSymbol b →
  forceGetScore b c = (Fin (100 - Z.of_nat (countE (state b))), c).
Proof.
  intros Hsq Hw. unfold forceGetScore, forceGetScoreWith.
  rewrite decide_True by done. by rewrite getChildBoards_length.
Qed.

Lemma forceGetScore_computerWin_witness :
  square (state scenarioMove) ∧
  getWinner scenarioMove = compSymbol scenarioMove ∧
  forceGetScore scenarioMove ∅ = (Fin 96, ∅).
Proof.
  assert (Hsq : square (state scenarioMove)) by (repeat constructor).
  assert (Hw : getWinner scenarioMove = compSymbol scenarioMove)
    by reflexivity.
  split; [exact Hsq|]. split; [exact Hw|].
  exact (forceGetScore_computerWin scenarioMove ∅ Hsq Hw).
Defined.

(** X5.  [getNextBestBoardState] does not always take a win that is
    there: on a board where the move (2,1) wins at once and the move
    (1,0) forces a win one round later, it returns the move (1,0), whose
    score [99] beats the [97] of the immediate win. *)
Theorem immediate_win_declined :
  ∃ b win chosen,
    square (state b) ∧ mark (compSymbol b) ∧ isCompTurn b = true ∧
    getWinner b = L ∧
    win ∈ getChildBoards b ∧ getWinner win = compSymbol b ∧
    (getNextBestBoardState b ∅).1 = Some chosen ∧
    getWinner chosen = L ∧
    minimax win = Fin 97 ∧ minimax chosen = Fin 99.
Proof.
  exists doubleThreatBoard,
    (mkBoard [[O; X; O]; [E; X; E]; [O; X; E]] X false),
    (mkBoard [[O; X; O]; [X; X; E]; [O; E; E]] X false).
  split_and!; try by vm_compute.
  - repeat constructor.
  - by left.
  - apply list_elem_of_lookup. by exists 2.
Qed.

(** ** The cache key *)

(** X6.  On grids of one shape (as many rows, and rows as long) the
    string [this.state.join(";")] determines the grid: two boards with
    the same key have the same grid. *)
Theorem stringState_injective (b b' : Board) :
  length <$> state b = length <$> state b' →
  stringState b = stringState b' → state b = state b'.
Proof. apply stringState_inj. Qed.

Lemma stringState_injective_witness :
  length <$> state scenarioBoard = length <$> state scenarioBoard ∧
  stringState scenarioBoard = "X,E,E;E,X,E;O,O,E" ∧
  state scenarioBoard = state scenarioBoard.
Proof.
  split; [reflexivity|]. split; [reflexivity|].
  exact (stringState_injective scenarioBoard scenarioBoard eq_refl eq_refl).
Defined.

(** Without the shape the key is ambiguous: no rows and one empty row
    have the same key. *)
Lemma stringState_collision :
  stringState (mkBoard [] X true) = stringState (mkBoard [[]] X true).
Proof. reflexivity. Qed.

Lemma getScoreN_stored (n : nat) (b : Board) (c : gmap string num) :
  (getScoreN n b c).2 !! stringState b = Some (getScoreN n b c).1.
Proof.
  destruct n; simpl;
    (destruct (cacheHit c (stringState b)) as [v|] eqn:Hhit;
     [by apply cacheHit_Some in Hhit as [? _]|]);
    destruct (forceGetScoreWith _ b c) as [v c']; simpl;
    apply lookup_insert_eq.
Qed.

(** X7.  After [getScore] the cache holds the returned score under the
    key of the position. *)
Theorem getScore_stored (b : Board) (c : gmap string num) :
  (getScore b c).2 !! stringState b = Some (getScore b c).1.
Proof. apply getScoreN_stored. Qed.

Lemma getScoreN_hit (n : nat) (b : Board) (c : gmap string num) (v : num) :
  c !! stringState b = Some v → v ≠ Fin 0 → getScoreN n b c = (v, c).
Proof.
  intros Hv Hnz.
  assert (cacheHit c (stringState b) = Some v) as Hhit
    by (by apply cacheHit_Some).
  destruct n; simpl; by rewrite Hhit.
Qed.

(** X8.  The key holds neither the turn nor the computer's symbol: once
    a non-zero score is cached for a board, [getScore] on any board with
    the same grid returns that score without computing, whoever is to
    move there. *)
Theorem getScore_same_grid (b b' : Board) (c : gmap string num) :
  state b' = state b → (getScore b c).1 ≠ Fin 0 →
  getScore b' (getScore b c).2 = ((getScore b c).1, (getScore b c).2).
Proof.
  intros Hst Hnz. unfold getScore at 1. apply getScoreN_hit; [|done].
  unfold stringState. rewrite Hst. apply getScoreN_stored.
Qed.

Lemma getScore_same_grid_witness :
  let b' := mkBoard (state scenarioBoard) X false in
  state b' = state scenarioBoard ∧
  (getScore scenarioBoard ∅).1 ≠ Fin 0 ∧
  (getScore b' (getScore scenarioBoard ∅).2).1 = Fin 96 ∧
  (getScore b' ∅).1 = Fin (-96).
Proof.
  intros b'.
  assert (Hnz : (getScore scenarioBoard ∅).1 ≠ Fin 0) by (by vm_compute).
  split; [reflexivity|]. split; [exact Hnz|]. split; [|by vm_compute].
  rewrite (getScore_same_grid scenarioBoard b' ∅ eq_refl Hnz).
  by vm_compute.
Defined.

(** X9.  Within one game the key is enough: two positions below the
    same root that have the same key are the same position, turn
    included, because the turn follows from the number of empty cells. *)
Theorem game_key_determines_position (root q q' : Board) :
  mark (compSymbol root) → reachable root q → reachable root q' →
  stringState q = stringState q' → q = q'.
Proof. apply reachable_stringState_inj. Qed.

Lemma game_key_determines_position_witness :
  mark (compSymbol scenarioBoard) ∧
  reachable scenarioBoard scenarioMove ∧
  stringState scenarioMove = stringState scenarioMove ∧
  scenarioMove = scenarioMove.
Proof.
  assert (Hm : mark (compSymbol scenarioBoard)) by (by left).
  assert (Hr : reachable scenarioBoard scenarioMove).
  { apply rtc_once. apply list_elem_of_lookup. by exists 4. }
  split; [exact Hm|]. split; [exact Hr|]. split; [reflexivity|].
  exact (game_key_determines_position scenarioBoard scenarioMove
           scenarioMove Hm Hr Hr eq_refl).
Defined.

(** ** What [getScore] does to the cache *)

Lemma cacheGrows_refl (c : gmap string num) : cacheGrows c c.
Proof. intros k v Hk. split; [by eexists | done]. Qed.

Lemma cacheGrows_trans (c1 c2 c3 : gmap string num) :
  cacheGrows c1 c2 → cacheGrows c2 c3 → cacheGrows c1 c3.
Proof.
  intros H12 H23 k v Hk. destruct (H12 k v Hk) as [[w Hw] Hnz].
  destruct (H23 k w Hw) as [Hs Hnz']. split; [done|].
  intros Hv. specialize (Hnz Hv). rewrite Hw in Hnz.
  injection Hnz as ->. by apply Hnz'.
Qed.

Lemma cacheGrows_insert (c c' : gmap string num) (k : string) (v : num) :
  cacheGrows c c' → cacheHit c k = None → cacheGrows c (<[k := v]> c').
Proof.
  intros Hg Hmiss k' w Hk'. rewrite lookup_insert.
  case_decide as Heq; [|by apply Hg].
  subst k'. split; [by eexists|]. intros Hw.
  assert (cacheHit c k = Some w) as Hhit by (by apply cacheHit_Some).
  congruence.
Qed.

Lemma getScoreN_grows (n : nat) (b : Board) (c : gmap string num) :
  cacheGrows c (getScoreN n b c).2.
Proof.
  revert b c. induction n as [|n IH]; intros b c; simpl;
    (destruct (cacheHit c (stringState b)) eqn:Hhit;
     [apply cacheGrows_refl|]).
  - assert (cacheGrows c (forceGetScoreWith (λ _ c0, (Fin 0, c0)) b c).2)
      as Hg.
    { unfold forceGetScoreWith.
      repeat case_decide; try apply cacheGrows_refl.
      destruct (mapScores_inv (λ _ c0, (Fin 0, c0)) (cacheGrows c)
                  (λ _ _, True) (getChildBoards b) c (cacheGrows_refl c))
        as [_ Hg]; [done|].
      destruct (mapScores _ (getChildBoards b) c) as [vs c'].
      by destruct (isCompTurn b). }
    destruct (forceGetScoreWith _ b c) as [v c']. simpl in *.
    by apply cacheGrows_insert.
  - assert (cacheGrows c (forceGetScoreWith (getScoreN n) b c).2) as Hg.
    { unfold forceGetScoreWith.
      repeat case_decide; try apply cacheGrows_refl.
      destruct (mapScores_inv (getScoreN n) (cacheGrows c)
                  (λ _ _, True) (getChildBoards b) c (cacheGrows_refl c))
        as [_ Hg].
      { intros q s _ Hs. split; [done|].
        eapply cacheGrows_trans; [exact Hs | apply IH]. }
      destruct (mapScores _ (getChildBoards b) c) as [vs c'].
      by destruct (isCompTurn b). }
    destruct (forceGetScoreWith _ b c) as [v c']. simpl in *.
    by apply cacheGrows_insert.
Qed.

(** X10.  [getScore] never drops a key of the cache and never changes an
    entry that holds a non-zero score; only an entry that holds [0] can
    be written again. *)
Theorem getScore_cache_grows (b : Board) (c : gmap string num) :
  cacheGrows c (getScore b c).2.
Proof. apply getScoreN_grows. Qed.

Lemma below_child (b q : Board) (k : string) :
  child b q → below q k → below b k.
Proof.
  intros Hq (q' & Hr & Hk). exists q'. split; [|done].
  by eapply rtc_l.
Qed.

Lemma getScoreN_frame (n : nat) (b : Board) (c : gmap string num)
    (k : string) :
  ¬ below b k → (getScoreN n b c).2 !! k = c !! k.
Proof.
  revert b c. induction n as [|n IH]; intros b c Hk; simpl;
    (destruct (cacheHit c (stringState b)) eqn:Hhit; [done|]).
  - assert ((forceGetScoreWith (λ _ c0, (Fin 0, c0)) b c).2 !! k = c !! k)
      as Hf.
    { unfold forceGetScoreWith. repeat case_decide; try done.
      destruct (mapScores_inv (λ _ c0, (Fin 0, c0))
                  (λ s, s !! k = c !! k) (λ _ _, True)
                  (getChildBoards b) c eq_refl) as [_ Hf]; [done|].
      destruct (mapScores _ (getChildBoards b) c) as [vs c'].
      by destruct (isCompTurn b). }
    destruct (forceGetScoreWith _ b c) as [v c']. simpl in *.
    rewrite lookup_insert_ne; [done|]. intros <-. apply Hk.
    exists b. split; [apply rtc_refl | done].
  - assert ((forceGetScoreWith (getScoreN n) b c).2 !! k = c !! k) as Hf.
    { unfold forceGetScoreWith. repeat case_decide; try done.
      destruct (mapScores_inv (getScoreN n)
                  (λ s, s !! k = c !! k) (λ _ _, True)
                  (getChildBoards b) c eq_refl) as [_ Hf].
      { intros q s Hq Hs. split; [done|]. rewrite IH; [done|].
        intros Hb. apply Hk. by eapply below_child. }
      destruct (mapScores _ (getChildBoards b) c) as [vs c'].
      by destruct (isCompTurn b). }
    destruct (forceGetScoreWith _ b c) as [v c']. simpl in *.
    rewrite lookup_insert_ne; [done|]. intros <-. apply Hk.
    exists b. split; [apply rtc_refl | done].
Qed.

(** X11.  [getScore] on a position writes only under keys of positions
    of the game below it: every other entry of the cache is afterwards
    what it was. *)
Theorem getScore_cache_frame (b : Board) (c : gmap string num)
    (k : string) :
  ¬ below b k → (getScore b c).2 !! k = c !! k.
Proof. apply getScoreN_frame. Qed.

Lemma below_shape (b : Board) (k : string) :
  below b k → String.length k = String.length (stringState b).
Proof.
  intros (q & Hr & <-). apply concat_sameLength.
  apply Forall2_fmap.
  assert (Forall2 (λ r r' : list sym, length r = length r')
            (state q) (state b)) as Hrows.
  { apply Forall2_fmap, list_eq_Forall2. by apply reachable_shape. }
  eapply Forall2_impl; [exact Hrows|]. intros r r'.
  apply rowString_sameLength.
Qed.

Lemma getScore_cache_frame_witness :
  ¬ below scenarioBoard "other" ∧
  (getScore scenarioBoard {["other" := Fin 7]}).2 !! "other" = Some (Fin 7).
Proof.
  assert (Hk : ¬ below scenarioBoard "other").
  { intros Hb. apply below_shape in Hb. vm_compute in Hb. discriminate. }
  split; [exact Hk|].
  rewrite (getScore_cache_frame scenarioBoard _ "other" Hk).
  apply lookup_singleton_eq.
Defined.

(** ** Minimax scores *)

Lemma Math_min_elem (l : list num) : l ≠ [] → Math_min l ∈ l.
Proof.
  induction l as [|a l IH]; intros Hne; [done|]. simpl.
  destruct l as [|a' l]; [rewrite num_min_PosInf; left|].
  unfold num_min at 1. destruct (num_leb a _); [left|].
  right. by apply IH.
Qed.

Lemma num_leb_refl (a : num) : num_leb a a = true.
Proof. destruct a; simpl; [done| |done]. apply Z.leb_refl. Qed.

Lemma num_leb_trans (a b c : num) :
  num_leb a b = true → num_leb b c = true → num_leb a c = true.
Proof.
  destruct a, b, c; simpl; try done.
  rewrite !Z.leb_le. lia.
Qed.

Lemma num_leb_total (a b : num) : num_leb a b = false → num_leb b a = true.
Proof.
  destruct a, b; simpl; try done. rewrite Z.leb_gt, Z.leb_le. lia.
Qed.

Lemma Math_min_le (l : list num) (x : num) :
  x ∈ l → num_leb (Math_min l) x = true.
Proof.
  induction l as [|a l IH]; intros Hx; [by apply elem_of_nil in Hx|].
  simpl. unfold num_min. destruct (num_leb a (Math_min l)) eqn:Hle.
  - apply elem_of_cons in Hx as [->|Hx]; [apply num_leb_refl|].
    eapply num_leb_trans; [exact Hle | by apply IH].
  - apply elem_of_cons in Hx as [->|Hx]; [by apply num_leb_total | by apply IH].
Qed.

Lemma Math_max_ge (l : list num) (x : num) :
  x ∈ l → num_leb x (Math_max l) = true.
Proof.
  induction l as [|a l IH]; intros Hx; [by apply elem_of_nil in Hx|].
  simpl. unfold num_max. destruct (num_leb a (Math_max l)) eqn:Hle.
  - apply elem_of_cons in Hx as [->|Hx]; [done | by apply IH].
  - apply elem_of_cons in Hx as [->|Hx]; [apply num_leb_refl|].
    eapply num_leb_trans; [by apply IH | by apply num_leb_total].
Qed.

Lemma scoreOf_mono (e e' : nat) (z : Z) : e ≤ e' → scoreOf e z → scoreOf e' z.
Proof. unfold scoreOf. lia. Qed.

(** The range of the minimax score. *)
Lemma minimax_scoreOf (b : Board) :
  square (state b) → mark (compSymbol b) →
  ∃ z, minimax b = Fin z ∧ scoreOf (countE (state b)) z.
Proof.
  remember (countE (state b)) as e eqn:He.
  revert b He. induction e as [e IH] using lt_wf_ind.
  intros b He Hsq Hm. rewrite minimax_unfold by done.
  pose proof (getChildBoards_length b Hsq) as Hlen.
  repeat case_decide.
  - eexists. split; [done|]. left. lia.
  - eexists. split; [done|]. right. right. lia.
  - eexists. split; [done|]. right. left.
    rewrite getWinner_D_children by done. done.
  - assert (getWinner b = L) as HL by (by apply getWinner_live).
    pose proof (getWinner_L_children b Hsq HL) as Hne.
    assert (Hkid : ∀ v, v ∈ minimax <$> getChildBoards b →
                        ∃ z, v = Fin z ∧ scoreOf e z).
    { intros v (q & -> & Hq)%list_elem_of_fmap.
      pose proof (child_countE b q Hm Hq) as Hc.
      destruct (IH (countE (state q))) with q as (z & Hz & Hs);
        [lia|done|by eapply child_square
        |by rewrite (child_compSymbol b q)|].
      exists z. split; [done|]. eapply scoreOf_mono; [|exact Hs]. lia. }
    assert (minimax <$> getChildBoards b ≠ []) as Hne'.
    { intros Hnil. by apply fmap_nil_inv in Hnil. }
    destruct (isCompTurn b).
    + apply Hkid. by apply Math_max_elem.
    + apply Hkid. by apply Math_min_elem.
Qed.

(** X12.  The minimax score of a well-formed position with [e] empty
    cells is an integer that is [0], or at most [e] below [100], or at
    most [e] above [-100]. *)
Theorem minimax_range (b : Board) :
  square (state b) → mark (compSymbol b) →
  ∃ z, minimax b = Fin z ∧ scoreOf (countE (state b)) z.
Proof. exact (minimax_scoreOf b). Qed.

Lemma minimax_range_witness :
  square (state scenarioBoard) ∧ mark (compSymbol scenarioBoard) ∧
  ∃ z, minimax scenarioBoard = Fin z ∧
       scoreOf (countE (state scenarioBoard)) z.
Proof.
  assert (Hsq : square (state scenarioBoard)) by (repeat constructor).
  assert (Hm : mark (compSymbol scenarioBoard)) by (by left).
  split; [exact Hsq|]. split; [exact Hm|].
  exact (minimax_range scenarioBoard Hsq Hm).
Defined.

(** X13.  In a game with a sound cache, any run of [getScore] calls on
    positions of the game, one after the other on the shared cache,
    returns the minimax score of each position and ends with a sound
    cache; this holds from the empty cache in particular. *)
Theorem getScore_sequence (root : Board) (bs : list Board)
    (c : gmap string num) :
  mark (compSymbol root) → Forall (reachable root) bs →
  cacheSound root c →
  (mapScores getScore bs c).1 = minimax <$> bs ∧
  cacheSound root (mapScores getScore bs c).2.
Proof.
  intros Hm Hbs Hc.
  destruct (mapScores_inv getScore (cacheSound root) (λ q v, v = minimax q)
              bs c Hc) as [Hall Hc'].
  { intros q s Hq Hs. rewrite Forall_forall in Hbs.
    apply getScore_sound; [done|by apply Hbs|done]. }
  split; [by apply Forall2_eq_fmap | done].
Qed.

Lemma getScore_sequence_witness :
  mark (compSymbol scenarioBoard) ∧
  Forall (reachable scenarioBoard) [scenarioMove; scenarioBoard; scenarioMove] ∧
  cacheSound scenarioBoard ∅ ∧
  (mapScores getScore [scenarioMove; scenarioBoard; scenarioMove] ∅).1
  = minimax <$> [scenarioMove; scenarioBoard; scenarioMove].
Proof.
  assert (Hm : mark (compSymbol scenarioBoard)) by (by left).
  assert (Hr : reachable scenarioBoard scenarioMove).
  { apply rtc_once. apply list_elem_of_lookup. by exists 4. }
  assert (Hbs : Forall (reachable scenarioBoard)
                  [scenarioMove; scenarioBoard; scenarioMove]).
  { repeat constructor; try done. }
  split; [exact Hm|]. split; [exact Hbs|].
  split; [apply cacheSound_empty|].
  exact (proj1 (getScore_sequence scenarioBoard _ ∅ Hm Hbs
                  (cacheSound_empty scenarioBoard))).
Defined.

(** X14.  Along a game the computer's symbol and the shape of the grid
    stay as they are, squares stay square, every move removes exactly
    one empty cell, and the turn is the root's turn flipped once per
    move made. *)
Theorem game_invariants (root q : Board) :
  mark (compSymbol root) → reachable root q →
  compSymbol q = compSymbol root ∧
  length <$> state q = length <$> state root ∧
  (square (state root) → square (state q)) ∧
  countE (state q) ≤ countE (state root) ∧
  isCompTurn q =
  Nat.iter (countE (state root) - countE (state q)) negb (isCompTurn root) ∧
  (∀ q', child q q' → S (countE (state q')) = countE (state q)).
Proof.
  intros Hm Hr.
  destruct (reachable_turn root q Hm Hr) as [Hle Hturn].
  split_and!; [by apply reachable_compSymbol|by apply reachable_shape
              |by apply reachable_square|done|done|].
  intros q' Hq'. apply child_countE; [|done].
  by rewrite (reachable_compSymbol root q).
Qed.

Lemma game_invariants_witness :
  mark (compSymbol scenarioBoard) ∧ reachable scenarioBoard scenarioMove ∧
  compSymbol scenarioMove = compSymbol scenarioBoard ∧
  isCompTurn scenarioMove = negb (isCompTurn scenarioBoard).
Proof.
  assert (Hm : mark (compSymbol scenarioBoard)) by (by left).
  assert (Hr : reachable scenarioBoard scenarioMove).
  { apply rtc_once. apply list_elem_of_lookup. by exists 4. }
  split; [exact Hm|]. split; [exact Hr|].
  destruct (game_invariants scenarioBoard scenarioMove Hm Hr)
    as (Hc & _ & _ & _ & Ht & _).
  split; [exact Hc | exact Ht].
Defined.

(** * Further properties of [board.js]: calls in a row, objects *)

(** ** Calls in a row *)

(** X15.  A score other than [0] is served from the cache: a second
    call right after the first returns the same score without a visit
    to [forceGetScore], and leaves the cache as it is. *)
Theorem getScore_hit_nonzero (b : Board) (s : gmap string num * nat) :
  (getScoreCount b s).1 ≠ Fin 0 →
  getScoreCount b (getScoreCount b s).2
  = ((getScoreCount b s).1, (getScoreCount b s).2).
Proof. exact (getScore_twice_nonzero b s). Qed.

Lemma getScore_hit_nonzero_witness :
  (getScoreCount scenarioBoard (∅, 0)).1 ≠ Fin 0 ∧
  getScoreCount scenarioBoard (getScoreCount scenarioBoard (∅, 0)).2
  = ((getScoreCount scenarioBoard (∅, 0)).1,
     (getScoreCount scenarioBoard (∅, 0)).2).
Proof.
  assert (Hnz : (getScoreCount scenarioBoard (∅, 0)).1 ≠ Fin 0).
  { intros Hz. vm_compute in Hz. discriminate Hz. }
  split; [exact Hnz|]. exact (getScore_hit_nonzero scenarioBoard (∅, 0) Hnz).
Defined.

(** X16.  In a game with a sound cache two calls of [getScore] in a row
    return the same score, also when the second call has to compute it
    again because the score is [0]. *)
Theorem getScore_repeatable (root b : Board) (c : gmap string num) :
  mark (compSymbol root) → reachable root b → cacheSound root c →
  (getScore b (getScore b c).2).1 = (getScore b c).1.
Proof. exact (getScore_twice_same root b c). Qed.

Lemma getScore_repeatable_witness :
  mark (compSymbol drawnBoard) ∧ reachable drawnBoard drawnBoard ∧
  cacheSound drawnBoard ∅ ∧
  (getScore drawnBoard (getScore drawnBoard ∅).2).1
  = (getScore drawnBoard ∅).1.
Proof.
  assert (Hm : mark (compSymbol drawnBoard)) by (by left).
  assert (Hb : reachable drawnBoard drawnBoard) by apply rtc_refl.
  split_and!; [exact Hm|exact Hb|apply cacheSound_empty|].
  exact (getScore_repeatable drawnBoard drawnBoard ∅ Hm Hb
           (cacheSound_empty _)).
Defined.

(** ** The constructor *)

Lemma mapM_allocRow (g : list (list sym)) (h : list Heap.object) :
  Heap.mapM (λ cells, Heap.alloc (Heap.Row cells)) g h
  = Some (seq (length h) (length g), h ++ (Heap.Row <$> g)).
Proof.
  revert h. induction g as [|cells g IH]; intros h; simpl.
  - by rewrite app_nil_r.
  - unfold Heap.bind at 1. unfold Heap.alloc at 1.
    unfold Heap.bind at 1. rewrite IH. unfold Heap.ret.
    rewrite length_app. simpl.
    replace (length h + 1) with (S (length h)) by lia.
    by rewrite <- app_assoc.
Qed.

(** X17.  [new Board(grid, compSymbol, isCompTurn, {...})] on array and
    object literals never fails and touches no object that exists.  It
    returns a new instance whose value is the board built, with
    [boardSize] the number of rows and [humanSymbol] the other mark,
    whose arrays are all new, and whose cache is a new object with the
    entries given. *)
Theorem construct_board (b : Board) (m : gmap string num)
    (h : list Heap.object) :
  ∃ l k h',
    construct b m h = Some (l, h') ∧
    boardAt h' l b k ∧ cacheAt h' k m ∧
    ownsFrom (length h) h' l ∧ length h ≤ k ∧
    (∀ j, j < length h → h' !! j = h !! j) ∧
    ∃ i, h' !! l = Some (Heap.Instance i) ∧
         Heap.i_boardSize i = boardSize b ∧
         Heap.i_humanSymbol i = humanSymbol b.
Proof.
  set (n := length h). set (g := state b).
  set (refs := seq n (length g)).
  set (i := {| Heap.i_state := n + length g;
               Heap.i_compSymbol := compSymbol b;
               Heap.i_isCompTurn := isCompTurn b;
               Heap.i_cache := n + length g + 1;
               Heap.i_boardSize := length refs;
               Heap.i_humanSymbol := humanSymbol b |}).
  set (h' := h ++ (Heap.Row <$> g)
               ++ [Heap.Rows refs; Heap.Cache m; Heap.Instance i]).
  assert (Hrows : h' !! (n + length g) = Some (Heap.Rows refs)).
  { unfold h'. rewrite lookup_app_r by (unfold n; lia).
    rewrite lookup_app_r by (rewrite length_fmap; unfold n; lia).
    rewrite length_fmap.
    by replace (n + length g - length h - length g) with 0
      by (unfold n; lia). }
  assert (Hcache : h' !! (n + length g + 1) = Some (Heap.Cache m)).
  { unfold h'. rewrite lookup_app_r by (unfold n; lia).
    rewrite lookup_app_r by (rewrite length_fmap; unfold n; lia).
    rewrite length_fmap.
    by replace (n + length g + 1 - length h - length g) with 1
      by (unfold n; lia). }
  assert (Hinst : h' !! (n + length g + 2) = Some (Heap.Instance i)).
  { unfold h'. rewrite lookup_app_r by (unfold n; lia).
    rewrite lookup_app_r by (rewrite length_fmap; unfold n; lia).
    rewrite length_fmap.
    by replace (n + length g + 2 - length h - length g) with 2
      by (unfold n; lia). }
  assert (Hrun : construct b m h = Some (n + length g + 2, h')).
  { unfold construct. unfold Heap.bind at 1. fold g.
    rewrite mapM_allocRow. fold n refs.
    unfold Heap.bind at 1, Heap.alloc at 1.
    unfold Heap.bind at 1, Heap.alloc at 1.
    unfold Heap.newBoard, Heap.loadRows, Heap.load, Heap.bind, Heap.ret,
      Heap.alloc.
    rewrite !length_app, length_fmap. simpl. fold n.
    assert (((h ++ (Heap.Row <$> g)) ++ [Heap.Rows refs]) ++ [Heap.Cache m]
            = h ++ (Heap.Row <$> g) ++ [Heap.Rows refs; Heap.Cache m])
      as -> by (by rewrite <- !app_assoc).
    rewrite lookup_app_r by (unfold n; lia).
    rewrite lookup_app_r by (rewrite length_fmap; unfold n; lia).
    rewrite length_fmap.
    replace (n + length g - length h - length g) with 0 by (unfold n; lia).
    change ([Heap.Rows refs; Heap.Cache m] !! 0)
      with (Some (Heap.Rows refs)).
    cbv beta iota. f_equal. f_equal.
    - rewrite !length_app, length_fmap. simpl. unfold n. lia.
    - unfold h'. by rewrite <- !app_assoc. }
  exists (n + length g + 2), (n + length g + 1), h'.
  split; [exact Hrun|]. split_and!.
  - exists i, refs. split_and!; try done.
    apply Forall2_same_length_lookup_2.
    { unfold refs. by rewrite length_seq. }
    intros j r cells Hr Hcells. unfold refs in Hr.
    apply lookup_seq in Hr as [-> Hj].
    unfold h'. rewrite lookup_app_r by (unfold n; lia).
    rewrite lookup_app_l by (rewrite length_fmap; unfold n; lia).
    replace (n + j - length h) with j by (unfold n; lia).
    unfold g. by rewrite list_lookup_fmap, Hcells.
  - exact Hcache.
  - exists i, refs. split_and!; [done|done|lia|simpl; lia|].
    apply Forall_forall. intros r Hr. unfold refs in Hr.
    apply elem_of_seq in Hr. lia.
  - lia.
  - intros j Hj. unfold h'. by rewrite lookup_app_l.
  - exists i. split_and!; [done| |done].
    simpl. unfold refs, boardSize. by rewrite length_seq.
Qed.

(** ** The move on objects *)

(** X18.  [getNextBestBoardState] on objects returns [undefined] exactly
    when the function on values does, and otherwise a reference to an
    instance whose value is the selected child and whose cache is the
    shared cache object. *)
Theorem getNextBestBoardState_object (k this : nat) (b : Board)
    (h : list Heap.object) (m : gmap string num) :
  boardAt h this b k → cacheAt h k m →
  ∃ r h', Heap.getNextBestBoardState this h = Some (r, h') ∧
          sameMove h' k r (getNextBestBoardState b m).1 ∧
          cacheAt h' k (getNextBestBoardState b m).2 ∧ preserves k h h'.
Proof. exact (heap_getNextBestBoardState k this b h m). Qed.

Lemma getNextBestBoardState_object_witness :
  boardAt scenarioStore 5 scenarioBoard 4 ∧ cacheAt scenarioStore 4 ∅ ∧
  ∃ r h', Heap.getNextBestBoardState 5 scenarioStore = Some (r, h') ∧
          sameMove h' 4 r (getNextBestBoardState scenarioBoard ∅).1.
Proof.
  destruct scenarioStore_board as [Hb Hm].
  split; [exact Hb|]. split; [exact Hm|].
  destruct (getNextBestBoardState_object 4 5 scenarioBoard scenarioStore ∅
              Hb Hm) as (r & h' & Hrun & Hsame & _).
  exists r, h'. exact (conj Hrun Hsame).
Defined.

(** * The page *)

Local Set Warnings "-clear-no-such-hyp".

(** ** [render]: the cells of the table *)

Lemma lookup2_write {A} (g : list (list A)) (a e : A) (y x y' x' : nat) :
  g !! y ≫= (.!! x) = Some e →
  alter (λ row, <[x := a]> row) y g !! y' ≫= (.!! x') =
  if decide ((y', x') = (y, x)) then Some a else g !! y' ≫= (.!! x').
Proof.
  intros Hc.
  destruct (g !! y) as [row|] eqn:Hrow; [|done]. simpl in Hc.
  destruct (decide (y = y')) as [<-|Hy].
  - rewrite list_lookup_alter_eq, Hrow. simpl.
    destruct (decide (x = x')) as [<-|Hx].
    + rewrite decide_True by done.
      apply list_lookup_insert_eq. by eapply lookup_lt_Some.
    + rewrite decide_False by congruence.
      by apply list_lookup_insert_ne.
  - rewrite list_lookup_alter_ne by done.
    by rewrite decide_False by congruence.
Qed.

Lemma shape_write_any {A} (g : list (list A)) (a : A) (y x : nat) :
  length <$> alter (λ row, <[x := a]> row) y g = length <$> g.
Proof.
  apply list_eq. intros i. rewrite !list_lookup_fmap.
  destruct (decide (y = i)) as [<-|Hy].
  - rewrite list_lookup_alter_eq. destruct (g !! y); [|done].
    simpl. by rewrite length_insert.
  - by rewrite list_lookup_alter_ne.
Qed.

Lemma elem_of_renderOrder (n y x : nat) :
  (y, x) ∈ renderOrder n ↔ y < n ∧ x < n.
Proof.
  unfold renderOrder. rewrite list_elem_of_bind. split.
  - intros (x' & Hin & Hx'%elem_of_seq).
    apply list_elem_of_bind in Hin as (y' & Hin & Hy'%elem_of_seq).
    apply list_elem_of_singleton in Hin as [= -> ->]. lia.
  - intros [Hy Hx]. exists x. split; [|apply elem_of_seq; lia].
    apply list_elem_of_bind. exists y. split; [left|apply elem_of_seq; lia].
Qed.

Lemma NoDup_renderOrder (n : nat) : NoDup (renderOrder n).
Proof.
  unfold renderOrder. apply NoDup_bind; [| |apply NoDup_seq].
  - intros x1 x2 p _ _ Hp1 Hp2.
    apply list_elem_of_bind in Hp1 as (y1 & Hp1 & _).
    apply list_elem_of_bind in Hp2 as (y2 & Hp2 & _).
    apply list_elem_of_singleton in Hp1. apply list_elem_of_singleton in Hp2.
    congruence.
  - intros x _. apply NoDup_bind; [| |apply NoDup_seq].
    + intros y1 y2 p _ _ Hp1 Hp2.
      apply list_elem_of_singleton in Hp1.
      apply list_elem_of_singleton in Hp2. congruence.
    + intros y _. apply NoDup_singleton.
Qed.

(** Every listed cell that exists is rendered once, from what it was;
    the others stay. *)
Lemma renderCells_Some (b : Board) (w : sym) (ps : list (nat * nat))
    (tds : list (list element)) :
  NoDup ps → Forall (λ p, is_Some (td tds p.1 p.2)) ps →
  ∃ tds', renderCells b w ps tds = Some tds' ∧
          length <$> tds' = length <$> tds ∧
          ∀ y x, td tds' y x =
                 if decide ((y, x) ∈ ps)
                 then renderCell b w y x <$> td tds y x
                 else td tds y x.
Proof.
  intros Hnd. revert tds.
  induction Hnd as [|[y0 x0] ps Hnotin Hnd IH]; intros tds Hall.
  - exists tds. split_and!; [done|done|]. intros y x.
    rewrite decide_False; [done|]. apply not_elem_of_nil.
  - apply Forall_cons in Hall as [[e He] Hall]. simpl in He.
    cbn [renderCells fst snd]. rewrite He.
    set (tds1 := alter (λ row, <[x0 := renderCell b w y0 x0 e]> row) y0 tds).
    assert (Hlk : ∀ y x, td tds1 y x =
                         if decide ((y, x) = (y0, x0))
                         then Some (renderCell b w y0 x0 e) else td tds y x).
    { intros y x. unfold td, tds1. by eapply lookup2_write. }
    destruct (IH tds1) as (tds' & Hrun & Hshape & Hcells).
    { eapply Forall_impl; [exact Hall|]. simpl. intros [y x] Hs. simpl in *.
      rewrite Hlk. by case_decide. }
    exists tds'. split_and!; [done| |].
    + rewrite Hshape. apply shape_write_any.
    + intros y x. rewrite Hcells, Hlk.
      destruct (decide ((y, x) = (y0, x0))) as [[= -> ->]|Hne].
      * rewrite decide_False by done. rewrite decide_True by left.
        by rewrite He.
      * destruct (decide ((y, x) ∈ ps)) as [Hin|Hnin].
        -- by rewrite decide_True by (by right).
        -- rewrite decide_False; [done|].
           intros [?|?]%elem_of_cons; done.
Qed.

(** A listed cell that does not exist stops the loop. *)
Lemma renderCells_None (b : Board) (w : sym) (ps : list (nat * nat))
    (tds : list (list element)) :
  ¬ Forall (λ p, is_Some (td tds p.1 p.2)) ps → renderCells b w ps tds = None.
Proof.
  revert tds. induction ps as [|[y0 x0] ps IH]; intros tds Hno.
  - exfalso. apply Hno. constructor.
  - cbn [renderCells fst snd]. destruct (td tds y0 x0) as [e|] eqn:He; [|done].
    apply IH. intros Hall. apply Hno.
    constructor; [simpl; by rewrite He|].
    eapply Forall_impl; [exact Hall|]. simpl. intros [y x] Hs. simpl in *.
    unfold td in *. erewrite lookup2_write in Hs by exact He.
    case_decide as Heq; [|done]. injection Heq as -> ->. by rewrite He.
Qed.

Lemma tableCovers_Forall (h : HTMLBoard) :
  tableCovers h ↔
  Forall (λ p, is_Some (td (tdElements h) p.1 p.2))
    (renderOrder (boardSize (vBoard h))).
Proof.
  rewrite Forall_forall. split.
  - intros Hc [y x] [Hy Hx]%elem_of_renderOrder. by apply Hc.
  - intros Hall y x Hy Hx. apply (Hall (y, x)).
    by apply elem_of_renderOrder.
Qed.

Lemma resultStrings_winner (b : Board) :
  mark (compSymbol b) → is_Some (resultStrings b (getWinner b)).
Proof.
  intros Hm. unfold resultStrings.
  repeat case_decide; try by eexists.
  exfalso. unfold humanSymbol in *.
  destruct (getWinner_cases b) as [Hw|[Hw|[Hw|Hw]]], Hm as [Hc|Hc];
    rewrite ?Hw, ?Hc in *; simpl in *; congruence.
Qed.

Lemma resultStrings_predicted (b : Board) (score : num) :
  is_Some (resultStrings b (predictedResult b score)).
Proof.
  unfold resultStrings, predictedResult.
  repeat case_decide; try by eexists.
  destruct (num_ltb score _); [done|]. destruct (num_ltb _ score); done.
Qed.

(** What [render] does to the table. *)
Lemma render_Some (h : HTMLBoard) (c : gmap string num) :
  mark (compSymbol (vBoard h)) → tableCovers h →
  ∃ h', render h c = Some (h', (getScore (vBoard h) c).2) ∧
        vBoard h' = vBoard h ∧
        length <$> tdElements h' = length <$> tdElements h ∧
        ∀ y x,
          td (tdElements h') y x =
          if decide (y < boardSize (vBoard h) ∧ x < boardSize (vBoard h))
          then renderCell (vBoard h) (getWinner (vBoard h)) y x
                 <$> td (tdElements h) y x
          else td (tdElements h) y x.
Proof.
  intros Hm Hcov. apply tableCovers_Forall in Hcov.
  destruct (renderCells_Some (vBoard h) (getWinner (vBoard h)) _ _
              (NoDup_renderOrder _) Hcov) as (tds' & Hrun & Hshape & Hcells).
  destruct (resultStrings_winner (vBoard h) Hm) as [won Hwon].
  destruct (resultStrings_predicted (vBoard h) (getScore (vBoard h) c).1)
    as [pred Hpred].
  unfold render. rewrite Hrun. simpl.
  destruct (getScore (vBoard h) c) as [score c'] eqn:Hs. simpl in *.
  rewrite Hwon. simpl. rewrite Hpred. simpl.
  eexists. split; [done|]. simpl. split_and!; [done|done|].
  intros y x. rewrite Hcells.
  destruct (decide (y < boardSize (vBoard h) ∧ x < boardSize (vBoard h)))
    as [Hin|Hout].
  - by rewrite decide_True by (by apply elem_of_renderOrder).
  - by rewrite decide_False by (by rewrite elem_of_renderOrder).
Qed.

(** X19.  [render] works when the table has a cell for every coordinate
    of the board (and the computer's symbol is a mark): it keeps the
    board and the shape of the table, passes the cache through one
    [getScore], rewrites each cell of the board's range from what that
    cell was, and leaves every other cell of the table alone. *)
Theorem render_cells (h : HTMLBoard) (c : gmap string num) :
  mark (compSymbol (vBoard h)) → tableCovers h →
  ∃ h', render h c = Some (h', (getScore (vBoard h) c).2) ∧
        vBoard h' = vBoard h ∧
        length <$> tdElements h' = length <$> tdElements h ∧
        ∀ y x,
          td (tdElements h') y x =
          if decide (y < boardSize (vBoard h) ∧ x < boardSize (vBoard h))
          then renderCell (vBoard h) (getWinner (vBoard h)) y x
                 <$> td (tdElements h) y x
          else td (tdElements h) y x.
Proof. exact (render_Some h c). Qed.

Lemma openingPage_covers (who prediction : element) :
  tableCovers (openingPage who prediction).
Proof.
  intros y x Hy Hx. change (boardSize _) with 3 in Hy, Hx.
  destruct y as [|[|[|y]]]; [| | |lia];
    (destruct x as [|[|[|x]]]; [| | |lia]); by eexists.
Qed.

Lemma table3_covers (b : Board) (who prediction : element) :
  boardSize b = 3 →
  tableCovers (mkHTMLBoard b (replicate 3 (replicate 3 freshElement))
                 who prediction).
Proof.
  intros Hn y x Hy Hx. simpl in *. rewrite Hn in Hy, Hx.
  destruct y as [|[|[|y]]]; [| | |lia];
    (destruct x as [|[|[|x]]]; [| | |lia]); by eexists.
Qed.

Lemma scenarioPage_covers : tableCovers scenarioPage.
Proof. by apply table3_covers. Qed.

Lemma render_cells_witness :
  let h := openingPage freshElement freshElement in
  mark (compSymbol (vBoard h)) ∧ tableCovers h ∧
  ∃ h', render h ∅ = Some (h', (getScore (vBoard h) ∅).2) ∧
        vBoard h' = vBoard h ∧
        length <$> tdElements h' = length <$> tdElements h.
Proof.
  intros h.
  assert (Hm : mark (compSymbol (vBoard h))) by (by left).
  pose proof (openingPage_covers freshElement freshElement) as Hc.
  split; [exact Hm|]. split; [exact Hc|].
  destruct (render_cells h ∅ Hm Hc) as (h' & Hr & Hb & Hs & _).
  exists h'. exact (conj Hr (conj Hb Hs)).
Defined.

(** A missing cell makes [render] throw. *)
Lemma render_None (h : HTMLBoard) (c : gmap string num) :
  ¬ tableCovers h → render h c = None.
Proof.
  intros Hno. unfold render.
  rewrite renderCells_None; [done|]. by rewrite <- tableCovers_Forall.
Qed.

(** X20.  A cell of the table that is missing is a [TypeError]: when the
    table does not cover the board, [render] fails. *)
Theorem render_TypeError (h : HTMLBoard) (c : gmap string num) :
  ¬ tableCovers h → render h c = None.
Proof. exact (render_None h c). Qed.

Lemma render_TypeError_witness :
  let h := mkHTMLBoard openingBoard [] freshElement freshElement in
  ¬ tableCovers h ∧ render h ∅ = None.
Proof.
  intros h.
  assert (Hno : ¬ tableCovers h).
  { intros Hc. destruct (Hc 0 0) as [e He].
    - change (boardSize _) with 3. lia.
    - change (boardSize _) with 3. lia.
    - done. }
  split; [exact Hno|]. exact (render_TypeError h ∅ Hno).
Defined.

Lemma element_eq (e e' : element) :
  textContent e = textContent e' → classList e = classList e' → e = e'.
Proof. destruct e, e'. simpl. by intros -> ->. Qed.

Lemma elem_of_classList_add (cl a : string) (e : element) :
  cl ∈ classList (classList_add a e) ↔ cl = a ∨ cl ∈ classList e.
Proof. unfold classList_add. simpl. set_solver. Qed.

Lemma elem_of_classList_remove (cl : string) (cs : gset string)
    (e : element) :
  cl ∈ classList (classList_remove cs e) ↔ cl ∈ classList e ∧ cl ∉ cs.
Proof. unfold classList_remove. simpl. set_solver. Qed.

Lemma renderCell_text (b : Board) (w : sym) (y x : nat) (e : element) :
  textContent (renderCell b w y x e) =
  if decide (cell (state b) y x = Some E) then ""
  else tileText (cell (state b) y x).
Proof. unfold renderCell. repeat case_decide; done. Qed.

(** The classes of a rendered cell. *)
Lemma elem_of_renderCell (b : Board) (w : sym) (y x : nat) (e : element)
    (cl : string) :
  cl ∈ classList (renderCell b w y x e) ↔
  cl = "maybe" ∧ w = D ∨ cl = "bad" ∧ w = compSymbol b ∨
  cl = "good" ∧ w = humanSymbol b ∨
  cl = "legal" ∧ cell (state b) y x = Some E ∧ w = L ∨
  cl ≠ "legal" ∧ cl ∈ classList e.
Proof.
  unfold renderCell. cbv zeta.
  destruct (decide (cl = "legal")) as [->|Hcl];
    repeat case_decide;
    rewrite ?elem_of_classList_add, ?elem_of_classList_remove,
      ?elem_of_singleton, ?elem_of_classList_add,
      ?elem_of_classList_remove, ?elem_of_singleton;
    simpl; naive_solver.
Qed.

(** X21.  What a rendered cell shows, whatever it showed before: its
    text is empty for an empty cell and the mark otherwise; it has the
    class ["legal"] exactly when the cell is empty and the game is
    ongoing; it gets ["good"], ["bad"] or ["maybe"] with a human win, a
    computer win or a draw; and no class other than ["legal"] is ever
    taken away from it. *)
Theorem renderCell_shows (b : Board) (w : sym) (y x : nat) (e : element) :
  let e' := renderCell b w y x e in
  textContent e' =
    (if decide (cell (state b) y x = Some E) then ""
     else tileText (cell (state b) y x)) ∧
  ("legal" ∈ classList e' ↔ cell (state b) y x = Some E ∧ w = L) ∧
  ("good" ∈ classList e' ↔ "good" ∈ classList e ∨ w = humanSymbol b) ∧
  ("bad" ∈ classList e' ↔ "bad" ∈ classList e ∨ w = compSymbol b) ∧
  ("maybe" ∈ classList e' ↔ "maybe" ∈ classList e ∨ w = D) ∧
  (∀ cl, cl ≠ "legal" → cl ∈ classList e → cl ∈ classList e').
Proof.
  cbv zeta. rewrite renderCell_text, !elem_of_renderCell.
  split_and!; [done|naive_solver..|].
  intros cl Hcl Hin. rewrite elem_of_renderCell. naive_solver.
Qed.

(** ** [render]: the result and the prediction *)

Lemma render_Some_inv (h h' : HTMLBoard) (c c' : gmap string num) :
  render h c = Some (h', c') →
  ∃ tds won predicted,
    renderCells (vBoard h) (getWinner (vBoard h))
      (renderOrder (boardSize (vBoard h))) (tdElements h) = Some tds ∧
    resultStrings (vBoard h) (getWinner (vBoard h)) = Some won ∧
    resultStrings (vBoard h)
      (predictedResult (vBoard h) (getScore (vBoard h) c).1)
    = Some predicted ∧
    h' = mkHTMLBoard (vBoard h) tds (showResult won (whoHasWonEl h))
           (showResult predicted (predictionEl h)) ∧
    c' = (getScore (vBoard h) c).2.
Proof.
  unfold render. intros Hr.
  destruct (renderCells _ _ _ _) as [tds|]; [|done]. simpl in Hr.
  destruct (getScore (vBoard h) c) as [score c1]. simpl in *.
  destruct (resultStrings _ (getWinner _)) as [won|]; [|done]. simpl in Hr.
  destruct (resultStrings _ (predictedResult _ _)) as [pred|]; [|done].
  simpl in Hr. injection Hr as <- <-. by exists tds, won, pred.
Qed.

Lemma resultStrings_class (b : Board) (key : sym) (r : string * string) :
  resultStrings b key = Some r → r.1 ∈ statusClasses.
Proof.
  unfold resultStrings, statusClasses.
  repeat case_decide; intros [= <-]; simpl; set_solver.
Qed.

Lemma showResult_shows (r : string * string) (e : element) :
  r.1 ∈ statusClasses →
  textContent (showResult r e) = r.2 ∧
  (∀ cl, cl ∈ statusClasses → cl ∈ classList (showResult r e) ↔ cl = r.1) ∧
  (∀ cl, cl ∉ statusClasses →
         cl ∈ classList (showResult r e) ↔ cl ∈ classList e).
Proof.
  intros Hr. unfold showResult, classList_add, classList_remove,
    setTextContent. simpl. split_and!; [done|..]; set_solver.
Qed.

(** X22.  After [render] the result element carries the message of the
    verdict of [getWinner], and of the four classes ["bad"], ["good"],
    ["maybe"], ["exciting"] exactly the one of that verdict, whatever it
    carried before; its other classes are as they were.  The prediction
    element shows the same for the prediction made from [getScore]. *)
Theorem render_status (h h' : HTMLBoard) (c c' : gmap string num) :
  mark (compSymbol (vBoard h)) → render h c = Some (h', c') →
  let b := vBoard h in
  ∃ won predicted,
    resultStrings b (getWinner b) = Some won ∧
    resultStrings b (predictedResult b (getScore b c).1) = Some predicted ∧
    (getWinner b = L → won = ("exciting", "Game is ongoing")) ∧
    (getWinner b = D → won = ("maybe", "Draw!")) ∧
    (getWinner b = compSymbol b →
     won = ("bad", "Computer (" +:+ show (compSymbol b) +:+ ")")) ∧
    (getWinner b = humanSymbol b →
     won = ("good", "Human (" +:+ show (humanSymbol b) +:+ ")")) ∧
    textContent (whoHasWonEl h') = won.2 ∧
    textContent (predictionEl h') = predicted.2 ∧
    (∀ cl, cl ∈ statusClasses →
           (cl ∈ classList (whoHasWonEl h') ↔ cl = won.1) ∧
           (cl ∈ classList (predictionEl h') ↔ cl = predicted.1)) ∧
    (∀ cl, cl ∉ statusClasses →
           (cl ∈ classList (whoHasWonEl h') ↔ cl ∈ classList (whoHasWonEl h)) ∧
           (cl ∈ classList (predictionEl h')
            ↔ cl ∈ classList (predictionEl h))).
Proof.
  intros Hm Hr. cbv zeta.
  apply render_Some_inv in Hr
    as (tds & won & pred & _ & Hwon & Hpred & -> & _).
  cbn [whoHasWonEl predictionEl].
  set (b := vBoard h) in *. clearbody b.
  exists won, pred.
  destruct (showResult_shows won (whoHasWonEl h)
              (resultStrings_class _ _ _ Hwon)) as (Hw1 & Hw2 & Hw3).
  destruct (showResult_shows pred (predictionEl h)
              (resultStrings_class _ _ _ Hpred)) as (Hp1 & Hp2 & Hp3).
  pose proof (humanSymbol_mark b) as Hh.
  pose proof (humanSymbol_ne b) as Hne.
  split_and!; try done.
  - intros HL. unfold resultStrings in Hwon. rewrite HL in Hwon.
    rewrite decide_True in Hwon by done. congruence.
  - intros HD. unfold resultStrings in Hwon. rewrite HD in Hwon.
    rewrite decide_False, decide_True in Hwon by done. congruence.
  - intros Hc. unfold resultStrings in Hwon. rewrite Hc in Hwon.
    rewrite decide_False in Hwon by (destruct Hm; congruence).
    rewrite decide_False in Hwon by (destruct Hm; congruence).
    rewrite decide_False in Hwon by congruence.
    rewrite decide_True in Hwon by done. congruence.
  - intros Hc. unfold resultStrings in Hwon. rewrite Hc in Hwon.
    rewrite decide_False in Hwon by (destruct Hh; congruence).
    rewrite decide_False in Hwon by (destruct Hh; congruence).
    rewrite decide_True in Hwon by done. congruence.
  - intros cl Hcl. split; [by apply Hw2 | by apply Hp2].
  - intros cl Hcl. split; [by apply Hw3 | by apply Hp3].
Qed.

Lemma render_status_witness :
  mark (compSymbol (vBoard scenarioPage)) ∧
  ∃ h' c', render scenarioPage ∅ = Some (h', c') ∧
           textContent (whoHasWonEl h') = "Game is ongoing" ∧
           textContent (predictionEl h') = "Computer (X)".
Proof.
  assert (Hm : mark (compSymbol (vBoard scenarioPage))) by (by left).
  split; [exact Hm|].
  destruct (render_Some scenarioPage ∅ Hm scenarioPage_covers)
    as (h' & Hr & _).
  exists h', (getScore (vBoard scenarioPage) ∅).2. split; [exact Hr|].
  destruct (render_status _ _ _ _ Hm Hr)
    as (won & pred & _ & Hpred & HL & _ & _ & _ & -> & -> & _).
  split.
  - by rewrite (HL eq_refl).
  - vm_compute in Hpred. by injection Hpred as <-.
Defined.

(** X23.  On a well-formed position with fewer than 50 empty cells (the
    3×3 board has 9) in a game with a sound cache, the prediction of
    [render] is the sign of the minimax score: the computer when the
    score is positive, the human when it is negative, a draw when it is
    [0].  The thresholds [50] and [-50] never cut through a class of
    scores. *)
Theorem prediction_is_sign (root b : Board) (c : gmap string num) :
  square (state b) → mark (compSymbol root) → reachable root b →
  cacheSound root c → countE (state b) < 50 →
  ∃ z, (getScore b c).1 = Fin z ∧ minimax b = Fin z ∧
       predictedResult b (Fin z) =
       if decide (0 < z)%Z then compSymbol b
       else if decide (z < 0)%Z then humanSymbol b else D.
Proof.
  intros Hsq Hm Hb Hc He.
  assert (mark (compSymbol b)) as Hmb
    by (by rewrite (reachable_compSymbol root b)).
  destruct (minimax_scoreOf b Hsq Hmb) as (z & Hz & Hs).
  exists z. rewrite (proj1 (getScore_sound root b c Hm Hb Hc)).
  split_and!; [done|done|].
  unfold predictedResult, num_ltb, scoreOf in *. simpl.
  destruct Hs as [Hs|[->|Hs]].
  - rewrite (proj2 (Z.leb_le _ _)) by lia. simpl.
    rewrite (proj2 (Z.leb_gt _ _)) by lia. simpl.
    by rewrite decide_True by lia.
  - done.
  - rewrite (proj2 (Z.leb_gt _ _)) by lia. simpl.
    rewrite decide_False by lia. by rewrite decide_True by lia.
Qed.

Lemma prediction_is_sign_witness :
  square (state scenarioBoard) ∧ mark (compSymbol scenarioBoard) ∧
  reachable scenarioBoard scenarioBoard ∧ cacheSound scenarioBoard ∅ ∧
  countE (state scenarioBoard) < 50 ∧
  ∃ z, (getScore scenarioBoard ∅).1 = Fin z ∧
       minimax scenarioBoard = Fin z ∧
       predictedResult scenarioBoard (Fin z) =
       if decide (0 < z)%Z then compSymbol scenarioBoard
       else if decide (z < 0)%Z then humanSymbol scenarioBoard else D.
Proof.
  assert (Hsq : square (state scenarioBoard)) by (repeat constructor).
  assert (Hm : mark (compSymbol scenarioBoard)) by (by left).
  assert (Hb : reachable scenarioBoard scenarioBoard) by apply rtc_refl.
  assert (He : countE (state scenarioBoard) < 50) by (vm_compute; lia).
  split_and!; [exact Hsq|exact Hm|exact Hb|apply cacheSound_empty|exact He|].
  exact (prediction_is_sign scenarioBoard scenarioBoard ∅ Hsq Hm Hb
           (cacheSound_empty _) He).
Defined.

(** ** [render] twice *)

Lemma renderCell_idemp (b : Board) (w : sym) (y x : nat) (e : element) :
  renderCell b w y x (renderCell b w y x e) = renderCell b w y x e.
Proof.
  apply element_eq.
  - by rewrite !renderCell_text.
  - apply set_eq. intros cl. rewrite !elem_of_renderCell. naive_solver.
Qed.

Lemma showResult_idemp (r : string * string) (e : element) :
  showResult r (showResult r e) = showResult r e.
Proof.
  unfold showResult, classList_add, classList_remove, setTextContent.
  simpl. f_equal. set_solver.
Qed.

Lemma table_ext (g g' : list (list element)) :
  length <$> g = length <$> g' → (∀ y x, td g y x = td g' y x) → g = g'.
Proof.
  intros Hshape Htd. apply list_eq. intros y.
  assert (length <$> g !! y = length <$> g' !! y) as Hlen.
  { by rewrite <- !list_lookup_fmap, Hshape. }
  destruct (g !! y) as [row|] eqn:Hrow, (g' !! y) as [row'|] eqn:Hrow';
    try done.
  f_equal. apply list_eq. intros x. specialize (Htd y x).
  unfold td in Htd. by rewrite Hrow, Hrow' in Htd.
Qed.

(** X24.  In a game with a sound cache, rendering again changes nothing
    on the page: a second [render] right after the first leaves the
    table, the result element and the prediction element as the first
    left them. *)
Theorem render_twice (root : Board) (h h1 : HTMLBoard)
    (c c1 : gmap string num) :
  mark (compSymbol root) → reachable root (vBoard h) → cacheSound root c →
  render h c = Some (h1, c1) →
  ∃ c2, render h1 c1 = Some (h1, c2) ∧ cacheSound root c2.
Proof.
  intros Hm Hb Hc Hr.
  assert (mark (compSymbol (vBoard h))) as Hmb
    by (by rewrite (reachable_compSymbol root _)).
  destruct (decide (Forall (λ p, is_Some (td (tdElements h) p.1 p.2))
                      (renderOrder (boardSize (vBoard h))))) as [Hcov|Hno].
  2:{ rewrite <- tableCovers_Forall in Hno.
      by rewrite (render_None h c Hno) in Hr. }
  apply tableCovers_Forall in Hcov.
  destruct (render_Some h c Hmb Hcov) as (h1' & Hr' & Hv & Hshape & Hcells).
  rewrite Hr in Hr'. injection Hr' as <- ->.
  destruct (getScore_sound root (vBoard h) c Hm Hb Hc) as [Hs Hc1].
  assert (tableCovers h1) as Hcov1.
  { intros y x Hy Hx. rewrite Hv in Hy, Hx. rewrite Hcells.
    rewrite decide_True by done.
    destruct (Hcov y x Hy Hx) as [e ->]. by eexists. }
  assert (mark (compSymbol (vBoard h1))) as Hmb1 by (by rewrite Hv).
  destruct (render_Some h1 (getScore (vBoard h) c).2 Hmb1 Hcov1)
    as (h2 & Hr2 & Hv2 & Hshape2 & Hcells2).
  exists (getScore (vBoard h1) (getScore (vBoard h) c).2).2.
  split.
  2:{ rewrite Hv. by apply getScore_sound. }
  rewrite Hr2. f_equal. f_equal.
  pose proof Hr as Hi. apply render_Some_inv in Hi
    as (tds & won & pred & _ & Hwon & Hpred & Hh1 & _).
  pose proof Hr2 as Hi2. apply render_Some_inv in Hi2
    as (tds2 & won2 & pred2 & _ & Hwon2 & Hpred2 & Hh2 & _).
  rewrite Hv in Hwon2, Hpred2.
  rewrite (proj1 (getScore_sound root (vBoard h) _ Hm Hb Hc1)) in Hpred2.
  rewrite Hs in Hpred.
  assert (won2 = won) as -> by congruence.
  assert (pred2 = pred) as -> by congruence.
  assert (tdElements h2 = tdElements h1) as Htds.
  { apply table_ext; [done|]. intros y x. rewrite Hcells2, Hv.
    case_decide as Hin; [|done]. rewrite Hcells, decide_True by done.
    destruct (td (tdElements h) y x) as [e|]; [|done]. simpl.
    by rewrite renderCell_idemp. }
  rewrite Hh2 in Htds |- *. simpl in Htds. rewrite Htds.
  rewrite Hh1. simpl. by rewrite !showResult_idemp.
Qed.

Lemma render_twice_witness :
  mark (compSymbol scenarioBoard) ∧
  reachable scenarioBoard (vBoard scenarioPage) ∧
  cacheSound scenarioBoard ∅ ∧
  ∃ h1 c1 c2, render scenarioPage ∅ = Some (h1, c1) ∧
              render h1 c1 = Some (h1, c2).
Proof.
  assert (Hm : mark (compSymbol scenarioBoard)) by (by left).
  assert (Hb : reachable scenarioBoard (vBoard scenarioPage))
    by apply rtc_refl.
  split_and!; [exact Hm|exact Hb|apply cacheSound_empty|].
  destruct (render_Some scenarioPage ∅ Hm scenarioPage_covers)
    as (h1 & Hr & _).
  destruct (render_twice scenarioBoard scenarioPage h1 ∅ _ Hm Hb
              (cacheSound_empty _) Hr) as (c2 & Hr2 & _).
  exists h1, (getScore (vBoard scenarioPage) ∅).2, c2.
  exact (conj Hr Hr2).
Defined.

(** ** Clicks *)

(** The clicks that [onClick] ignores. *)
Lemma onClick_skip (h : HTMLBoard) (x y : nat) (c : gmap string num) :
  (state (vBoard h) !! y = None → onClick h x y c = None) ∧
  (is_Some (state (vBoard h) !! y) →
   cell (state (vBoard h)) y x ≠ Some E ∨ isCompTurn (vBoard h) = true ∨
   getWinner (vBoard h) ≠ L →
   onClick h x y c = Some (h, c)).
Proof.
  unfold onClick, cell. split.
  - by intros ->.
  - intros [row ->] Hcase. simpl in *.
    destruct Hcase as [Hc|[Ht|Hw]].
    + by rewrite bool_decide_eq_false_2.
    + rewrite Ht. simpl. by rewrite andb_false_r.
    + destruct (_ && _); [|done]. by rewrite decide_False.
Qed.

(** X25.  [onClick] does nothing at all, to the board, the page or the
    cache, when the cell is not empty, when it is the computer's turn,
    or when the game is over; and a click on a row that the board does
    not have is a [TypeError]. *)
Theorem onClick_ignored (h : HTMLBoard) (x y : nat) (c : gmap string num) :
  (state (vBoard h) !! y = None → onClick h x y c = None) ∧
  (is_Some (state (vBoard h) !! y) →
   cell (state (vBoard h)) y x ≠ Some E ∨ isCompTurn (vBoard h) = true ∨
   getWinner (vBoard h) ≠ L →
   onClick h x y c = Some (h, c)).
Proof. exact (onClick_skip h x y c). Qed.

Lemma onClick_ignored_witness :
  let h := mkHTMLBoard scenarioBoard [] freshElement freshElement in
  is_Some (state (vBoard h) !! 0) ∧
  cell (state (vBoard h)) 0 0 ≠ Some E ∧
  onClick h 0 0 ∅ = Some (h, ∅) ∧
  state (vBoard h) !! 7 = None ∧ onClick h 0 7 ∅ = None.
Proof.
  intros h.
  assert (Hrow : is_Some (state (vBoard h) !! 0)) by (by eexists).
  assert (Hc : cell (state (vBoard h)) 0 0 ≠ Some E) by done.
  assert (Hno : state (vBoard h) !! 7 = None) by reflexivity.
  split_and!; [exact Hrow|exact Hc| |exact Hno|].
  - exact (proj2 (onClick_ignored h 0 0 ∅) Hrow (or_introl Hc)).
  - exact (proj1 (onClick_ignored h 0 7 ∅) Hno).
Defined.

(** On an ongoing position with the computer to move and a sound cache
    there is a best move: a child whose minimax score is the score of
    the position. *)
Lemma bestMove_sound (root b : Board) (c : gmap string num) :
  square (state b) → mark (compSymbol root) → reachable root b →
  cacheSound root c → isCompTurn b = true → getWinner b = L →
  ∃ ch, (getNextBestBoardState b c).1 = Some ch ∧ child b ch ∧
        minimax ch = minimax b ∧
        cacheSound root (getNextBestBoardState b c).2.
Proof.
  intros Hsq Hm Hb Hc Ht HL.
  assert (mark (compSymbol b)) as Hmb
    by (by rewrite (reachable_compSymbol root b)).
  unfold getNextBestBoardState. rewrite Ht. simpl.
  rewrite decide_True by done.
  assert (Forall (reachable root) (getChildBoards b)) as Hch.
  { apply Forall_forall. intros q Hq. by eapply rtc_r. }
  destruct (findBest_sound root b (getChildBoards b) c Hm Hb Hch Hc)
    as [Hc' [(before & ch & after & Hsplit & Hsome & Heq & _)|[_ Hall]]].
  - exists ch. split_and!; [done| |done|done].
    unfold child. rewrite Hsplit. apply elem_of_app. right. left.
  - exfalso. pose proof (getWinner_L_children b Hsq HL) as Hne.
    pose proof (minimax_live b Hmb HL) as Hmax. rewrite Ht in Hmax.
    assert (minimax b ∈ minimax <$> getChildBoards b) as Hin.
    { rewrite Hmax. apply Math_max_elem.
      intros Hnil. by apply fmap_nil_inv in Hnil. }
    apply list_elem_of_fmap in Hin as (q & Hq & Hin).
    rewrite Forall_forall in Hall. by apply (Hall q).
Qed.

Lemma render_ok (root : Board) (h : HTMLBoard) (c : gmap string num) :
  mark (compSymbol root) → reachable root (vBoard h) →
  cacheSound root c → tableCovers h →
  ∃ h' c', render h c = Some (h', c') ∧ vBoard h' = vBoard h ∧
           cacheSound root c' ∧ tableCovers h'.
Proof.
  intros Hm Hb Hc Hcov.
  assert (mark (compSymbol (vBoard h))) as Hmb
    by (by rewrite (reachable_compSymbol root _)).
  destruct (render_Some h c Hmb Hcov) as (h' & Hr & Hv & _ & Hcells).
  exists h', (getScore (vBoard h) c).2.
  split_and!; [done|done|by apply getScore_sound|].
  intros y x Hy Hx. rewrite Hv in Hy, Hx. rewrite Hcells.
  rewrite decide_True by done.
  destruct (Hcov y x Hy Hx) as [e ->]. by eexists.
Qed.

Lemma tableCovers_withBoard (h : HTMLBoard) (b : Board) :
  boardSize b = boardSize (vBoard h) → tableCovers h →
  tableCovers (withBoard h b).
Proof. intros Hn Hcov y x. simpl. rewrite Hn. apply Hcov. Qed.

Lemma child_boardSize (b q : Board) : child b q → boardSize q = boardSize b.
Proof.
  intros Hq. apply child_shape in Hq. unfold boardSize.
  by rewrite <- (length_fmap length (state q)), Hq, length_fmap.
Qed.

Lemma humanMove_child (b : Board) (y x : nat) :
  square (state b) → isCompTurn b = false →
  cell (state b) y x = Some E →
  mkBoard (alter (λ row, <[x := humanSymbol b]> row) y (state (clone b)))
          (compSymbol b) true
  = childAt b (playerSymbol b) y x ∧
  child b (childAt b (playerSymbol b) y x).
Proof.
  intros Hsq Ht Hc. split.
  - unfold childAt, playerSymbol. rewrite Ht. done.
  - destruct (cell_Some_lt _ _ _ _ Hsq Hc) as [Hy Hx].
    apply elem_of_getChildBoards. by exists y, x.
Qed.

(** What a click on an empty cell of an ongoing game does. *)
Lemma onClick_move_sound (root : Board) (h : HTMLBoard) (x y : nat)
    (c : gmap string num) :
  mark (compSymbol root) → pageOk root h c →
  isCompTurn (vBoard h) = false → getWinner (vBoard h) = L →
  cell (state (vBoard h)) y x = Some E →
  let q := childAt (vBoard h) (humanSymbol (vBoard h)) y x in
  ∃ h' c',
    onClick h x y c = Some (h', c') ∧ pageOk root h' c' ∧
    child (vBoard h) q ∧
    (getWinner q ≠ L ∧ vBoard h' = q ∨
     getWinner q = L ∧ child q (vBoard h') ∧
     isCompTurn (vBoard h') = false ∧ minimax (vBoard h') = minimax q) ∧
    num_leb (minimax (vBoard h)) (minimax (vBoard h')) = true.
Proof.
  intros Hm (Hsq & Hb & Hc & Hcov & _) Ht HL Hcell. cbv zeta.
  set (b := vBoard h) in *.
  assert (mark (compSymbol b)) as Hmb
    by (by rewrite (reachable_compSymbol root b)).
  destruct (humanMove_child b y x Hsq Ht Hcell) as [Hnew Hq].
  assert (playerSymbol b = humanSymbol b) as Hps
    by (unfold playerSymbol; by rewrite Ht).
  rewrite Hps in Hnew, Hq.
  set (q := childAt b (humanSymbol b) y x) in *.
  assert (reachable root q) as Hrq by (by eapply rtc_r).
  assert (square (state q)) as Hsqq by (by eapply child_square).
  assert (isCompTurn q = true) as Htq
    by (rewrite (child_isCompTurn b q Hq), Ht; done).
  assert (num_leb (minimax b) (minimax q) = true) as Hle.
  { rewrite (minimax_live b Hmb HL), Ht. apply Math_min_le.
    apply list_elem_of_fmap. by exists q. }
  destruct (render_ok root (withBoard h q) c Hm Hrq Hc)
    as (h1 & c1 & Hr1 & Hv1 & Hc1 & Hcov1).
  { apply tableCovers_withBoard; [by apply child_boardSize | done]. }
  simpl in Hv1.
  assert (Hrun : ∀ r : unit, onClick h x y c
                 = '(h1, c1) ← render (withBoard h q) c;
                   (let '(b2, c2) := replyOrStay (vBoard h1) c1 in
                    render (withBoard h1 b2) c2)).
  { intros _. unfold onClick. fold b. unfold cell in Hcell.
    destruct (state b !! y) as [row|]; [|done]. simpl in *.
    rewrite bool_decide_eq_true_2 by done. rewrite Ht. simpl.
    rewrite decide_True by done. by rewrite Hnew. }
  rewrite (Hrun tt), Hr1. simpl. rewrite Hv1. unfold replyOrStay.
  destruct (decide (getWinner q = L)) as [HLq|HLq].
  - destruct (bestMove_sound root q c1 Hsqq Hm Hrq Hc1 Htq HLq)
      as (ch & Hsome & Hch & Heq & Hc2).
    destruct (getNextBestBoardState q c1) as [r c2].
    cbn [fst snd] in Hsome, Hc2. subst r. cbn [default fst snd].
    assert (reachable root ch) as Hrch by (by eapply rtc_r).
    destruct (render_ok root (withBoard h1 ch) c2 Hm Hrch Hc2)
      as (h2 & c3 & Hr2 & Hv2 & Hc3 & Hcov2).
    { apply tableCovers_withBoard; [|done].
      rewrite Hv1. by apply child_boardSize. }
    simpl in Hv2. exists h2, c3.
    assert (isCompTurn ch = false) as Htch
      by (rewrite (child_isCompTurn q ch Hch), Htq; done).
    unfold pageOk. rewrite Hv2.
    refine (conj Hr2 (conj _ (conj Hq (conj _ _)))).
    + refine (conj _ (conj Hrch (conj Hc3 (conj Hcov2 (or_introl Htch))))).
      by eapply child_square.
    + right. done.
    + by rewrite Heq.
  - assert (getNextBestBoardState q c1 = (None, c1)) as ->.
    { unfold getNextBestBoardState. rewrite Htq. simpl.
      by rewrite decide_False. }
    simpl.
    destruct (render_ok root (withBoard h1 q) c1 Hm Hrq Hc1)
      as (h2 & c3 & Hr2 & Hv2 & Hc3 & Hcov2).
    { apply tableCovers_withBoard; [by rewrite Hv1 | done]. }
    simpl in Hv2. exists h2, c3. unfold pageOk. rewrite Hv2.
    refine (conj Hr2 (conj _ (conj Hq (conj _ Hle)))).
    + exact (conj Hsqq (conj Hrq (conj Hc3 (conj Hcov2 (or_intror HLq))))).
    + by left.
Qed.

(** X26.  A click of the human on an empty cell of an ongoing game is
    answered at once: [onClick] ends with the human's move on the board
    when that move ends the game, and otherwise with the computer's
    reply to it, a position with the human to move again whose minimax
    score is the score of the human's move.  The new board is a position
    of the same game, the cache stays sound, and the minimax score of
    the board has not gone down. *)
Theorem onClick_move (root : Board) (h : HTMLBoard) (x y : nat)
    (c : gmap string num) :
  mark (compSymbol root) → pageOk root h c →
  isCompTurn (vBoard h) = false → getWinner (vBoard h) = L →
  cell (state (vBoard h)) y x = Some E →
  let q := childAt (vBoard h) (humanSymbol (vBoard h)) y x in
  ∃ h' c',
    onClick h x y c = Some (h', c') ∧ pageOk root h' c' ∧
    child (vBoard h) q ∧
    (getWinner q ≠ L ∧ vBoard h' = q ∨
     getWinner q = L ∧ child q (vBoard h') ∧
     isCompTurn (vBoard h') = false ∧ minimax (vBoard h') = minimax q) ∧
    num_leb (minimax (vBoard h)) (minimax (vBoard h')) = true.
Proof. exact (onClick_move_sound root h x y c). Qed.

Lemma onClick_move_witness :
  let b := mkBoard (state scenarioBoard) X false in
  let h := mkHTMLBoard b (replicate 3 (replicate 3 freshElement))
             freshElement freshElement in
  mark (compSymbol b) ∧ pageOk b h ∅ ∧ isCompTurn (vBoard h) = false ∧
  getWinner (vBoard h) = L ∧ cell (state (vBoard h)) 2 2 = Some E ∧
  ∃ h' c', onClick h 2 2 ∅ = Some (h', c') ∧ pageOk b h' c' ∧
           num_leb (minimax (vBoard h)) (minimax (vBoard h')) = true.
Proof.
  intros b h.
  assert (Hm : mark (compSymbol b)) by (by left).
  assert (Hok : pageOk b h ∅).
  { split_and!; [repeat constructor|apply rtc_refl|apply cacheSound_empty
                |by apply table3_covers|by left]. }
  assert (Ht : isCompTurn (vBoard h) = false) by reflexivity.
  assert (HL : getWinner (vBoard h) = L) by reflexivity.
  assert (Hc : cell (state (vBoard h)) 2 2 = Some E) by reflexivity.
  split_and!; [exact Hm|exact Hok|exact Ht|exact HL|exact Hc|].
  destruct (onClick_move b h 2 2 ∅ Hm Hok Ht HL Hc)
    as (h' & c' & Hrun & Hok' & _ & _ & Hle).
  exists h', c'. exact (conj Hrun (conj Hok' Hle)).
Defined.

Lemma pageOk_boardSize (root : Board) (h : HTMLBoard) (c : gmap string num) :
  pageOk root h c → boardSize (vBoard h) = boardSize root.
Proof.
  intros (_ & Hb & _). apply reachable_shape in Hb. unfold boardSize.
  by rewrite <- (length_fmap length (state (vBoard h))), Hb, length_fmap.
Qed.

Lemma onClick_step (root : Board) (h : HTMLBoard) (x y : nat)
    (c : gmap string num) :
  mark (compSymbol root) → pageOk root h c → y < boardSize (vBoard h) →
  ∃ h' c', onClick h x y c = Some (h', c') ∧ pageOk root h' c' ∧
           num_leb (minimax (vBoard h)) (minimax (vBoard h')) = true.
Proof.
  intros Hm Hok Hy.
  assert (is_Some (state (vBoard h) !! y)) as Hrow
    by (by apply lookup_lt_is_Some_2).
  destruct (decide (cell (state (vBoard h)) y x = Some E)) as [Hc|Hc].
  2:{ exists h, c. split_and!; [|done|apply num_leb_refl].
      apply onClick_skip; [done|by left]. }
  destruct (isCompTurn (vBoard h)) eqn:Ht.
  { exists h, c. split_and!; [|done|apply num_leb_refl].
    apply onClick_skip; [done|right; by left]. }
  destruct (decide (getWinner (vBoard h) = L)) as [HL|HL].
  2:{ exists h, c. split_and!; [|done|apply num_leb_refl].
      apply onClick_skip; [done|right; by right]. }
  destruct (onClick_move_sound root h x y c Hm Hok Ht HL Hc)
    as (h' & c' & Hrun & Hok' & _ & _ & Hle).
  by exists h', c'.
Qed.

(** The page invariant along a run of clicks. *)
Lemma clicks_sound (root : Board) (ps : list (nat * nat))
    (h : HTMLBoard) (c : gmap string num) :
  mark (compSymbol root) → pageOk root h c →
  Forall (λ p, p.2 < boardSize root) ps →
  ∃ h' c', clicks ps h c = Some (h', c') ∧ pageOk root h' c' ∧
           num_leb (minimax (vBoard h)) (minimax (vBoard h')) = true.
Proof.
  intros Hm Hok Hps. revert h c Hok.
  induction Hps as [|[x y] ps Hy _ IH]; intros h c Hok.
  - exists h, c. split_and!; [done|done|apply num_leb_refl].
  - simpl in Hy. rewrite <- (pageOk_boardSize root h c Hok) in Hy.
    destruct (onClick_step root h x y c Hm Hok Hy)
      as (h1 & c1 & Hrun & Hok1 & Hle1).
    destruct (IH h1 c1 Hok1) as (h' & c' & Hrest & Hok' & Hle').
    exists h', c'. cbn [clicks fst snd]. rewrite Hrun. simpl.
    split_and!; [done|done|by eapply num_leb_trans].
Qed.

(** X27.  Between clicks the page stays in order.  From a state in which
    the board is a position of the game, the cache is sound and the
    table covers the board, every run of clicks on rows of the board
    goes through without error and ends in such a state again; along
    the run the minimax score of the board never goes down. *)
Theorem clicks_keep_page (root : Board) (ps : list (nat * nat))
    (h : HTMLBoard) (c : gmap string num) :
  mark (compSymbol root) → pageOk root h c →
  Forall (λ p, p.2 < boardSize root) ps →
  ∃ h' c', clicks ps h c = Some (h', c') ∧ pageOk root h' c' ∧
           num_leb (minimax (vBoard h)) (minimax (vBoard h')) = true.
Proof. exact (clicks_sound root ps h c). Qed.

Lemma clicks_keep_page_witness :
  let b := mkBoard (state scenarioBoard) X false in
  let h := mkHTMLBoard b (replicate 3 (replicate 3 freshElement))
             freshElement freshElement in
  mark (compSymbol b) ∧ pageOk b h ∅ ∧
  Forall (λ p : nat * nat, p.2 < boardSize b) [(1, 0); (0, 0); (2, 2)] ∧
  ∃ h' c', clicks [(1, 0); (0, 0); (2, 2)] h ∅ = Some (h', c') ∧
           pageOk b h' c'.
Proof.
  intros b h.
  assert (Hm : mark (compSymbol b)) by (by left).
  assert (Hok : pageOk b h ∅).
  { split_and!; [repeat constructor|apply rtc_refl|apply cacheSound_empty
                |by apply table3_covers|by left]. }
  assert (Hps : Forall (λ p : nat * nat, p.2 < boardSize b)
                  [(1, 0); (0, 0); (2, 2)]).
  { repeat constructor; simpl; change (boardSize b) with 3; lia. }
  split_and!; [exact Hm|exact Hok|exact Hps|].
  destruct (clicks_keep_page b _ h ∅ Hm Hok Hps)
    as (h' & c' & Hrun & Hok' & _).
  exists h', c'. exact (conj Hrun Hok').
Defined.

(** ** The constructor of the page *)




(** ** The game of [index.js] *)

Lemma openingBoard_minimax : minimax openingBoard = Fin 0.
Proof.
  rewrite <- (proj1 (getScore_sound openingBoard openingBoard ∅
                       (or_introl eq_refl) (rtc_refl _ _)
                       (cacheSound_empty _))).
  by vm_compute.
Qed.

(** X29.  The computer never loses the game that [index.js] sets up.
    The page is built without error on the empty 3×3 board with the
    human to move, and any run of clicks on the rows of the table goes
    through without error and ends on a position of the game for which
    the verdict of [getWinner] is not the human's mark ["O"]. *)
Theorem indexJs_never_loses (who prediction : element) :
  ∃ h0 c0,
    indexJs who prediction = Some (h0, c0) ∧ vBoard h0 = openingBoard ∧
    ∀ ps, Forall (λ p : nat * nat, p.2 < 3) ps →
          ∃ h' c', clicks ps h0 c0 = Some (h', c') ∧
                   getWinner (vBoard h') ≠ O ∧
                   reachable openingBoard (vBoard h').
Proof.
  assert (Hm : mark (compSymbol openingBoard)) by (by left).
  destruct (render_ok openingBoard (openingPage who prediction) ∅ Hm
              (rtc_refl _ _) (cacheSound_empty _)
              (openingPage_covers who prediction))
    as (h0 & c0 & Hr & Hv & Hc0 & Hcov0).
  change (vBoard h0 = openingBoard) in Hv.
  exists h0, c0. split_and!; [|done|].
  { unfold indexJs, newHTMLBoard. simpl. exact Hr. }
  assert (Hok : pageOk openingBoard h0 c0).
  { split_and!; rewrite ?Hv; [repeat constructor|apply rtc_refl|done|done
                             |by left]. }
  intros ps Hps.
  destruct (clicks_sound openingBoard ps h0 c0 Hm Hok Hps)
    as (h' & c' & Hrun & (Hsq & Hb & _) & Hle).
  exists h', c'. split_and!; [done| |done].
  intros Hw. rewrite Hv, openingBoard_minimax in Hle.
  pose proof (reachable_compSymbol _ _ Hb) as Hcs.
  assert (mark (compSymbol (vBoard h'))) as Hmb by (by rewrite Hcs).
  destruct (reachable_turn _ _ Hm Hb) as [He _].
  change (countE (state openingBoard)) with 9 in He.
  rewrite minimax_unfold in Hle by done.
  rewrite decide_False in Hle by (rewrite Hw, Hcs; done).
  rewrite decide_True in Hle.
  2:{ unfold humanSymbol. by rewrite Hw, Hcs. }
  rewrite (getChildBoards_length _ Hsq) in Hle. simpl in Hle.
  apply Z.leb_le in Hle. lia.
Qed.
